(** * QuBLAS: bit-exact fixed-point arithmetic and its linear-algebra kernels

    A shallow embedding of [include/QuBLAS.h].  Template parameters become
    ordinary arguments, a scalar [Qu_s<...>] becomes a record that carries
    its format next to its raw [data], [static_assert]s and [throw]s become
    the [Err] results of an error monad, and the static buffers of the
    kernels live in an explicit store.

    Machine integers are modelled in [Z]: conversions ([static_cast<int>],
    [static_cast<long long int>], conversions to [unsigned long long]) and
    left shifts wrap as C++20 defines them; signed [+], [-] and [*] are
    exact (the operands are products and sums of 32-bit raw data). *)

From Stdlib Require Import ZArith QArith Lia Bool.
From stdpp Require Import base list strings gmap.

Local Open Scope Z_scope.

(** ** Errors *)

(** [CompileError]: the instantiation is rejected when the program is built
    (a failed [static_assert], a template with no matching specialisation,
    an initialiser of a [constexpr] variable that is no constant
    expression, a name used for what it does not denote).
    [RuntimeError msg]: [throw std::runtime_error(msg)].
    [UndefinedBehaviour]: the language gives the operation no meaning (a
    shift by the width of the type or more, a signed negation or division
    that overflows, a division by zero). *)
Inductive error : Type :=
| CompileError
| RuntimeError (msg : string)
| UndefinedBehaviour.

Inductive result (A : Type) : Type :=
| Ok (a : A)
| Err (e : error).
Arguments Ok {A} a.
Arguments Err {A} e.

Definition rbind {A B : Type} (c : result A) (k : A -> result B) : result B :=
  match c with
  | Ok a => k a
  | Err e => Err e
  end.

Notation "'do' x <- c ; k" := (rbind c (fun x => k))
  (at level 10, x name, c at level 100, k at level 200).

(** ** Machine integers *)

(** [static_cast<int>] *)
Definition cast_int (z : Z) : Z := (z + 2 ^ 31) mod 2 ^ 32 - 2 ^ 31.
(** [static_cast<long long int>] *)
Definition cast_ll (z : Z) : Z := (z + 2 ^ 63) mod 2 ^ 64 - 2 ^ 63.
(** conversion to [unsigned long long int] *)
Definition cast_ull (z : Z) : Z := z mod 2 ^ 64.

(** [x << n] on [int] and on [long long int]: for [0 <= n] below the width,
    the value congruent to [x * 2^n] modulo the width.  For the other [n]
    the language gives the shift no meaning; the definitions continue the
    formula, and the guards [shl_defined], [shr_defined] and
    [mask_defined] mark the calls of the source whose amount is computed
    from operands. *)
Definition shl32 (x n : Z) : Z := cast_int (Z.shiftl x n).
Definition shl64 (x n : Z) : Z := cast_ll (Z.shiftl x n).

(** [x << n] on [long long int] has a value for [0 <= n < 64] only. *)
Definition shl_defined (n : Z) : result unit :=
  if (n <? 0) || (64 <=? n) then Err UndefinedBehaviour else Ok tt.

(** [a / b] on [long long int]: the quotient truncated toward zero.  A
    zero divisor and [LLONG_MIN / -1] have no value. *)
Definition div_ll (a b : Z) : result Z :=
  if (b =? 0) || ((a =? - 2 ^ 63) && (b =? -1)) then Err UndefinedBehaviour
  else Ok (Z.quot a b).

(** [-x] on [int]: [-INT_MIN] has no value. *)
Definition neg_int (x : Z) : result Z :=
  if x =? - 2 ^ 31 then Err UndefinedBehaviour else Ok (- x).

(** ** shifter *)

(** [shiftLeftDynamic] and [shiftRightDynamic]: a negative amount shifts
    the other way.  [>>] on a negative [long long int] is the arithmetic
    shift, the floor of the quotient. *)
Definition shiftLeftDynamic (val shift : Z) : Z :=
  if 0 <=? shift then shl64 val shift else Z.shiftr val (- shift).

Definition shiftRightDynamic (val shift : Z) : Z :=
  if 0 <=? shift then Z.shiftr val shift else shl64 val (- shift).

(** A [double] is modelled by the rational it denotes; scaling by a power
    of two is exact on doubles, and the conversion to [long long int]
    truncates toward zero; it has no value when the truncated number is
    no [long long int]. *)
Definition Qtrunc (x : Q) : Z := Z.quot (Qnum x) (Zpos (Qden x)).

Definition cast_double_ll (x : Q) : result Z :=
  let t := Qtrunc x in
  if (- 2 ^ 63 <=? t) && (t <? 2 ^ 63) then Ok t else Err UndefinedBehaviour.

Definition pow2Q (n : Z) : Q := inject_Z (shl32 1 n).

(** [shifter<shift>::toDouble] and [toDoubleDynamic] *)
Definition toDoubleDynamic (val shift : Z) : Q :=
  if 0 <=? shift then (inject_Z val / pow2Q shift)%Q
  else (inject_Z val * pow2Q (- shift))%Q.

(** [shifter<shift>::input] and [inputDynamic] *)
Definition inputDynamic (val : Q) (shift : Z) : result Z :=
  if 0 <=? shift then cast_double_ll (val * pow2Q shift)%Q
  else if Qlt_le_dec val (pow2Q (- shift))
       then do t <- cast_double_ll ((val * pow2Q (- shift)) / pow2Q (- shift))%Q;
            Ok (Z.shiftr t (- shift))
       else cast_double_ll (val / pow2Q (- shift))%Q.

(** ** Quantization policies *)

Module RND.
Definition POS_INF : Z := 0.
Definition NEG_INF : Z := 1.
Definition ZERO : Z := 2.
Definition INF : Z := 3.
Definition CONV : Z := 4.
End RND.

Module TRN.
Definition TCPL : Z := 5.
Definition SMGN : Z := 6.
End TRN.

Module SAT.
Definition TCPL : Z := 0.
Definition ZERO : Z := 1.
Definition SMGN : Z := 2.
End SAT.

(** [WRP::TCPL_SAT<N>] has [value = 4] for every [N]; the instances are
    different types. *)
Module WRP.
Definition TCPL : Z := 3.
Definition TCPL_SAT : Z := 4.
End WRP.

(** ** Casting algebra: the fractional part *)

Section FracCases.
Variables (fromFrac toFrac val : Z).

Let d : Z := fromFrac - toFrac.
  (** [mask = 0 - (1 << d)], an [int] converted to [unsigned long long] *)
Let mask : Z := cast_ull (0 - shl32 1 d).
  (** [floor = val & mask] *)
Let floor : Z := cast_ll (Z.land (cast_ull val) mask).
Let ceil : Z := floor + shl32 1 d.

Definition frac_floor : Z := floor.
Definition frac_ceil : Z := ceil.

Definition fracConvert_POS_INF : Z :=
    if fromFrac <=? toFrac then shl64 val (toFrac - fromFrac)
    else Z.shiftr (if val - floor <? ceil - val then floor else ceil) d.

Definition fracConvert_NEG_INF : Z :=
    if fromFrac <=? toFrac then shl64 val (toFrac - fromFrac)
    else Z.shiftr (if val - floor <=? ceil - val then floor else ceil) d.

Definition fracConvert_ZERO : Z :=
    if fromFrac <=? toFrac then shl64 val (toFrac - fromFrac)
    else if 0 <? floor + ceil then Z.shiftr floor d else Z.shiftr ceil d.

Definition fracConvert_INF : Z :=
    if fromFrac <=? toFrac then shl64 val (toFrac - fromFrac)
    else if floor + ceil <? 0 then Z.shiftr floor d else Z.shiftr ceil d.

Definition fracConvert_CONV : Z :=
    if fromFrac <=? toFrac then shl64 val (toFrac - fromFrac)
    else if floor + ceil =? shl64 val 1
         then (let mask2 := cast_ull (shl32 1 d) in
               if negb (Z.land (cast_ull floor) mask2 =? 0)
               then Z.shiftr ceil d else Z.shiftr floor d)
         else if val - floor <? ceil - val then Z.shiftr floor d else Z.shiftr ceil d.

Definition fracConvert_TCPL : Z := shiftRightDynamic val d.

(** [-val] is taken in [Z]; on [long long int] it has no value at
    [LLONG_MIN]. *)
Definition fracConvert_SMGN : Z :=
    if fromFrac <? toFrac then shl64 val (toFrac - fromFrac)
    else if 0 <=? val then Z.shiftr val d else - Z.shiftr (- val) d.
End FracCases.

(** The branch of a rounding mode that drops [d = fromFrac - toFrac] bits
    starts with [mask = 0 - (1 << d)], computed on [int].  For [d >= 31]
    it has no value: [1 << 31] is [INT_MIN], whose negation overflows, and
    a shift by 32 or more is undefined.  In a static specialisation
    [mask] is [static constexpr], so the specialisation is rejected; in
    [fracConvertDynamic] the behaviour is undefined. *)
Definition mask_constexpr (d : Z) : result unit :=
  if 31 <=? d then Err CompileError else Ok tt.
Definition mask_defined (d : Z) : result unit :=
  if 31 <=? d then Err UndefinedBehaviour else Ok tt.

(** [val >> d] on [long long int] is undefined for [d >= 64]. *)
Definition shr_defined (d : Z) : result unit :=
  if 64 <=? d then Err UndefinedBehaviour else Ok tt.

Arguments mask_constexpr : simpl never.
Arguments mask_defined : simpl never.
Arguments shr_defined : simpl never.

(** The seven specialisations of [fracConvert<fromFrac, toFrac, QuMode<M>>];
    the primary template is only declared. *)
Definition fracConvert (fromFrac toFrac QuM val : Z) : result Z :=
  let d := fromFrac - toFrac in
  if QuM =? RND.POS_INF
  then do _ <- mask_constexpr d; Ok (fracConvert_POS_INF fromFrac toFrac val)
  else if QuM =? RND.NEG_INF
  then do _ <- mask_constexpr d; Ok (fracConvert_NEG_INF fromFrac toFrac val)
  else if QuM =? RND.ZERO
  then do _ <- mask_constexpr d; Ok (fracConvert_ZERO fromFrac toFrac val)
  else if QuM =? RND.INF
  then do _ <- mask_constexpr d; Ok (fracConvert_INF fromFrac toFrac val)
  else if QuM =? RND.CONV
  then do _ <- mask_constexpr d; Ok (fracConvert_CONV fromFrac toFrac val)
  else if QuM =? TRN.TCPL
  then do _ <- shr_defined d; Ok (fracConvert_TCPL fromFrac toFrac val)
  else if QuM =? TRN.SMGN
  then do _ <- shr_defined d; Ok (fracConvert_SMGN fromFrac toFrac val)
  else Err CompileError.

(** [fracConvertDynamic]: the same seven bodies behind a [switch]. *)
Definition fracConvertDynamic (val fromFrac toFrac QuModeTag : Z) : result Z :=
  let d := fromFrac - toFrac in
  match QuModeTag with
  | 0 => do _ <- mask_defined d; Ok (fracConvert_POS_INF fromFrac toFrac val)
  | 1 => do _ <- mask_defined d; Ok (fracConvert_NEG_INF fromFrac toFrac val)
  | 2 => do _ <- mask_defined d; Ok (fracConvert_ZERO fromFrac toFrac val)
  | 3 => do _ <- mask_defined d; Ok (fracConvert_INF fromFrac toFrac val)
  | 4 => do _ <- mask_defined d; Ok (fracConvert_CONV fromFrac toFrac val)
  | 5 => do _ <- shr_defined d; Ok (fracConvert_TCPL fromFrac toFrac val)
  | 6 => do _ <- shr_defined d; Ok (fracConvert_SMGN fromFrac toFrac val)
  | _ => Err (RuntimeError "Invalid QuMode")
  end.

(** ** Casting algebra: the integer part *)

Section IntCases.
Variables (toInt toFrac : Z) (toIsSigned : bool) (val : Z).

Let maxVal : Z := cast_ll (cast_ull (cast_ull (Z.shiftl 1 (toInt + toFrac)) - 1)).
Let minVal : Z := if toIsSigned then - maxVal - 1 else 0.

Definition int_maxVal : Z := maxVal.
Definition int_minVal : Z := minVal.

Definition intConvert_SAT_TCPL : Z :=
    cast_int (Z.min (Z.max val minVal) maxVal).

Definition intConvert_SAT_ZERO : Z :=
    if (maxVal <? val) || (val <? minVal) then 0 else cast_int val.

Definition intConvert_SAT_SMGN : Z :=
    cast_int (Z.min (Z.max val (minVal + 1)) maxVal).

Definition intConvert_WRP_TCPL : Z :=
    if toIsSigned then
      let mask := cast_ull (cast_ull (Z.shiftl 1 (toInt + toFrac + 1)) - 1) in
      let maskedVal := Z.land (cast_ull val) mask in
      if negb (Z.shiftr maskedVal (toInt + toFrac) =? 0)
      then cast_int (Z.lor maskedVal (cast_ull (Z.lnot mask)))
      else cast_int maskedVal
    else
      let mask := cast_ull (cast_ull (Z.shiftl 1 (toInt + toFrac)) - 1) in
      cast_int (Z.land (cast_ull val) mask).
End IntCases.

(** [intConvert<toInt, toFrac, toIsSigned, OfMode<M>>]; the specialisation
    for [WRP::TCPL_SAT<N>] throws. *)
Definition intConvert (toInt toFrac : Z) (toIsSigned : bool) (OfM val : Z) : result Z :=
  if OfM =? SAT.TCPL then Ok (intConvert_SAT_TCPL toInt toFrac toIsSigned val)
  else if OfM =? SAT.ZERO then Ok (intConvert_SAT_ZERO toInt toFrac toIsSigned val)
  else if OfM =? SAT.SMGN then Ok (intConvert_SAT_SMGN toInt toFrac toIsSigned val)
  else if OfM =? WRP.TCPL then Ok (intConvert_WRP_TCPL toInt toFrac toIsSigned val)
  else if OfM =? WRP.TCPL_SAT then Err (RuntimeError "Very cool, coming soon")
  else Err CompileError.

Definition intConvertDynamic (val toInt toFrac : Z) (toIsSigned : bool) (OfModeTag : Z)
  : result Z :=
  match OfModeTag with
  | 0 => Ok (intConvert_SAT_TCPL toInt toFrac toIsSigned val)
  | 1 => Ok (intConvert_SAT_ZERO toInt toFrac toIsSigned val)
  | 2 => Ok (intConvert_SAT_SMGN toInt toFrac toIsSigned val)
  | 3 => Ok (intConvert_WRP_TCPL toInt toFrac toIsSigned val)
  | _ => Err (RuntimeError "Invalid OfMode")
  end.

(** ** Scalar fixed-point values *)

Definition defaultIntBits : Z := 12.
Definition defaultFracBits : Z := 12.
Definition defaultIsSigned : bool := true.
Definition defaultQuMode : Z := TRN.TCPL.
Definition defaultOfMode : Z := SAT.TCPL.

(** The five template arguments of a scalar [Qu_s]; the modes are kept by
    their [value] members, as the class itself does in [QuM] and [OfM]. *)
Record QuType : Type := mkQuType {
  intB : Z;
  fracB : Z;
  isS : bool;
  QuM : Z;
  OfM : Z
}.

(** A scalar: [dynamic] tells [Qu_s<QuDynamic>], whose format is stored in
    the object, from a static [Qu_s<intBits<..>, ...>], whose format is its
    type.  [data] is the raw [int]. *)
Record Qu : Type := mkQu {
  dynamic : bool;
  type : QuType;
  data : Z
}.

Definition static_assert (b : bool) : result unit :=
  if b then Ok tt else Err CompileError.

(** The [static_assert] in the body of the static scalar class. *)
Definition Qu_s_assert (T : QuType) : bool :=
  (0 <=? intB T + fracB T) && (intB T + fracB T <=? 31).

(** [Qu_s<...>(val, DirectAssignTag())] *)
Definition Qu_s (T : QuType) (val : Z) : result Qu :=
  do _ <- static_assert (Qu_s_assert T);
  Ok (mkQu false T (cast_int val)).

(** [Qu_s<...>(T val)] for an arithmetic [val] *)
Definition Qu_s_of_real (T : QuType) (val : Q) : result Qu :=
  do _ <- static_assert (Qu_s_assert T);
  do longVal <- inputDynamic val (fracB T);
  do longVal <- fracConvert (fracB T) (fracB T) (QuM T) longVal;
  do d <- intConvert (intB T) (fracB T) (isS T) (OfM T) longVal;
  Ok (mkQu false T d).

(** Construction of, and assignment to, a static scalar of type [T] from
    another scalar. *)
Definition Qu_s_from (T : QuType) (val : Qu) : result Qu :=
  do _ <- static_assert (Qu_s_assert T);
  if dynamic val then
    let longVal := cast_ll (data val) in
    do longVal <- fracConvertDynamic longVal (fracB (type val)) (fracB T) (QuM T);
    do d <- intConvertDynamic longVal (intB T) (fracB T) (isS T) (OfM T);
    Ok (mkQu false T d)
  else if (intB (type val) =? intB T) && (fracB (type val) =? fracB T)
          && Bool.eqb (isS (type val)) (isS T)
  then Ok (mkQu false T (data val))
  else
    do fracVal <- fracConvert (fracB (type val)) (fracB T) (QuM T) (cast_ll (data val));
    do d <- intConvert (intB T) (fracB T) (isS T) (OfM T) fracVal;
    Ok (mkQu false T d).

Definition toDouble (q : Qu) : Q := toDoubleDynamic (data q) (fracB (type q)).

(** ** Policy bundles *)

(** The tags a primitive looks for in its template arguments.  [Qu_s_arg]
    is a scalar type left unexpanded in a longer argument list, and
    [nullptr_t] any other type: neither matches a tag template. *)
Inductive Tag : Type :=
| intBits (n : Z)
| fracBits (n : Z)
| isSigned (b : bool)
| QuMode (m : Z)
| OfMode (m : Z)
| FullPrec
| Qu_s_arg (T : QuType)
| nullptr_t.

(** A template argument as the caller writes it. *)
Inductive TArg : Type :=
| ArgTag (t : Tag)
| ArgQu (T : QuType)
| ArgTypeList (l : list Tag).

Definition arg_tag (a : TArg) : Tag :=
  match a with
  | ArgTag t => t
  | ArgQu T => Qu_s_arg T
  | ArgTypeList _ => nullptr_t
  end.

(** [MergerArgsWrapper]: a lone [TypeList] is replaced by the empty list,
    a lone scalar type by its five tags. *)
Definition MergerArgsWrapper (args : list TArg) : list Tag :=
  match args with
  | [ArgTypeList _] => []
  | [ArgQu T] => [intBits (intB T); fracBits (fracB T); isSigned (isS T);
                  QuMode (QuM T); OfMode (OfM T)]
  | _ => arg_tag <$> args
  end.

(** [tagExtractor]: the first argument built from the wanted tag template,
    the default when there is none. *)
Fixpoint tagExtractor {A : Type} (sel : Tag -> option A) (default : A)
    (args : list Tag) : A :=
  match args with
  | [] => default
  | a :: rest =>
      match sel a with
      | Some v => v
      | None => tagExtractor sel default rest
      end
  end.

Definition sel_intBits (t : Tag) : option Z :=
  match t with intBits n => Some n | _ => None end.
Definition sel_fracBits (t : Tag) : option Z :=
  match t with fracBits n => Some n | _ => None end.
Definition sel_isSigned (t : Tag) : option bool :=
  match t with isSigned b => Some b | _ => None end.
Definition sel_QuMode (t : Tag) : option Z :=
  match t with QuMode m => Some m | _ => None end.
Definition sel_OfMode (t : Tag) : option Z :=
  match t with OfMode m => Some m | _ => None end.
Definition sel_FullPrec (t : Tag) : option unit :=
  match t with FullPrec => Some tt | _ => None end.

(** [(isA<Tag<..>, toArgs> || ...)] *)
Definition hasTag {A : Type} (sel : Tag -> option A) (args : list Tag) : bool :=
  existsb (fun t => match sel t with Some _ => true | None => false end) args.

(** ** Merger rules *)

Record Merger : Type := mkMerger {
  fullPrecision : bool;
  toInt : Z;
  toFrac : Z;
  toIsSigned : bool;
  toQuMode : Z;
  toOfMode : Z
}.

(** [toIntFinal] and [toFracFinal]: "process toInt and toFrac when
    toInt + toFrac > 31"; [/] is the division of [int]. *)
Definition toIntFinal (toInt toFrac : Z) : Z :=
  if 31 <? toInt + toFrac then toInt - Z.quot (toInt + toFrac - 31 + 1) 2 else toInt.
Definition toFracFinal (toInt toFrac : Z) : Z :=
  if 31 <? toFrac + toInt then toFrac - Z.quot (toInt + toFrac - 31 + 1) 2 else toFrac.

(** [std::conditional_t<std::is_same_v<M1, M2>, M1, default>] on two mode
    types.  A mode is kept by its [value]; the plain modes are distinct
    types with distinct values, so on them the comparison of the types is
    the comparison of the values.  The instances of [WRP::TCPL_SAT<N>] all
    have the value 4, so the model stands for the programs that use one
    instance of that template. *)
Definition fromMode (m1 m2 default : Z) : Z := if m1 =? m2 then m1 else default.

Definition MulMerger (T1 T2 : QuType) (toArgs : list Tag) : Merger :=
  let fullPrecision := hasTag sel_FullPrec toArgs in
  let fromQuMode := fromMode (QuM T1) (QuM T2) defaultQuMode in
  let fromOfMode := fromMode (OfM T1) (OfM T2) defaultOfMode in
  {| fullPrecision := fullPrecision;
     toInt := tagExtractor sel_intBits
                (if fullPrecision then intB T1 + intB T2 else Z.max (intB T1) (intB T2))
                toArgs;
     toFrac := tagExtractor sel_fracBits
                 (if fullPrecision then fracB T1 + fracB T2 else Z.max (fracB T1) (fracB T2))
                 toArgs;
     toIsSigned := tagExtractor sel_isSigned (isS T1 || isS T2) toArgs;
     toQuMode := tagExtractor sel_QuMode fromQuMode toArgs;
     toOfMode := tagExtractor sel_OfMode fromOfMode toArgs |}.

Definition AddMerger (T1 T2 : QuType) (toArgs : list Tag) : Merger :=
  let fullPrecision := hasTag sel_FullPrec toArgs in
  let fromQuMode := fromMode (QuM T1) (QuM T2) defaultQuMode in
  let fromOfMode := fromMode (OfM T1) (OfM T2) defaultOfMode in
  {| fullPrecision := fullPrecision;
     toInt := tagExtractor sel_intBits
                (if fullPrecision then Z.max (intB T1) (intB T2) + 1
                 else Z.max (intB T1) (intB T2))
                toArgs;
     toFrac := tagExtractor sel_fracBits (Z.max (fracB T1) (fracB T2)) toArgs;
     toIsSigned := tagExtractor sel_isSigned (isS T1 || isS T2) toArgs;
     toQuMode := tagExtractor sel_QuMode fromQuMode toArgs;
     toOfMode := tagExtractor sel_OfMode fromOfMode toArgs |}.

(** The type the static primitives return: the merged widths as they are. *)
Definition mergedType (m : Merger) : QuType :=
  mkQuType (toInt m) (toFrac m) (toIsSigned m) (toQuMode m) (toOfMode m).

(** [Merger::resType], and the format a dynamic primitive stores in its
    result: the merged widths after the cap. *)
Definition resType (m : Merger) : QuType :=
  mkQuType (toIntFinal (toInt m) (toFrac m)) (toFracFinal (toInt m) (toFrac m))
           (toIsSigned m) (toQuMode m) (toOfMode m).

(** ** Primitive arithmetic *)

Definition shiftA_of (fromFrac1 fromFrac2 : Z) : Z :=
  if fromFrac1 <? fromFrac2 then fromFrac2 - fromFrac1 else 0.
Definition shiftB_of (fromFrac1 fromFrac2 : Z) : Z :=
  if fromFrac2 <? fromFrac1 then fromFrac1 - fromFrac2 else 0.

(** The merged axes a dynamic primitive computes at run time:
    [hasIntBits ? toArgInt : ...] and its siblings. *)
Definition dynMerger (mul : bool) (T1 T2 : QuType) (toArgs : list Tag) : Merger :=
  let fullPrecision := hasTag sel_FullPrec toArgs in
  let toArgInt := tagExtractor sel_intBits defaultIntBits toArgs in
  let toArgFrac := tagExtractor sel_fracBits defaultFracBits toArgs in
  let toArgIsSigned := tagExtractor sel_isSigned defaultIsSigned toArgs in
  let toArgQuMode := tagExtractor sel_QuMode defaultQuMode toArgs in
  let toArgOfMode := tagExtractor sel_OfMode defaultOfMode toArgs in
  {| fullPrecision := fullPrecision;
     toInt := if hasTag sel_intBits toArgs then toArgInt
              else if mul
                   then (if fullPrecision then intB T1 + intB T2
                         else Z.max (intB T1) (intB T2))
                   else (if fullPrecision then Z.max (intB T1) (intB T2) + 1
                         else Z.max (intB T1) (intB T2));
     toFrac := if hasTag sel_fracBits toArgs then toArgFrac
               else if mul
                    then (if fullPrecision then fracB T1 + fracB T2
                          else Z.max (fracB T1) (fracB T2))
                    else Z.max (fracB T1) (fracB T2);
     toIsSigned := if hasTag sel_isSigned toArgs then toArgIsSigned
                   else isS T1 || isS T2;
     toQuMode := if hasTag sel_QuMode toArgs then toArgQuMode
                 else if QuM T1 =? QuM T2 then QuM T1 else defaultQuMode;
     toOfMode := if hasTag sel_OfMode toArgs then toArgOfMode
                 else if OfM T1 =? OfM T2 then OfM T1 else defaultOfMode |}.

Module Qmul_s.
  (** both inputs static *)
Definition mul (toArgs : list Tag) (f1 f2 : Qu) : result Qu :=
    let merger := MulMerger (type f1) (type f2) toArgs in
    do _ <- static_assert (Qu_s_assert (mergedType merger));
    let fullProduct := cast_ll (data f1) * cast_ll (data f2) in
    do fracProduct <- fracConvert (fracB (type f1) + fracB (type f2)) (toFrac merger)
                                  (toQuMode merger) fullProduct;
    do intProduct <- intConvert (toInt merger) (toFrac merger) (toIsSigned merger)
                                (toOfMode merger) fracProduct;
    Qu_s (mergedType merger) intProduct.

  (** any input [QuDynamic] *)
Definition mul_dynamic (toArgs : list Tag) (f1 f2 : Qu) : result Qu :=
    let m := dynMerger true (type f1) (type f2) toArgs in
    let res := resType m in
    let fullProduct := cast_ll (data f1) * cast_ll (data f2) in
    do fracProduct <- fracConvertDynamic fullProduct (fracB (type f1) + fracB (type f2))
                                         (fracB res) (toQuMode m);
    do d <- intConvertDynamic fracProduct (intB res) (fracB res) (toIsSigned m) (toOfMode m);
    Ok (mkQu true res d).
End Qmul_s.

Module Qadd_s.
Definition add (toArgs : list Tag) (f1 f2 : Qu) : result Qu :=
    let merger := AddMerger (type f1) (type f2) toArgs in
    let shiftA := shiftA_of (fracB (type f1)) (fracB (type f2)) in
    let shiftB := shiftB_of (fracB (type f1)) (fracB (type f2)) in
    do _ <- static_assert (Qu_s_assert (mergedType merger));
    let fullSum := cast_ll (shl32 (data f1) shiftA) + cast_ll (shl32 (data f2) shiftB) in
    do fracSum <- fracConvert (Z.max (fracB (type f1)) (fracB (type f2))) (toFrac merger)
                              (toQuMode merger) fullSum;
    do intSum <- intConvert (toInt merger) (toFrac merger) (toIsSigned merger)
                            (toOfMode merger) fracSum;
    Qu_s (mergedType merger) intSum.

Definition add_dynamic (toArgs : list Tag) (f1 f2 : Qu) : result Qu :=
    let m := dynMerger false (type f1) (type f2) toArgs in
    let res := resType m in
    let shiftA := shiftA_of (fracB (type f1)) (fracB (type f2)) in
    let shiftB := shiftB_of (fracB (type f1)) (fracB (type f2)) in
    let fullSum := cast_ll (shl32 (data f1) shiftA) + cast_ll (shl32 (data f2) shiftB) in
    do fracSum <- fracConvertDynamic fullSum (Z.max (fracB (type f1)) (fracB (type f2)))
                                     (fracB res) (toQuMode m);
    do d <- intConvertDynamic fracSum (intB res) (fracB res) (toIsSigned m) (toOfMode m);
    Ok (mkQu true res d).
End Qadd_s.

(** The static specialisations of [Qsub_s] and [Qdiv_s] require that the
    head of the argument list is not a scalar type. *)
Definition head_not_Qu_s (toArgs : list Tag) : bool :=
  match toArgs with
  | Qu_s_arg _ :: _ => false
  | _ => true
  end.

Module Qsub_s.
Definition sub (toArgs : list Tag) (f1 f2 : Qu) : result Qu :=
    let merger := AddMerger (type f1) (type f2) toArgs in
    let shiftA := shiftA_of (fracB (type f1)) (fracB (type f2)) in
    let shiftB := shiftB_of (fracB (type f1)) (fracB (type f2)) in
    do _ <- static_assert (head_not_Qu_s toArgs);
    do _ <- static_assert (Qu_s_assert (mergedType merger));
    let fullDiff := cast_ll (shl32 (data f1) shiftA) - cast_ll (shl32 (data f2) shiftB) in
    do fracDiff <- fracConvert (Z.max (fracB (type f1)) (fracB (type f2))) (toFrac merger)
                               (toQuMode merger) fullDiff;
    do intDiff <- intConvert (toInt merger) (toFrac merger) (toIsSigned merger)
                             (toOfMode merger) fracDiff;
    Qu_s (mergedType merger) intDiff.

Definition sub_dynamic (toArgs : list Tag) (f1 f2 : Qu) : result Qu :=
    let m := dynMerger false (type f1) (type f2) toArgs in
    let res := resType m in
    let shiftA := shiftA_of (fracB (type f1)) (fracB (type f2)) in
    let shiftB := shiftB_of (fracB (type f1)) (fracB (type f2)) in
    let fullSum := cast_ll (shl32 (data f1) shiftA) - cast_ll (shl32 (data f2) shiftB) in
    do fracSum <- fracConvertDynamic fullSum (Z.max (fracB (type f1)) (fracB (type f2)))
                                     (fracB res) (toQuMode m);
    do d <- intConvertDynamic fracSum (intB res) (fracB res) (toIsSigned m) (toOfMode m);
    Ok (mkQu true res d).
End Qsub_s.

Module Qdiv_s.
Definition div (toArgs : list Tag) (f1 f2 : Qu) : result Qu :=
    let merger := AddMerger (type f1) (type f2) toArgs in
    let shiftA := shiftA_of (fracB (type f1)) (fracB (type f2)) in
    let shiftB := shiftB_of (fracB (type f1)) (fracB (type f2)) in
    do _ <- static_assert (head_not_Qu_s toArgs);
    do _ <- static_assert (Qu_s_assert (mergedType merger));
    if data f2 =? 0 then Qu_s (mergedType merger) 0
    else
      do _ <- shl_defined shiftA;
      do _ <- shl_defined (toFrac merger);
      do _ <- shl_defined shiftB;
      do fullQuotient <-
        div_ll (shl64 (shl64 (cast_ll (data f1)) shiftA) (toFrac merger))
               (shl64 (cast_ll (data f2)) shiftB);
      do intQuotient <- intConvert (toInt merger) (toFrac merger) (toIsSigned merger)
                                   (toOfMode merger) fullQuotient;
      Qu_s (mergedType merger) intQuotient.

Definition div_dynamic (toArgs : list Tag) (f1 f2 : Qu) : result Qu :=
    let m := dynMerger false (type f1) (type f2) toArgs in
    let res := resType m in
    let shiftA := shiftA_of (fracB (type f1)) (fracB (type f2)) in
    let shiftB := shiftB_of (fracB (type f1)) (fracB (type f2)) in
    if data f2 =? 0 then Ok (mkQu true res 0)
    else
      do _ <- shl_defined shiftA;
      do _ <- shl_defined (fracB res);
      do _ <- shl_defined shiftB;
      do fullQuotient <-
        div_ll (shl64 (shl64 (cast_ll (data f1)) shiftA) (fracB res))
               (shl64 (cast_ll (data f2)) shiftB);
      do intQuotient <- intConvertDynamic fullQuotient (intB res) (fracB res)
                                          (toIsSigned m) (toOfMode m);
      Ok (mkQu true res intQuotient).
End Qdiv_s.

(** The scalar entry points: [Qmul<toArgs...>(f1, f2)] and its siblings
    wrap the arguments and select the specialisation by the operands. *)
Definition Qmul (toArgs : list TArg) (f1 f2 : Qu) : result Qu :=
  if dynamic f1 || dynamic f2
  then Qmul_s.mul_dynamic (MergerArgsWrapper toArgs) f1 f2
  else Qmul_s.mul (MergerArgsWrapper toArgs) f1 f2.

Definition Qadd (toArgs : list TArg) (f1 f2 : Qu) : result Qu :=
  if dynamic f1 || dynamic f2
  then Qadd_s.add_dynamic (MergerArgsWrapper toArgs) f1 f2
  else Qadd_s.add (MergerArgsWrapper toArgs) f1 f2.

Definition Qsub (toArgs : list TArg) (f1 f2 : Qu) : result Qu :=
  if dynamic f1 || dynamic f2
  then Qsub_s.sub_dynamic (MergerArgsWrapper toArgs) f1 f2
  else Qsub_s.sub (MergerArgsWrapper toArgs) f1 f2.

Definition Qdiv (toArgs : list TArg) (f1 f2 : Qu) : result Qu :=
  if dynamic f1 || dynamic f2
  then Qdiv_s.div_dynamic (MergerArgsWrapper toArgs) f1 f2
  else Qdiv_s.div (MergerArgsWrapper toArgs) f1 f2.

(** The operators on scalars: [Qmul], [Qadd], [Qsub] and [Qdiv] without
    template arguments. *)
Definition op_mul (f1 f2 : Qu) : result Qu := Qmul [] f1 f2.
Definition op_add (f1 f2 : Qu) : result Qu := Qadd [] f1 f2.
Definition op_sub (f1 f2 : Qu) : result Qu := Qsub [] f1 f2.
Definition op_div (f1 f2 : Qu) : result Qu := Qdiv [] f1 f2.

(** ** The index arithmetic of a tensor of any rank *)

(** Conversion to [size_t]. *)
Definition size_t (z : Z) : nat := Z.to_nat (cast_ull z).

(** [dim<dims...>]: the offsets are column-major, computed on [size_t].
    [absoluteIndex_s<index...>::value] is the compile-time computation,
    [calculateIndex] the run-time one behind [operator[](index...)]. *)
Module dim.
Section dim.
Variable dims : list nat.

Definition dimSize : nat := length dims.
Definition elemSize : nat := size_t (Z.of_nat (foldr Nat.mul 1%nat dims)).

(** [std::accumulate(dimArray.begin(), dimArray.begin() + index2, 1,
    std::multiplies<size_t>())]: the initial value [1] makes the
    accumulator an [int]; each product is computed on [size_t] and
    narrowed to [int], and the result is converted to [size_t]. *)
Definition elemSizeForIndexHead (index2 : nat) : nat :=
  size_t (foldl (fun (init : Z) (d : nat) =>
                   cast_int (cast_ull (cast_ull init * Z.of_nat d)))
                1 (take index2 dims)).

(** [absoluteIndex_s<index...>::compute<loc, index...>]: the closing
    specialisation is the one for [loc = dimSize - 1] and one index. *)
Fixpoint compute (loc : nat) (index : list nat) : result nat :=
  match index with
  | [] => Err CompileError
  | [firstIndex] =>
      if (loc =? dimSize - 1)%nat
      then Ok (size_t (Z.of_nat firstIndex * Z.of_nat (elemSizeForIndexHead (dimSize - 1))))
      else Err CompileError
  | firstIndex :: indexLeft =>
      do rest <- compute (S loc) indexLeft;
      Ok (size_t (Z.of_nat firstIndex * Z.of_nat (elemSizeForIndexHead loc) + Z.of_nat rest))
  end.

(** [absoluteIndex_s<index...>::value] *)
Definition absoluteIndex_s (index : list nat) : result nat :=
  do _ <- static_assert (length index =? dimSize)%nat;
  compute 0 index.

Fixpoint calculateIndex (accum : nat) (index : list nat) : nat :=
  match index with
  | [] => accum
  | [first] =>
      size_t (Z.of_nat accum + Z.of_nat first * Z.of_nat (elemSizeForIndexHead (dimSize - 1)))
  | first :: rest =>
      let nextDimProduct := elemSizeForIndexHead (dimSize - length rest - 1) in
      calculateIndex (size_t (Z.of_nat accum + Z.of_nat first * Z.of_nat nextDimProduct)) rest
  end.

(** the offset [operator[](index...)] reads, for two indices or more *)
Definition subscript (index : list nat) : result nat :=
  do _ <- static_assert ((length index =? dimSize)%nat && (1 <? length index)%nat);
  Ok (calculateIndex 0 index).
End dim.
End dim.

(** ** Tensors *)

(** A loop (or a fold expression over an index sequence) whose body may
    fail: the bodies run in order, each on the state the previous one left. *)
Fixpoint for_each {S : Type} (idx : list nat) (body : nat -> S -> result S) (s : S)
  : result S :=
  match idx with
  | [] => Ok s
  | i :: rest => do s' <- body i s; for_each rest body s'
  end.

Definition zeroQu (T : QuType) : Qu := mkQu false T 0.

(** The element of index [i] of a buffer, the zero of type [T] when there
    is none: what the statements say of a cell. *)
Definition at_ (T : QuType) (buf : list Qu) (i : nat) : Qu :=
  nth i buf (zeroQu T).

(** [data[off]] on the [std::array] behind a tensor, read and written: an
    offset past the end has no defined behaviour. *)
Definition read (buf : list Qu) (off : nat) : result Qu :=
  match buf !! off with
  | Some q => Ok q
  | None => Err UndefinedBehaviour
  end.

Definition write (buf : list Qu) (off : nat) (q : Qu) : result (list Qu) :=
  if (off <? length buf)%nat then Ok (<[off := q]> buf) else Err UndefinedBehaviour.

(** *** The accessor [get<index...>()]

    [get<index...>()] is
    [data[dim<dims...>::template absoluteIndex<index...>]], and the header
    declares, in [dim],

      [template <size_t... index> requires(sizeof...(index) == dimSize)
       using absoluteIndex = absoluteIndex_s<index...>::value;]

    an alias template of the data member [value].  It names no type, and
    [get] uses it as a value: no [get] can be instantiated, and with it
    no kernel that reads a tensor through [get] ([Shipped]).  [Repaired]
    is the header in which that one declaration is the variable template

      [static constexpr size_t absoluteIndex = absoluteIndex_s<index...>::value;]

    which is what each use of [get] takes it to be; nothing else differs.
    What is proved of a kernel that goes through [get] is proved of
    [Repaired], and says so. *)
Inductive header : Type := Shipped | Repaired.

Definition absoluteIndex (hd : header) (dims index : list nat) : result nat :=
  match hd with
  | Shipped => Err CompileError
  | Repaired => dim.absoluteIndex_s dims index
  end.

(** A tensor of extents [dims] with static scalar elements of type [elemT]. *)
Section Tensor.
Variable hd : header.
Variables (elemT : QuType) (dims : list nat).

Definition get (A : list Qu) (index : list nat) : result Qu :=
  do off <- absoluteIndex hd dims index;
  read A off.

(** [A.get<index...>() = v]: [v] is converted to the element type. *)
Definition set (A : list Qu) (index : list nat) (v : Qu) : result (list Qu) :=
  do off <- absoluteIndex hd dims index;
  do e <- Qu_s_from elemT v;
  write A off e.

(** [A[index...]], two indices or more, read and assigned *)
Definition subscript_get (A : list Qu) (index : list nat) : result Qu :=
  do off <- dim.subscript dims index;
  read A off.

Definition subscript_set (A : list Qu) (index : list nat) (v : Qu) : result (list Qu) :=
  do off <- dim.subscript dims index;
  do e <- Qu_s_from elemT v;
  write A off e.

(** [A[index] = v] for one [size_t] index: [data[index]] *)
Definition index_set (A : list Qu) (index : nat) (v : Qu) : result (list Qu) :=
  do e <- Qu_s_from elemT v;
  write A index e.
End Tensor.

(** ** Nonlinear utilities *)

Module ANUS.
  (** [Qtable<func>(x)]: [func] is a function on [double]; the interior
      type rounds with [RND::ZERO]. *)
Definition Qtable (func : Q -> Q) (x : Qu) : result Qu :=
    let T := type x in
    let interiorType := mkQuType (intB T) (fracB T) (isS T) RND.ZERO (OfM T) in
    do val <- Qu_s_of_real interiorType (func (toDouble x));
    Qu_s T (data val).
End ANUS.

(** ** Qpotrf *)

Module Qpotrf_s.
Section Qpotrf.
Variable hd : header.
  (** [ANUS::rsqrtFunc], a computation on [double], is a parameter. *)
Variable rsqrtFunc : Q -> Q.
Variables (elemT : QuType) (row col : nat).

Local Abbreviation getA A i j := (get hd [row; col] A [i%nat; j%nat]).
Local Abbreviation setA A i j v := (set hd elemT [row; col] A [i%nat; j%nat] v).

Definition loop_sec1_inner (J K : nat) (A : list Qu) : result (list Qu) :=
    for_each (seq 0 (row - J))
      (fun I A =>
         do a <- getA A (I + J) J;
         do x <- getA A (I + J) K;
         do y <- getA A J K;
         do p <- op_mul x y;
         do v <- op_sub a p;
         setA A (I + J) J v) A.

Definition loop_sec1_outer (J : nat) (A : list Qu) : result (list Qu) :=
    for_each (seq 0 J) (fun K A => loop_sec1_inner J K A) A.

Definition loop_sec2 (J : nat) (A : list Qu) : result (list Qu) :=
    do d <- getA A J J;
    do temp <- ANUS.Qtable rsqrtFunc d;
    do A <- for_each (seq 0 (row - J))
              (fun I A =>
                 do a <- getA A (I + J) J;
                 do v <- op_mul a temp;
                 setA A (I + J) J v) A;
    setA A J J temp.

Definition loop_inner (J : nat) (A : list Qu) : result (list Qu) :=
    do A <- loop_sec1_outer J A;
    do d <- getA A J J;
    if data d <=? 0 then Ok A
    else loop_sec2 J A.

Definition loop (A : list Qu) : result (list Qu) :=
    for_each (seq 0 col) (fun J A => loop_inner J A) A.

Definition execute (A : list Qu) : result (list Qu) :=
    do _ <- static_assert (Nat.eqb row col);
    loop A.
End Qpotrf.
End Qpotrf_s.

Definition Qpotrf := Qpotrf_s.execute.

(** ** Qpotrs *)

(** The primitive a step of a kernel calls. *)
Inductive Prim : Type := PMul | PAdd | PSub | PDiv.

(** A computation that may fail and logs the primitives it calls. *)
Definition traced (A : Type) : Type := list Prim -> result (A * list Prim).

Definition tret {A : Type} (a : A) : traced A := fun tr => Ok (a, tr).
Definition tbind {A B : Type} (c : traced A) (k : A -> traced B) : traced B :=
  fun tr => do r <- c tr; k (fst r) (snd r).
Definition call {A : Type} (p : Prim) (c : result A) : traced A :=
  fun tr => do a <- c; Ok (a, tr ++ [p]).
Definition lift {A : Type} (c : result A) : traced A :=
  fun tr => do a <- c; Ok (a, tr).

Notation "'tdo' x <- c ; k" := (tbind c (fun x => k))
  (at level 10, x name, c at level 100, k at level 200).

Fixpoint tfor_each {S : Type} (idx : list nat) (body : nat -> S -> traced S) (s : S)
  : traced S :=
  match idx with
  | [] => tret s
  | i :: rest => tdo s' <- body i s; tfor_each rest body s'
  end.

Module Qpotrs_s.
Section Qpotrs.
Variable hd : header.
Variables (LT bT : QuType) (row col bRow : nat).

Local Abbreviation getL L i j := (get hd [row; col] L [i%nat; j%nat]).
Local Abbreviation getb b i := (get hd [bRow] b [i%nat]).
Local Abbreviation setb b i v := (set hd bT [bRow] b [i%nat] v).

(** [b[I] = b[I] - L[lr, lc] * b[bj]] *)
Definition eliminate (I lr lc bj : nat) (L b : list Qu) : traced (list Qu) :=
    tdo bI <- lift (getb b I);
    tdo l <- lift (getL L lr lc);
    tdo x <- lift (getb b bj);
    tdo p <- call PMul (op_mul l x);
    tdo v <- call PSub (op_sub bI p);
    lift (setb b I v).

(** [b[I] = b[I] * L[I, I]] *)
Definition scale (I : nat) (L b : list Qu) : traced (list Qu) :=
    tdo bI <- lift (getb b I);
    tdo l <- lift (getL L I I);
    tdo v <- call PMul (op_mul bI l);
    lift (setb b I v).

Definition execute_forward (I : nat) (L b : list Qu) : traced (list Qu) :=
    tdo b <- tfor_each (seq 0 I) (fun J b => eliminate I I J J L b) b;
    scale I L b.

  (** [execute_backward<I>] with the index sequence [0 .. n-1] *)
Definition execute_backward (I n : nat) (L b : list Qu) : traced (list Qu) :=
    tdo b <- tfor_each (seq 0 n) (fun J b => eliminate I (J + I + 1)%nat I (J + I + 1)%nat L b) b;
    scale I L b.

Definition execute_loop (L b : list Qu) : traced (list Qu) :=
    tdo b <- tfor_each (seq 0 row) (fun I b => execute_forward I L b) b;
    tfor_each (seq 0 row) (fun I b => execute_backward (row - 1 - I) I L b) b.

Definition execute (L b : list Qu) : traced (list Qu) :=
    tdo _ <- lift (static_assert (Nat.eqb row col));
    execute_loop L b.
End Qpotrs.
End Qpotrs_s.

Definition Qpotrs := Qpotrs_s.execute.

(** ** Tree reducer *)

Fixpoint map_result {A B : Type} (f : A -> result B) (l : list A) : result (list B) :=
  match l with
  | [] => Ok []
  | a :: rest => do b <- f a; do bs <- map_result f rest; Ok (b :: bs)
  end.

(** [packIndex<IDX>(ts...)]; its [static_assert] bounds the index. *)
Definition packIndex (IDX : nat) (ts : list Qu) : result Qu :=
  match ts !! IDX with
  | Some t => Ok t
  | None => Err CompileError
  end.

(** ** The store of the objects the kernels write *)

(** The caller's tensors, and the static buffers of the library:
    [Qgemul_s<...>::vecC] and the [res] of [Reducer::reduce_impl<layer>]. *)
Inductive loc : Type :=
| Caller (n : nat)
| Static_vecC
| Static_res (layer : nat).

#[global] Instance loc_eq_dec : EqDecision loc.
Proof. solve_decision. Defined.

Definition loc_encode (l : loc) : nat + (unit + nat) :=
  match l with
  | Caller n => inl n
  | Static_vecC => inr (inl tt)
  | Static_res layer => inr (inr layer)
  end.

Definition loc_decode (s : nat + (unit + nat)) : loc :=
  match s with
  | inl n => Caller n
  | inr (inl _) => Static_vecC
  | inr (inr layer) => Static_res layer
  end.

#[global] Instance loc_countable : Countable loc.
Proof.
  apply (inj_countable' loc_encode loc_decode). intros []; reflexivity.
Defined.

(** The contents of a caller's tensor. *)
Definition tensor_at (h : gmap loc (list Qu)) (n : nat) : list Qu :=
  default [] (h !! Caller n).

(** The contents of a static buffer of [n] elements of type [T]: static
    storage starts zeroed, and what the store holds under another extent
    belongs to another instantiation. *)
Definition static_at (h : gmap loc (list Qu)) (l : loc) (n : nat) (T : QuType)
  : list Qu :=
  match h !! l with
  | Some buf => if (length buf =? n)%nat then buf else replicate n (zeroQu T)
  | None => replicate n (zeroQu T)
  end.

Module Reducer.
Section Reducer.
Variable hd : header.
(** The template arguments [Args...] of the reducer: one bundle per layer. *)
Variable Args : list TArg.

(** [ReducerTypeSelector<sizeof...(Args) != 0, layer>::type] *)
Definition ReducerTypeSelector (layer : nat) : TArg :=
  match Args with
  | [] => ArgTag nullptr_t
  | _ => nth (if (length Args <=? layer)%nat then (length Args - 1)%nat else layer)
             Args (ArgTag nullptr_t)
  end.

(** The version for arbitrary input.  The recursion is on the number of
    arguments, which halves; [fuel] bounds its depth, and an empty pack
    never reaches the base case. *)
Fixpoint reduce_impl (fuel : nat) (layer : nat) (quants : list Qu) : result Qu :=
  match fuel with
  | O => Err CompileError
  | S fuel =>
      if (length quants =? 1)%nat then packIndex 0 quants
      else
        let type := ReducerTypeSelector layer in
        do sums <- map_result
                     (fun I => do x <- packIndex (I * 2) quants;
                               do y <- packIndex (I * 2 + 1) quants;
                               Qadd [type] x y)
                     (seq 0 (length quants / 2));
        if Nat.even (length quants)
        then reduce_impl fuel (S layer) sums
        else
          do res <- reduce_impl fuel (S layer) sums;
          do last <- packIndex (length quants - 1) quants;
          Qadd [type] res last
  end.

Definition reduce (quants : list Qu) : result Qu :=
  reduce_impl (length quants) 0 quants.

(** The element type of the static [res] of a layer:
    [conditional_t<is_same_v<type, nullptr_t>, Qu<fromArgs...>, type>];
    a tensor has its members only for a scalar element type. *)
Definition res_elem_type (type : TArg) (elemT : QuType) : option QuType :=
  match type with
  | ArgTag nullptr_t => Some elemT
  | ArgQu T => Some T
  | _ => None
  end.

(** One layer of the version for a vector of [len] elements: the writes
    into [res], of [(len + 1) / 2] elements of type [resT]. *)
Definition reduce_layer (type : TArg) (resT : QuType) (len : nat) (quants res : list Qu)
  : result (list Qu) :=
  do res <- for_each (seq 0 (len / 2))
              (fun I res =>
                 do x <- get hd [len] quants [I * 2]%nat;
                 do y <- get hd [len] quants [I * 2 + 1]%nat;
                 do s <- Qadd [type] x y;
                 set hd resT [(len + 1) / 2]%nat res [I] s) res;
  if Nat.odd len
  then do last <- get hd [len] quants [len - 1]%nat;
       set hd resT [(len + 1) / 2]%nat res [(len + 1) / 2 - 1]%nat last
  else Ok res.

(** The version for a vector of elements of type [elemT]; the extent
    [len] of the vector is that of [quants].  The recursion is on [len],
    which halves; [fuel] bounds its depth, and an empty vector never
    reaches the base case. *)
Fixpoint reduce_impl_vec (fuel : nat) (layer : nat) (elemT : QuType) (quants : list Qu)
    (h : gmap loc (list Qu)) : result (Qu * gmap loc (list Qu)) :=
  match fuel with
  | O => Err CompileError
  | S fuel =>
      let type := ReducerTypeSelector layer in
      let len := length quants in
      do _ <- match res_elem_type type elemT with
              | Some resT => static_assert (Qu_s_assert resT)
              | None => Ok tt
              end;
      if (len =? 1)%nat then do q <- get hd [len] quants [0%nat]; Ok (q, h)
      else
        match res_elem_type type elemT with
        | None => Err CompileError
        | Some resT =>
            let res := static_at h (Static_res layer) ((len + 1) / 2) resT in
            do res <- reduce_layer type resT len quants res;
            reduce_impl_vec fuel (S layer) resT res (<[Static_res layer := res]> h)
        end
  end.

Definition reduce_vec (elemT : QuType) (quants : list Qu) (h : gmap loc (list Qu))
  : result (Qu * gmap loc (list Qu)) :=
  reduce_impl_vec (length quants) 0 elemT quants h.
End Reducer.
End Reducer.

(** A member of a [TypeList] as a template argument of its own. *)
Definition tag_arg (t : Tag) : TArg :=
  match t with
  | Qu_s_arg T => ArgQu T
  | _ => ArgTag t
  end.

(** [ReducerInputHelper<Args...>] is [Reducer<Args...>], and
    [ReducerInputHelper<TypeList<Args...>>] is [Reducer<Args...>] too: a
    lone [TypeList] is unwrapped. *)
Definition ReducerInputHelper (Args : list TArg) : list TArg :=
  match Args with
  | [ArgTypeList l] => tag_arg <$> l
  | _ => Args
  end.

(** [Qreduce<Args...>(quants...)] on scalars and on a vector. *)
Definition Qreduce (Args : list TArg) (quants : list Qu) : result Qu :=
  Reducer.reduce (ReducerInputHelper Args) quants.

Definition Qreduce_vec (hd : header) (Args : list TArg) (elemT : QuType) (quants : list Qu)
    (h : gmap loc (list Qu)) : result (Qu * gmap loc (list Qu)) :=
  Reducer.reduce_vec hd (ReducerInputHelper Args) elemT quants h.

(** ** Qgemul *)

(** The static type of a matrix. *)
Record TensorT : Type := mkTensorT {
  t_row : nat;
  t_col : nat;
  t_elem : QuType
}.

Module Qgemul_s.
Section Qgemul.
Variable hd : header.
Variables (isTransposedA isTransposedB : bool) (addArgs mulArgs : list TArg).
Variables (TC TA TB : TensorT).
(** The caller's objects [C], [A] and [B]. *)
Variables (c a b : nat).

Definition size_ok : bool :=
  let rowA := t_row TA in let colA := t_col TA in
  let rowB := t_row TB in let colB := t_col TB in
  let rowC := t_row TC in let colC := t_col TC in
  (negb isTransposedA && negb isTransposedB
   && (Nat.eqb colA rowB && Nat.eqb rowA rowC && Nat.eqb colB colC))
  || (negb isTransposedA && isTransposedB
      && (Nat.eqb colA colB && Nat.eqb rowA rowC && Nat.eqb rowB colC))
  || (isTransposedA && negb isTransposedB
      && (Nat.eqb rowA rowB && Nat.eqb colA rowC && Nat.eqb colB colC))
  || (isTransposedA && isTransposedB
      && (Nat.eqb rowA colB && Nat.eqb colA rowC && Nat.eqb rowB colC)).

(** [mulMerger]: [MulMerger] is defined only for a [TypeList] of tags. *)
Definition mulMerger : result Merger :=
  match mulArgs with
  | [ArgTypeList toArgs] => Ok (MulMerger (t_elem TA) (t_elem TB) toArgs)
  | _ => Err CompileError
  end.

Definition K : nat := if isTransposedA then t_row TA else t_col TA.

(** The loop over [k]: the products of one cell, written into [vecC]. *)
Definition products (vecT : QuType) (i j : nat) (h : gmap loc (list Qu)) (vecC : list Qu)
  : result (list Qu) :=
  for_each (seq 0 K)
    (fun k vecC =>
       let rA := if isTransposedA then k else i in
       let cA := if isTransposedA then i else k in
       let rB := if isTransposedB then j else k in
       let cB := if isTransposedB then k else j in
       do x <- subscript_get [t_row TA; t_col TA] (tensor_at h a) [rA; cA];
       do y <- subscript_get [t_row TB; t_col TB] (tensor_at h b) [rB; cB];
       do p <- Qmul mulArgs x y;
       index_set vecT vecC k p) vecC.

(** One cell [C[i, j]]. *)
Definition cell (vecT : QuType) (i j : nat) (h : gmap loc (list Qu))
  : result (gmap loc (list Qu)) :=
  do vecC <- products vecT i j h (static_at h Static_vecC K vecT);
  let h := <[Static_vecC := vecC]> h in
  do rh <- Qreduce_vec hd addArgs vecT vecC h;
  do C <- subscript_set (t_elem TC) [t_row TC; t_col TC] (tensor_at (snd rh) c) [i; j]
                        (fst rh);
  Ok (<[Caller c := C]> (snd rh)).

(** The body of [execute] is instantiated whatever the extents of its
    loops, and with it [Qreduce<addArgs...>(vecC)]: on an empty [vecC] the
    recursion on the length never reaches [len == 1], and on any other it
    reads [vecC] through [get]. *)
Definition execute (h : gmap loc (list Qu)) : result (gmap loc (list Qu)) :=
  do _ <- static_assert size_ok;
  do m <- mulMerger;
  let vecT := resType m in
  do _ <- static_assert (Qu_s_assert vecT);
  do _ <- (if (K =? 0)%nat then Err CompileError else absoluteIndex hd [K] [0%nat]);
  for_each (seq 0 (if isTransposedA then t_col TA else t_row TA))
    (fun i h =>
       for_each (seq 0 (if isTransposedB then t_row TB else t_col TB))
         (fun j h => cell vecT i j h) h) h.
End Qgemul.
End Qgemul_s.

(** [Qgemul<interiorArgs...>(C, A, B)] after its tags are extracted. *)
Definition Qgemul := Qgemul_s.execute.

(** ** The width cap as the specification words it *)

(** The specification's ceiling of a half, [⌈x/2⌉]. *)
Definition spec_ceil_half (x : Z) : Z := - ((- x) / 2).

(** The specification's reduction of both widths: [⌈(i + f − 31 + 1)/2⌉]. *)
Definition spec_cap_reduction (toInt toFrac : Z) : Z :=
  spec_ceil_half (toInt + toFrac - 31 + 1).

(** ** Observations used in the statements *)

(** The raw data of a result, or its error. *)
Definition rdata (r : result Qu) : result Z :=
  do q <- r; Ok (data q).

(** The rounding mode of an operand. *)
Definition with_QuM (m : Z) (q : Qu) : Qu :=
  mkQu (dynamic q)
       (mkQuType (intB (type q)) (fracB (type q)) (isS (type q)) m (OfM (type q)))
       (data q).

(** A static scalar type the compiler accepts, with one of the seven
    rounding modes and one of the four implemented overflow modes. *)
Definition wfT (T : QuType) : Prop :=
  Qu_s_assert T = true /\ 0 <= QuM T <= 6 /\ 0 <= OfM T <= 3.

(** An element type of the Cholesky kernels: a static scalar type the
    compiler accepts, with 0 to 30 fractional bits, so that the product of
    two elements converts back to the type under each rounding mode. *)
Definition elemT_ok (T : QuType) : Prop := wfT T /\ 0 <= fracB T <= 30.

(** [q] is a static scalar of type [T]; its raw data is an [int]. *)
Definition typed (T : QuType) (q : Qu) : Prop :=
  dynamic q = false /\ type q = T /\ - 2 ^ 31 <= data q < 2 ^ 31.

(** The entry of row [i] and column [j] of a column-major matrix of [row]
    rows. *)
Definition entry (T : QuType) (row : nat) (A : list Qu) (i j : nat) : Qu :=
  at_ T A (i + j * row).

(** The table function has a value that converts to [long long int] at
    every positive element of type [T]: the value of [func], scaled by
    [2^fracB], is in the range of [long long int]. *)
Definition table_defined (func : Q -> Q) (T : QuType) : Prop :=
  forall x, typed T x -> 0 < data x ->
    - 2 ^ 63 <= Qtrunc (func (toDouble x) * pow2Q (fracB T)) < 2 ^ 63.

(** The shape a matrix keeps through the factorization. *)
Definition matrix_inv (T : QuType) (row : nat) (A : list Qu) : Prop :=
  length A = (row * row)%nat /\ Forall (typed T) A.

(** The primitives a triangular solve may call. *)
Definition mul_or_sub (p : Prim) : Prop := p = PMul \/ p = PSub.

(** The right-hand side [b] keeps its length and the type of its entries. *)
Definition vector_inv (T : QuType) (n : nat) (b : list Qu) : Prop :=
  length b = n /\ Forall (typed T) b.

(** ** The substitutions of the triangular solve, row by row

    The header gives, in a comment before [Qpotrs], the solve it
    implements ("normal version for reference"):
    [b[i] -= L[i,j] * b[j]] for [j < i], then [b[i] *= L[i,i]], for the
    rows from the first to the last; then [b[i] -= L[j,i] * b[j]] for
    [j > i] and [b[i] *= L[i,i]], for the rows from the last to the first.
    What follows is that solve on fixed-point elements: each statement
    computes with [*] and [-] and stores the outcome in an element of the
    type [bT] of [b]. *)

(** [acc - l * x], stored in an element of type [bT]. *)
Definition spec_sub_mul (bT : QuType) (acc : Qu) (lx : Qu * Qu) : result Qu :=
  do p <- op_mul lx.1 lx.2;
  do v <- op_sub acc p;
  Qu_s_from bT v.

(** [acc] after [acc -= l * x] for the pairs [(l, x)] of [terms] in turn. *)
Fixpoint spec_row_value (bT : QuType) (terms : list (Qu * Qu)) (acc : Qu)
  : result Qu :=
  match terms with
  | [] => Ok acc
  | lx :: rest => do a <- spec_sub_mul bT acc lx; spec_row_value bT rest a
  end.

(** ... and then [acc *= d]. *)
Definition spec_row_scaled (bT : QuType) (terms : list (Qu * Qu)) (acc d : Qu)
  : result Qu :=
  do a <- spec_row_value bT terms acc;
  do v <- op_mul a d;
  Qu_s_from bT v.

(** Row [i] of the forward substitution: the terms [L[i,j] * b[j]], [j < i]. *)
Definition spec_forward_row (LT bT : QuType) (row : nat) (L : list Qu) (i : nat)
    (b : list Qu) : result (list Qu) :=
  do v <- spec_row_scaled bT
            ((fun j => (entry LT row L i j, at_ bT b j)) <$> seq 0 i)
            (at_ bT b i) (entry LT row L i i);
  Ok (<[i := v]> b).

(** Row [i] of the backward substitution: the terms [L[j,i] * b[j]],
    [i < j < row]. *)
Definition spec_backward_row (LT bT : QuType) (row : nat) (L : list Qu) (i : nat)
    (b : list Qu) : result (list Qu) :=
  do v <- spec_row_scaled bT
            ((fun j => (entry LT row L j i, at_ bT b j)) <$> seq (S i) (row - S i))
            (at_ bT b i) (entry LT row L i i);
  Ok (<[i := v]> b).

(** The rows [0 .. row-1] forward, then the rows [row-1 .. 0] backward. *)
Definition spec_potrs (LT bT : QuType) (row : nat) (L b : list Qu) : result (list Qu) :=
  do b <- for_each (seq 0 row) (spec_forward_row LT bT row L) b;
  for_each (seq 0 row) (fun k b => spec_backward_row LT bT row L (row - 1 - k) b) b.

(** The primitives of a row with [n] terms, and of the whole solve, in the
    order of the calls. *)
Definition spec_ops_row (n : nat) : list Prim :=
  concat (replicate n [PMul; PSub]) ++ [PMul].

Definition spec_potrs_ops (row : nat) : list Prim :=
  flat_map spec_ops_row (seq 0 row) ++ flat_map spec_ops_row (seq 0 row).

(** ** Exact sums *)

(** The least raw data a format of [n] bits keeps under the overflow mode
    [OfM]: [SAT::SMGN] clamps at one above the minimum of the other modes. *)
Definition low_bound (s : bool) (n OfM : Z) : Z :=
  (if s then - 2 ^ n else 0) + (if OfM =? SAT.SMGN then 1 else 0).

(** The raw data of [q] lies in the range of its format. *)
Definition in_range (q : Qu) : Prop :=
  low_bound (isS (type q)) (intB (type q) + fracB (type q)) (OfM (type q)) <= data q
  /\ data q <= 2 ^ (intB (type q) + fracB (type q)) - 1.

(** A static scalar of at most [F] fractional bits, with one of the seven
    rounding modes, one of the four implemented overflow modes, and raw
    data in range. *)
Definition exact_operand (F : Z) (q : Qu) : Prop :=
  dynamic q = false /\
  0 <= intB (type q) + fracB (type q) /\
  fracB (type q) <= F /\
  0 <= QuM (type q) <= 6 /\
  0 <= OfM (type q) <= 3 /\
  in_range q.

(** [q] as a static scalar of its format. *)
Definition as_static (q : Qu) : Qu := mkQu false (type q) (data q).

(** The same of a scalar that is static or dynamic. *)
Definition exact_scalar (F : Z) (q : Qu) : Prop := exact_operand F (as_static q).

(** The raw data of [q] at the fractional width [F]: the wide integer the
    textbook sum adds. *)
Definition aligned (F : Z) (q : Qu) : Z := data q * 2 ^ (F - fracB (type q)).

Definition sum_aligned (F : Z) (quants : list Qu) : Z :=
  foldr (fun q acc => aligned F q + acc) 0 quants.

(** ** The tree reducer as the specification words it *)

(** One layer in the specification's words: neighbours are summed, and an
    unmatched last element is carried forward unchanged. *)
Fixpoint spec_layer (add : Qu -> Qu -> result Qu) (quants : list Qu) : result (list Qu) :=
  match quants with
  | x :: y :: rest => do s <- add x y; do r <- spec_layer add rest; Ok (s :: r)
  | _ => Ok quants
  end.

(** The layers in the specification's words: layer [k] adds with the
    [k]-th bundle, the last bundle serving the deeper layers. *)
Fixpoint spec_reduce (fuel : nat) (Args : list TArg) (layer : nat) (quants : list Qu)
  : result Qu :=
  match fuel with
  | O => Err CompileError
  | S fuel =>
      match quants with
      | [q] => Ok q
      | _ =>
          do next <- spec_layer (Qadd [Reducer.ReducerTypeSelector Args layer]) quants;
          spec_reduce fuel Args (S layer) next
      end
  end.

(** The contents of [res] after a layer of the version for a vector. *)
Definition layer_values (type : TArg) (resT elemT : QuType) (quants : list Qu)
  : result (list Qu) :=
  let len := length quants in
  do sums <- map_result
               (fun I => do s <- Qadd [type] (at_ elemT quants (I * 2))
                                             (at_ elemT quants (I * 2 + 1));
                         Qu_s_from resT s)
               (seq 0 (len / 2));
  if Nat.odd len
  then do e <- Qu_s_from resT (at_ elemT quants (len - 1)); Ok (sums ++ [e])
  else Ok sums.

(** ** Frames of the store *)

(** The two stores hold the same contents for the caller's objects named
    in [ns]. *)
Definition agree_on (ns : list nat) (h1 h2 : gmap loc (list Qu)) : Prop :=
  forall n, n ∈ ns -> h1 !! Caller n = h2 !! Caller n.

(** Of the caller's objects, only [c] may differ between [h] and [h']. *)
Definition writes_only (c : nat) (h h' : gmap loc (list Qu)) : Prop :=
  forall n, n <> c -> h' !! Caller n = h !! Caller n.

(** ** Absolute value, negation and comparison of scalars *)

(** [Qabs_s]: an unsigned operand is returned as it is; a signed one gets
    one more integer bit.  The template arguments are not looked at.  The
    raw data is negated as an [int]. *)
Module Qabs_s.
Definition abs (toArgs : list Tag) (f : Qu) : result Qu :=
    if negb (isS (type f)) then Ok f
    else
      let T := mkQuType (intB (type f) + 1) (fracB (type f)) (isS (type f))
                        (QuM (type f)) (OfM (type f)) in
      do _ <- static_assert (Qu_s_assert T);
      do res <- (if data f <? 0 then neg_int (data f) else Ok (data f));
      Qu_s T res.

Definition abs_dynamic (toArgs : list Tag) (f : Qu) : result Qu :=
    if negb (isS (type f)) then Ok f
    else
      do res <- (if data f <? 0 then neg_int (data f) else Ok (data f));
      Ok (mkQu true
               (mkQuType (intB (type f) + 1) (fracB (type f)) (isS (type f))
                         (QuM (type f)) (OfM (type f)))
               res).
End Qabs_s.

Module Qneg_s.
Definition neg (toArgs : list Tag) (f : Qu) : result Qu :=
    let T := mkQuType (intB (type f) + 1) (fracB (type f)) true (QuM (type f))
                      (OfM (type f)) in
    do _ <- static_assert (Qu_s_assert T);
    do res <- neg_int (data f);
    Qu_s T res.

Definition neg_dynamic (toArgs : list Tag) (f : Qu) : result Qu :=
    do res <- neg_int (data f);
    Ok (mkQu true
             (mkQuType (intB (type f) + 1) (fracB (type f)) true (QuM (type f))
                       (OfM (type f)))
             res).
End Qneg_s.

(** [Qcmp_s]: the three-way comparison of the raw data aligned to the
    larger fractional width; [std::strong_ordering] is [comparison]. *)
Module Qcmp_s.
Definition cmp (toArgs : list Tag) (f1 f2 : Qu) : comparison :=
    let shiftA := shiftA_of (fracB (type f1)) (fracB (type f2)) in
    let shiftB := shiftB_of (fracB (type f1)) (fracB (type f2)) in
    shl64 (cast_ll (data f1)) shiftA ?= shl64 (cast_ll (data f2)) shiftB.

Definition cmp_dynamic (toArgs : list Tag) (f1 f2 : Qu) : comparison :=
    let fromFrac1 := fracB (type f1) in
    let fromFrac2 := fracB (type f2) in
    let shiftA := shiftA_of fromFrac1 fromFrac2 in
    let shiftB := shiftB_of fromFrac1 fromFrac2 in
    shl64 (cast_ll (data f1)) shiftA ?= shl64 (cast_ll (data f2)) shiftB.
End Qcmp_s.

Definition Qabs (toArgs : list TArg) (f : Qu) : result Qu :=
  if dynamic f then Qabs_s.abs_dynamic (MergerArgsWrapper toArgs) f
  else Qabs_s.abs (MergerArgsWrapper toArgs) f.

Definition Qneg (toArgs : list TArg) (f : Qu) : result Qu :=
  if dynamic f then Qneg_s.neg_dynamic (MergerArgsWrapper toArgs) f
  else Qneg_s.neg (MergerArgsWrapper toArgs) f.

(** unary [operator-] and [operator<=>] on scalars *)
Definition op_neg (f1 : Qu) : result Qu := Qneg [] f1.

Definition op_cmp (f1 f2 : Qu) : comparison :=
  if dynamic f1 || dynamic f2
  then Qcmp_s.cmp_dynamic (MergerArgsWrapper []) f1 f2
  else Qcmp_s.cmp (MergerArgsWrapper []) f1 f2.

(** ** Counting the primitives a kernel calls *)

#[global] Instance Prim_eq_dec : EqDecision Prim.
Proof. solve_decision. Defined.

Definition count_prim (p : Prim) (ops : list Prim) : nat :=
  length (filter (fun q => q = p) ops).


(** * Properties *)

(** ** Machine integers *)

Lemma cast_ll_small z : - 2 ^ 63 <= z < 2 ^ 63 -> cast_ll z = z.
Proof. intros H. unfold cast_ll. rewrite Z.mod_small; lia. Qed.

Lemma cast_int_small z : - 2 ^ 31 <= z < 2 ^ 31 -> cast_int z = z.
Proof. intros H. unfold cast_int. rewrite Z.mod_small; lia. Qed.

Lemma cast_int_range z : - 2 ^ 31 <= cast_int z < 2 ^ 31.
Proof. unfold cast_int. pose proof (Z.mod_pos_bound (z + 2 ^ 31) (2 ^ 32)). lia. Qed.

Lemma cast_int_idem z : cast_int (cast_int z) = cast_int z.
Proof. apply cast_int_small, cast_int_range. Qed.

Lemma shl64_exact x n :
  0 <= n -> - 2 ^ 63 <= x * 2 ^ n < 2 ^ 63 -> shl64 x n = x * 2 ^ n.
Proof.
  intros Hn Hx. unfold shl64. rewrite Z.shiftl_mul_pow2 by lia.
  now apply cast_ll_small.
Qed.

Lemma shl32_exact x n :
  0 <= n -> - 2 ^ 31 <= x * 2 ^ n < 2 ^ 31 -> shl32 x n = x * 2 ^ n.
Proof.
  intros Hn Hx. unfold shl32. rewrite Z.shiftl_mul_pow2 by lia.
  now apply cast_int_small.
Qed.

Lemma intConvert_cast toInt toFrac s m v q :
  intConvert toInt toFrac s m v = Ok q -> cast_int q = q.
Proof.
  unfold intConvert, intConvert_SAT_TCPL, intConvert_SAT_ZERO, intConvert_SAT_SMGN,
    intConvert_WRP_TCPL.
  repeat case_match; intros [= <-]; try apply cast_int_idem; reflexivity.
Qed.

Lemma cast_ll_mul x k : cast_ll (cast_ll x * k) = cast_ll (x * k).
Proof.
  unfold cast_ll at 2. rewrite Z.mod_eq by lia.
  set (q := (x + 2 ^ 63) / 2 ^ 64).
  replace ((x + 2 ^ 63 - 2 ^ 64 * q - 2 ^ 63) * k) with (x * k + (- (q * k)) * 2 ^ 64) by ring.
  unfold cast_ll.
  replace (x * k + - (q * k) * 2 ^ 64 + 2 ^ 63) with (x * k + 2 ^ 63 + - (q * k) * 2 ^ 64)
    by ring.
  now rewrite Z.mod_add by lia.
Qed.

Lemma shl64_cast_ll x n : 0 <= n -> shl64 (cast_ll x) n = shl64 x n.
Proof.
  intros Hn. unfold shl64. rewrite !Z.shiftl_mul_pow2 by lia. apply cast_ll_mul.
Qed.

Lemma shl64_shl64 x a b :
  0 <= a -> 0 <= b -> shl64 (shl64 x a) b = shl64 x (a + b).
Proof.
  intros Ha Hb. unfold shl64. rewrite !Z.shiftl_mul_pow2 by lia.
  rewrite cast_ll_mul. f_equal. rewrite Z.pow_add_r by lia. ring.
Qed.

(** The conversions of the fractional part have a value when they drop at
    most 30 bits under a rounding mode, at most 63 under a truncation. *)
Lemma mask_constexpr_ok d : d <= 30 -> mask_constexpr d = Ok tt.
Proof. intros H. unfold mask_constexpr. destruct (Z.leb_spec 31 d); [lia|reflexivity]. Qed.

Lemma mask_defined_ok d : d <= 30 -> mask_defined d = Ok tt.
Proof. intros H. unfold mask_defined. destruct (Z.leb_spec 31 d); [lia|reflexivity]. Qed.

Lemma shr_defined_ok d : d <= 63 -> shr_defined d = Ok tt.
Proof. intros H. unfold shr_defined. destruct (Z.leb_spec 64 d); [lia|reflexivity]. Qed.

Ltac frac_guards :=
  rewrite ?mask_constexpr_ok, ?mask_defined_ok, ?shr_defined_ok by lia; cbn [rbind].

Ltac frac_guards_in H :=
  rewrite ?mask_constexpr_ok, ?mask_defined_ok, ?shr_defined_ok in H by lia;
  cbn [rbind] in H.

Lemma intConvert_ok i f s m v :
  0 <= m <= 3 -> exists r, intConvert i f s m v = Ok r.
Proof.
  intros Hm.
  assert (Hc : m = 0 \/ m = 1 \/ m = 2 \/ m = 3) by lia.
  destruct Hc as [->|[->|[->| ->]]]; eexists; reflexivity.
Qed.

Lemma cast_double_ll_ok (x : Q) :
  - 2 ^ 63 <= Qtrunc x < 2 ^ 63 -> cast_double_ll x = Ok (Qtrunc x).
Proof.
  intros H. unfold cast_double_ll. cbv zeta.
  destruct (Z.leb_spec (- 2 ^ 63) (Qtrunc x)); [|lia].
  destruct (Z.ltb_spec (Qtrunc x) (2 ^ 63)); [reflexivity|lia].
Qed.

(** The run-time dispatch on the rounding mode agrees with the static one. *)
Lemma fracConvertDynamic_static fromFrac toFrac m v :
  0 <= m <= 6 -> fromFrac - toFrac <= 30 ->
  fracConvertDynamic v fromFrac toFrac m = fracConvert fromFrac toFrac m v.
Proof.
  intros Hm Hd.
  assert (Hc : m = 0 \/ m = 1 \/ m = 2 \/ m = 3 \/ m = 4 \/ m = 5 \/ m = 6) by lia.
  destruct Hc as [->|[->|[->|[->|[->|[->| ->]]]]]]; cbn -[Z.sub]; frac_guards; reflexivity.
Qed.

Lemma intConvertDynamic_static i f (s : bool) m v :
  0 <= m <= 3 -> intConvertDynamic v i f s m = intConvert i f s m v.
Proof.
  intros Hm. assert (Hc : m = 0 \/ m = 1 \/ m = 2 \/ m = 3) by lia.
  destruct Hc as [->|[->|[->| ->]]]; reflexivity.
Qed.
(** ** The full-precision product of 3.0 and 0.5 (C2) *)

(** C2, as stated, fails: for two operands of format (12, 8) the merged
    widths under [FullPrec] are (24, 16); the scalar type with these widths
    does not pass its [static_assert] (40 bits), so [Qmul<FullPrec>(A, B)]
    is rejected and returns no value. *)
Lemma C2_counterexample :
  let T := mkQuType 12 8 true TRN.TCPL SAT.TCPL in
  Qu_s_of_real T 3 = Ok (mkQu false T 768) /\
  Qu_s_of_real T (1 # 2) = Ok (mkQu false T 128) /\
  mergedType (MulMerger T T (MergerArgsWrapper [ArgTag FullPrec])) =
    mkQuType 24 16 true TRN.TCPL SAT.TCPL /\
  Qu_s_assert (mkQuType 24 16 true TRN.TCPL SAT.TCPL) = false /\
  Qmul [ArgTag FullPrec] (mkQu false T 768) (mkQu false T 128) = Err CompileError.
Proof. vm_compute. repeat split; reflexivity. Qed.

(** C2 (amended): for A and B of format (intBits=7, fracBits=8, signed,
    TRN::TCPL, SAT::TCPL) constructed from 3.0 and 0.5,
    [Qmul<FullPrec>(A, B)] returns a static value of format (14, 16, signed,
    TRN::TCPL, SAT::TCPL), the sums of the operands' widths, whose real view
    is 1.5.  For operands of format (12, 8) the call is rejected, whatever
    their raw data. *)
Theorem C2_Qmul_FullPrec :
  let T := mkQuType 7 8 true TRN.TCPL SAT.TCPL in
  let R := mkQuType 14 16 true TRN.TCPL SAT.TCPL in
  let T' := mkQuType 12 8 true TRN.TCPL SAT.TCPL in
  Qu_s_of_real T 3 = Ok (mkQu false T 768) /\
  Qu_s_of_real T (1 # 2) = Ok (mkQu false T 128) /\
  Qmul [ArgTag FullPrec] (mkQu false T 768) (mkQu false T 128) = Ok (mkQu false R 98304) /\
  (toDouble (mkQu false R 98304) == 3 # 2)%Q /\
  (forall a b : Z,
      Qmul [ArgTag FullPrec] (mkQu false T' a) (mkQu false T' b) = Err CompileError).
Proof.
  cbv zeta. split; [reflexivity|]. split; [reflexivity|].
  split; [reflexivity|]. split; [reflexivity|].
  intros a b. reflexivity.
Qed.
(** ** The width cap (C3) *)

(** C3, as stated, fails: for merged widths (17, 16) the code removes
    [(33 - 31 + 1) / 2 = 1] bit from each width, the specification's
    ceiling [⌈(33 - 31 + 1)/2⌉ = 2]. *)
Lemma C3_counterexample :
  31 < 17 + 16 /\
  toIntFinal 17 16 = 16 /\ toFracFinal 17 16 = 15 /\
  17 - spec_cap_reduction 17 16 = 15 /\ 16 - spec_cap_reduction 17 16 = 14.
Proof. vm_compute. repeat split; congruence. Qed.

(** C3 (amended): when the merged widths have [i + f > 31], the capped
    widths [toIntFinal] and [toFracFinal] (those of a merger's [resType],
    which is also the format a dynamic primitive gives its result) are both
    reduced, once, by the integer quotient [(i + f - 31 + 1) / 2], which is
    [⌈(i + f - 31)/2⌉]; their sum is then 30 or 31. *)
Theorem C3_width_cap (i f : Z) :
  31 < i + f ->
  let k := (i + f - 31 + 1) / 2 in
  toIntFinal i f = i - k /\
  toFracFinal i f = f - k /\
  k = spec_ceil_half (i + f - 31) /\
  30 <= toIntFinal i f + toFracFinal i f <= 31 /\
  (forall m : Merger, toInt m = i -> toFrac m = f ->
     intB (resType m) = i - k /\ fracB (resType m) = f - k).
Proof.
  intros H k.
  assert (Hq : Z.quot (i + f - 31 + 1) 2 = k).
  { unfold k. apply Z.quot_div_nonneg; lia. }
  assert (Hi : toIntFinal i f = i - k).
  { unfold toIntFinal. destruct (Z.ltb_spec 31 (i + f)); [now rewrite Hq | lia]. }
  assert (Hf : toFracFinal i f = f - k).
  { unfold toFracFinal. destruct (Z.ltb_spec 31 (f + i)); [now rewrite Hq | lia]. }
  assert (Hk : 2 * k <= i + f - 30 < 2 * k + 2).
  { unfold k. pose proof (Z.div_mod (i + f - 31 + 1) 2 ltac:(lia)).
    pose proof (Z.mod_pos_bound (i + f - 31 + 1) 2 ltac:(lia)). lia. }
  split; [exact Hi|]. split; [exact Hf|]. split; [|split; [lia|]].
  - unfold spec_ceil_half.
    pose proof (Z.div_mod (- (i + f - 31)) 2 ltac:(lia)).
    pose proof (Z.mod_pos_bound (- (i + f - 31)) 2 ltac:(lia)). lia.
  - intros m <- <-. unfold resType. cbn. split; [exact Hi | exact Hf].
Qed.

Lemma C3_width_cap_witness :
  31 < 24 + 16 /\ toIntFinal 24 16 = 24 - 5 /\ toFracFinal 24 16 = 16 - 5.
Proof.
  split; [lia|].
  destruct (C3_width_cap 24 16 ltac:(lia)) as (Hi & Hf & _).
  split; [exact Hi | exact Hf].
Defined.

(** The dynamic primitives store the capped format in their result. *)
Lemma dynamic_result_type toArgs f1 f2 r :
  Qmul_s.mul_dynamic toArgs f1 f2 = Ok r \/ Qadd_s.add_dynamic toArgs f1 f2 = Ok r \/
  Qsub_s.sub_dynamic toArgs f1 f2 = Ok r \/ Qdiv_s.div_dynamic toArgs f1 f2 = Ok r ->
  exists m : Merger, dynamic r = true /\ type r = resType m.
Proof.
  unfold Qmul_s.mul_dynamic, Qadd_s.add_dynamic, Qsub_s.sub_dynamic, Qdiv_s.div_dynamic.
  intros [H|[H|[H|H]]];
    repeat match type of H with
      | rbind ?c _ = Ok _ => destruct c; cbn [rbind] in H; [|discriminate]
      | (if ?b then _ else _) = Ok _ => destruct b
      end;
    injection H as <-; eexists; split; reflexivity.
Qed.
(** ** Rounding toward zero (C4) *)

Lemma land_high_mask a d :
  0 <= d <= 64 -> 0 <= a < 2 ^ 64 ->
  Z.land a (2 ^ 64 - 2 ^ d) = 2 ^ d * (a / 2 ^ d).
Proof.
  intros Hd Ha.
  replace (2 ^ 64 - 2 ^ d) with (Z.shiftl (Z.ones (64 - d)) d).
  2:{ rewrite Z.shiftl_mul_pow2, Z.ones_equiv by lia.
      replace (2 ^ 64) with (2 ^ (64 - d) * 2 ^ d)
        by (rewrite <- Z.pow_add_r by lia; f_equal; lia).
      lia. }
  rewrite Z.mul_comm, <- Z.shiftr_div_pow2, <- Z.shiftl_mul_pow2 by lia.
  apply Z.bits_inj'. intros k Hk. rewrite Z.land_spec.
  destruct (Z.lt_ge_cases k d) as [Hlt|Hge].
  - rewrite !Z.shiftl_spec_low by lia. apply andb_false_r.
  - rewrite !Z.shiftl_spec by lia. rewrite Z.shiftr_spec by lia.
    replace (k - d + d) with k by lia.
    destruct (Z.lt_ge_cases k 64) as [Hk64|Hk64].
    + rewrite Z.ones_spec_low by lia. apply andb_true_r.
    + rewrite Z.ones_spec_high by lia. rewrite andb_false_r.
      symmetry. destruct (Z.eq_dec a 0) as [->|Hnz]; [apply Z.bits_0|].
      apply Z.bits_above_log2; [lia|].
      apply Z.lt_le_trans with 64; [apply Z.log2_lt_pow2; lia|lia].
Qed.

(** [floor] is the multiple of [2^d] at or below [val]. *)
Lemma frac_floor_spec fromFrac toFrac v :
  0 < fromFrac - toFrac <= 30 -> - 2 ^ 63 <= v < 2 ^ 63 ->
  frac_floor fromFrac toFrac v = 2 ^ (fromFrac - toFrac) * (v / 2 ^ (fromFrac - toFrac)).
Proof.
  intros Hd Hv. unfold frac_floor. set (d := fromFrac - toFrac) in *.
  assert (Hp : 0 < 2 ^ d <= 2 ^ 30).
  { split; [apply Z.pow_pos_nonneg; lia|apply Z.pow_le_mono_r; lia]. }
  change (2 ^ 30) with 1073741824 in Hp.
  rewrite shl32_exact by (change (2 ^ 31) with 2147483648; lia).
  assert (Hm : cast_ull (0 - 1 * 2 ^ d) = 2 ^ 64 - 2 ^ d).
  { unfold cast_ull. symmetry. apply (Z.mod_unique _ _ (-1));
      change (2 ^ 64) with 18446744073709551616; lia. }
  rewrite Hm. unfold cast_ull.
  assert (Ha := Z.mod_pos_bound v (2 ^ 64) ltac:(lia)).
  rewrite land_high_mask by lia.
  assert (H64 : 2 ^ 64 = 2 ^ d * 2 ^ (64 - d))
    by (rewrite <- Z.pow_add_r by lia; f_equal; lia).
  assert (Hq : (v mod 2 ^ 64) / 2 ^ d = (v / 2 ^ d) mod 2 ^ (64 - d)).
  { rewrite H64. rewrite Z.rem_mul_r by lia.
    rewrite Z.mul_comm, Z.div_add by lia.
    rewrite Z.div_small by (apply Z.mod_pos_bound; lia). lia. }
  rewrite Hq.
  assert (Hr : - 2 ^ (63 - d) <= v / 2 ^ d < 2 ^ (63 - d)).
  { assert (H63 : 2 ^ 63 = 2 ^ (63 - d) * 2 ^ d)
      by (rewrite <- Z.pow_add_r by lia; f_equal; lia).
    split.
    - apply Z.div_le_lower_bound; [lia|]. rewrite Z.mul_comm, Z.mul_opp_l, <- H63. lia.
    - apply Z.div_lt_upper_bound; [lia|]. rewrite Z.mul_comm, <- H63. lia. }
  assert (H2 : 2 ^ (64 - d) = 2 * 2 ^ (63 - d)).
  { replace (64 - d) with (1 + (63 - d)) by lia. rewrite Z.pow_add_r by lia. lia. }
  assert (0 < 2 ^ (63 - d)) by (apply Z.pow_pos_nonneg; lia).
  set (q := v / 2 ^ d) in *.
  assert (H63 : 2 ^ 63 = 2 ^ d * 2 ^ (63 - d))
    by (rewrite <- Z.pow_add_r by lia; f_equal; lia).
  destruct (Z.lt_ge_cases q 0) as [Hneg|Hpos].
  - assert (Hmod : q mod 2 ^ (64 - d) = q + 2 ^ (64 - d)).
    { symmetry. apply (Z.mod_unique _ _ (-1)); lia. }
    rewrite Hmod. unfold cast_ll.
    replace (2 ^ d * (q + 2 ^ (64 - d)) + 2 ^ 63) with (2 ^ d * q + 2 ^ 63 + 1 * 2 ^ 64)
      by (rewrite H64; ring).
    rewrite Z.mod_add by lia. rewrite Z.mod_small; [lia|].
    rewrite H63. change (2 ^ 64) with (2 * 2 ^ 63). rewrite H63. nia.
  - rewrite Z.mod_small by lia. apply cast_ll_small. rewrite H63. nia.
Qed.

(** [RND::ZERO] never compares distances: it is the quotient rounded down
    for [val >= 0] and the quotient rounded down plus one for [val < 0],
    also when [val] is a multiple of [2^d]. *)
Lemma fracConvert_ZERO_spec fromFrac toFrac v :
  0 < fromFrac - toFrac <= 30 -> - 2 ^ 62 <= v < 2 ^ 62 ->
  fracConvert fromFrac toFrac RND.ZERO v =
    Ok (if 0 <=? v then v / 2 ^ (fromFrac - toFrac)
        else v / 2 ^ (fromFrac - toFrac) + 1).
Proof.
  intros Hd Hv. cbn. frac_guards. f_equal. unfold fracConvert_ZERO.
  destruct (Z.leb_spec fromFrac toFrac); [lia|].
  fold (frac_floor fromFrac toFrac v).
  rewrite frac_floor_spec by (change (2 ^ 63) with (2 * 2 ^ 62); lia).
  set (d := fromFrac - toFrac) in *.
  assert (Hp : 0 < 2 ^ d <= 2 ^ 30).
  { split; [apply Z.pow_pos_nonneg; lia|apply Z.pow_le_mono_r; lia]. }
  change (2 ^ 30) with 1073741824 in Hp.
  rewrite shl32_exact by (change (2 ^ 31) with 2147483648; lia).
  set (q := v / 2 ^ d).
  assert (Hq : 0 <= v <-> 0 <= q).
  { unfold q. split; intros H0.
    - apply Z.div_pos; lia.
    - destruct (Z.lt_ge_cases v 0) as [Hn|]; [|lia].
      pose proof (Z.div_lt_upper_bound v (2 ^ d) 0 ltac:(lia) ltac:(lia)). lia. }
  rewrite !Z.shiftr_div_pow2 by lia.
  replace (2 ^ d * q + 1 * 2 ^ d) with ((q + 1) * 2 ^ d) by ring.
  rewrite Z.div_mul by lia. rewrite (Z.mul_comm (2 ^ d) q), Z.div_mul by lia.
  destruct (Z.ltb_spec 0 (q * 2 ^ d + (q + 1) * 2 ^ d)), (Z.leb_spec 0 v);
    try reflexivity; exfalso; nia.
Qed.

(** C4: at [v = 3] with two fractional bits dropped (0.75), [floor = 0]
    and [ceil = 4]; [ceil] is the nearer one, as [RND::POS_INF] finds, but
    [RND::ZERO] looks only at the sign of [floor + ceil] and returns
    [floor >> 2 = 0], in the static and in the dynamic conversion.  The
    same test sends the exact value [v = -4] (-1.0) to [ceil >> 2 = 0]. *)
Theorem C4_ZERO_ignores_distance :
  frac_floor 2 0 3 = 0 /\ frac_ceil 2 0 3 = 4 /\
  3 - frac_floor 2 0 3 > frac_ceil 2 0 3 - 3 /\
  fracConvert 2 0 RND.POS_INF 3 = Ok 1 /\
  fracConvert 2 0 RND.ZERO 3 = Ok 0 /\
  fracConvertDynamic 3 2 0 RND.ZERO = Ok 0 /\
  frac_floor 2 0 (-4) = -4 /\
  fracConvert 2 0 RND.ZERO (-4) = Ok 0.
Proof. vm_compute. repeat split; congruence. Qed.
(** ** Scalar division (C5, C10) *)

(** C5: when the divisor's raw data is 0, every [Qdiv] that the compiler
    accepts returns the raw value 0 in the derived output format, and
    nothing is thrown.  With a [QuDynamic] operand the format is the capped
    merged format the result stores; with two static operands it is the
    merged format: the merged widths, signedness and rounding mode, and
    the merged overflow mode whenever that is settled by the values of the
    modes (a template argument names it, or the operands do not both carry
    an instance of [WRP::TCPL_SAT]). *)
Theorem C5_Qdiv_zero_divisor (toArgs : list TArg) (f1 f2 : Qu) :
  data f2 = 0 ->
  Qdiv toArgs f1 f2 <> Err CompileError ->
  exists T,
    Qdiv toArgs f1 f2 = Ok (mkQu (dynamic f1 || dynamic f2) T 0) /\
    (dynamic f1 || dynamic f2 = true ->
     T = resType (dynMerger false (type f1) (type f2) (MergerArgsWrapper toArgs))) /\
    (dynamic f1 || dynamic f2 = false ->
     let m := AddMerger (type f1) (type f2) (MergerArgsWrapper toArgs) in
     intB T = toInt m /\ fracB T = toFrac m /\ isS T = toIsSigned m /\
     QuM T = toQuMode m /\
     (hasTag sel_OfMode (MergerArgsWrapper toArgs) = true \/
      ~ (OfM (type f1) = WRP.TCPL_SAT /\ OfM (type f2) = WRP.TCPL_SAT) ->
      OfM T = toOfMode m)).
Proof.
  intros Hz. unfold Qdiv.
  destruct (dynamic f1 || dynamic f2) eqn:Hd.
  - intros _. unfold Qdiv_s.div_dynamic. rewrite Hz. cbn [Z.eqb].
    eexists. split; [reflexivity|]. split; [reflexivity|discriminate].
  - unfold Qdiv_s.div, Qu_s, static_assert. rewrite Hz. cbn.
    destruct (head_not_Qu_s _); cbn; [|congruence].
    destruct (Qu_s_assert _); cbn; [|congruence].
    intros _. eexists. split; [reflexivity|]. split; [discriminate|].
    intros _. repeat split.
Qed.

Lemma C5_Qdiv_zero_divisor_witness :
  let T := mkQuType 12 8 true TRN.TCPL SAT.TCPL in
  (exists U, Qdiv [] (mkQu false T 768) (mkQu false T 0) = Ok (mkQu false U 0)) /\
  (exists U, Qdiv [] (mkQu true T 768) (mkQu false T 0) = Ok (mkQu true U 0)).
Proof.
  split.
  - destruct (C5_Qdiv_zero_divisor [] (mkQu false (mkQuType 12 8 true 5 0) 768)
                (mkQu false (mkQuType 12 8 true 5 0) 0)) as (U & HU & _).
    + reflexivity.
    + vm_compute. discriminate.
    + exists U. exact HU.
  - destruct (C5_Qdiv_zero_divisor [] (mkQu true (mkQuType 12 8 true 5 0) 768)
                (mkQu false (mkQuType 12 8 true 5 0) 0)) as (U & HU & _).
    + reflexivity.
    + vm_compute. discriminate.
    + exists U. exact HU.
Defined.

Lemma AddMerger_with_QuM m1 m2 T1 T2 toArgs :
  let M := AddMerger T1 T2 toArgs in
  let M' := AddMerger (mkQuType (intB T1) (fracB T1) (isS T1) m1 (OfM T1))
                      (mkQuType (intB T2) (fracB T2) (isS T2) m2 (OfM T2)) toArgs in
  toInt M' = toInt M /\ toFrac M' = toFrac M /\ toIsSigned M' = toIsSigned M /\
  toOfMode M' = toOfMode M.
Proof. cbn. repeat split. Qed.

Lemma Qdiv_static_QuM_irrelevant toArgs f1 f2 m1 m2 :
  dynamic f1 = false -> dynamic f2 = false ->
  rdata (Qdiv toArgs (with_QuM m1 f1) (with_QuM m2 f2)) = rdata (Qdiv toArgs f1 f2).
Proof.
  intros Hd1 Hd2. unfold Qdiv. cbn [with_QuM dynamic]. rewrite Hd1, Hd2. cbn [orb].
  unfold Qdiv_s.div. cbn [with_QuM type data fracB].
  destruct (AddMerger_with_QuM m1 m2 (type f1) (type f2) (MergerArgsWrapper toArgs))
    as (Hi & Hf & Hs & Ho).
  cbv zeta in Hi, Hf, Hs, Ho. rewrite Hi, Hf, Hs, Ho.
  destruct (static_assert (head_not_Qu_s _)) as [[]|e]; cbn [rbind]; [|reflexivity].
  unfold Qu_s_assert, mergedType, Qu_s. cbn [intB fracB]. rewrite Hi, Hf.
  destruct (static_assert _) as [[]|e]; cbn [rbind rdata]; [|reflexivity].
  destruct (data f2 =? 0); [reflexivity|].
  repeat match goal with
         | |- context [shl_defined ?n] => destruct (shl_defined n) as [[]|?]; cbn [rbind];
                                          [|reflexivity]
         end.
  destruct (div_ll _ _); cbn [rbind]; [|reflexivity].
  destruct (intConvert _ _ _ _ _); reflexivity.
Qed.

Lemma shl_defined_ok n : 0 <= n <= 63 -> shl_defined n = Ok tt.
Proof.
  intros H. unfold shl_defined.
  destruct (Z.ltb_spec n 0); [lia|]. destruct (Z.leb_spec 64 n); [lia|]. reflexivity.
Qed.

Lemma div_ll_ok a b :
  b <> 0 -> ~ (a = - 2 ^ 63 /\ b = -1) -> div_ll a b = Ok (Z.quot a b).
Proof.
  intros Hb Hm. unfold div_ll.
  destruct (Z.eqb_spec b 0); [contradiction|]. cbn [orb].
  destruct (Z.eqb_spec a (- 2 ^ 63)), (Z.eqb_spec b (-1)); cbn [andb]; try reflexivity.
  exfalso. apply Hm. now split.
Qed.

(** C10, as stated, fails: a nonzero divisor does not make the division
    one that [long long int] defines.  For [f1] of format (31, 0) with raw
    data -2 and [f2] of format (0, 31) with raw data -1 (both signed),
    [Qdiv<intBits<0>, fracBits<31>>] aligns the numerator to
    [-2 << 31 << 31 = LLONG_MIN] and divides it by -1; the quotient
    [2^63] is no [long long int], and the division has no value.  For
    [g1] of format (-10, 40) and [g2] of format (25, 0) with raw data
    [2^24], the divisor [2^24 << 40] wraps to 0. *)
Lemma C10_counterexample :
  let f1 := mkQu false (mkQuType 31 0 true TRN.TCPL SAT.TCPL) (-2) in
  let f2 := mkQu false (mkQuType 0 31 true TRN.TCPL SAT.TCPL) (-1) in
  let g1 := mkQu false (mkQuType (-10) 40 true TRN.TCPL SAT.TCPL) 1 in
  let g2 := mkQu false (mkQuType 25 0 true TRN.TCPL SAT.TCPL) (2 ^ 24) in
  data f2 <> 0 /\
  shl64 (shl64 (data f1) 31) 31 = - 2 ^ 63 /\ shl64 (data f2) 0 = -1 /\
  Qdiv [ArgTag (intBits 0); ArgTag (fracBits 31)] f1 f2 = Err UndefinedBehaviour /\
  data g2 <> 0 /\ shl64 (data g2) 40 = 0 /\
  Qdiv [ArgTag (intBits (-10)); ArgTag (fracBits 40)] g1 g2 = Err UndefinedBehaviour.
Proof. vm_compute. repeat split; congruence. Qed.

(** C10 (amended): for two static operands with a nonzero divisor, in a
    call the compiler accepts, whose shifts and division [long long int]
    defines (shift counts from 0 to 63, an aligned denominator other than
    0, and not [LLONG_MIN / -1]) and whose result has one of the four
    implemented overflow modes, the raw result of [Qdiv] is the overflow
    conversion [intConvert] of the quotient, truncated toward zero, of the
    numerator shifted left by [max(f1,f2) - f1] and then [f_out] bits by
    the denominator shifted left by [max(f1,f2) - f2] bits; the shifts
    are those of [long long int], and are multiplications by the power of
    two as long as the product fits.  No [fracConvert] is applied: the
    raw result is the same whatever the rounding modes of the two
    operands. *)
Theorem C10_Qdiv_static_truncates (toArgs : list TArg) (f1 f2 : Qu) :
  let m := AddMerger (type f1) (type f2) (MergerArgsWrapper toArgs) in
  let F := Z.max (fracB (type f1)) (fracB (type f2)) in
  let num := shl64 (data f1) (F - fracB (type f1) + toFrac m) in
  let den := shl64 (data f2) (F - fracB (type f2)) in
  dynamic f1 = false -> dynamic f2 = false ->
  Qdiv toArgs f1 f2 <> Err CompileError ->
  data f2 <> 0 ->
  0 <= toOfMode m <= 3 ->
  0 <= toFrac m <= 63 -> F - fracB (type f1) <= 63 -> F - fracB (type f2) <= 63 ->
  den <> 0 -> ~ (num = - 2 ^ 63 /\ den = -1) ->
  (exists q,
     intConvert (toInt m) (toFrac m) (toIsSigned m) (toOfMode m) (Z.quot num den) = Ok q /\
     Qdiv toArgs f1 f2 = Ok (mkQu false (mergedType m) q)) /\
  (- 2 ^ 63 <= data f1 * 2 ^ (F - fracB (type f1) + toFrac m) < 2 ^ 63 ->
   num = data f1 * 2 ^ (F - fracB (type f1) + toFrac m)) /\
  (- 2 ^ 63 <= data f2 * 2 ^ (F - fracB (type f2)) < 2 ^ 63 ->
   den = data f2 * 2 ^ (F - fracB (type f2))) /\
  (forall m1 m2 : Z,
      rdata (Qdiv toArgs (with_QuM m1 f1) (with_QuM m2 f2)) = rdata (Qdiv toArgs f1 f2)).
Proof.
  intros m F num den Hd1 Hd2 Hc Hnz Hof Htf HsA HsB Hden Hmin.
  assert (H0 : 0 <= F - fracB (type f1)) by (unfold F; lia).
  assert (H0' : 0 <= F - fracB (type f2)) by (unfold F; lia).
  split; [|split; [|split]];
    [| intros H; apply shl64_exact; [lia | exact H]
     | intros H; apply shl64_exact; [lia | exact H]
     | intros; now apply Qdiv_static_QuM_irrelevant].
  unfold Qdiv in *. rewrite Hd1, Hd2 in *. cbn [orb] in *.
  unfold Qdiv_s.div in *. fold m in Hc |- *.
  destruct (static_assert (head_not_Qu_s _)) as [[]|e] eqn:E1; cbn [rbind] in *.
  2:{ unfold static_assert in E1. destruct (head_not_Qu_s _); congruence. }
  destruct (static_assert (Qu_s_assert _)) as [[]|e] eqn:E2; cbn [rbind] in *.
  2:{ unfold static_assert in E2. destruct (Qu_s_assert _); congruence. }
  clear Hc. destruct (Z.eqb_spec (data f2) 0) as [|_]; [contradiction|].
  assert (HA : shiftA_of (fracB (type f1)) (fracB (type f2)) = F - fracB (type f1)).
  { unfold shiftA_of, F. destruct (Z.ltb_spec (fracB (type f1)) (fracB (type f2))); lia. }
  assert (HB : shiftB_of (fracB (type f1)) (fracB (type f2)) = F - fracB (type f2)).
  { unfold shiftB_of, F. destruct (Z.ltb_spec (fracB (type f2)) (fracB (type f1))); lia. }
  rewrite HA, HB. rewrite !shl_defined_ok by lia. cbn [rbind].
  rewrite !shl64_cast_ll, shl64_shl64 by lia. fold num den.
  rewrite div_ll_ok by assumption. cbn [rbind].
  destruct (intConvert_ok (toInt m) (toFrac m) (toIsSigned m) (toOfMode m) (Z.quot num den) Hof)
    as (q & Eq).
  exists q. split; [exact Eq|]. rewrite Eq. cbn [rbind].
  unfold Qu_s. rewrite E2. cbn [rbind].
  now rewrite (intConvert_cast _ _ _ _ _ _ Eq).
Qed.

Lemma C10_Qdiv_static_truncates_witness :
  let T := mkQuType 12 8 true TRN.TCPL SAT.TCPL in
  Qdiv [] (mkQu false T (-768)) (mkQu false T 1280) = Ok (mkQu false T (-153)) /\
  Z.quot (-768 * 2 ^ 8) 1280 = -153 /\ (-768 * 2 ^ 8) / 1280 = -154.
Proof.
  split; [|split; reflexivity].
  destruct (C10_Qdiv_static_truncates []
              (mkQu false (mkQuType 12 8 true 5 0) (-768))
              (mkQu false (mkQuType 12 8 true 5 0) 1280)) as [(q & Hq & H) _].
  - reflexivity.
  - reflexivity.
  - vm_compute. discriminate.
  - vm_compute. discriminate.
  - vm_compute. split; discriminate.
  - vm_compute. split; discriminate.
  - vm_compute. discriminate.
  - vm_compute. discriminate.
  - vm_compute. discriminate.
  - vm_compute. intros [H _]. discriminate.
  - vm_compute in Hq. injection Hq as <-. exact (eq_trans H eq_refl).
Defined.
(** ** Loops *)

Lemma for_each_app {S : Type} (l1 l2 : list nat) (body : nat -> S -> result S) (s : S) :
  for_each (l1 ++ l2) body s = (do s' <- for_each l1 body s; for_each l2 body s').
Proof.
  revert s. induction l1 as [|i l1 IH]; intros s; cbn; [reflexivity|].
  destruct (body i s); cbn; [apply IH | reflexivity].
Qed.

(** A loop whose body keeps an invariant, and succeeds under it, succeeds
    and keeps it. *)
Lemma for_each_total {S : Type} (P : S -> Prop) (l : list nat)
    (body : nat -> S -> result S) (s : S) :
  P s ->
  (forall i s, i ∈ l -> P s -> exists s', body i s = Ok s' /\ P s') ->
  exists s', for_each l body s = Ok s' /\ P s'.
Proof.
  revert s. induction l as [|i l IH]; intros s Hs Hb; cbn.
  - eauto.
  - destruct (Hb i s ltac:(left) Hs) as (s1 & -> & Hs1). cbn.
    apply IH; [exact Hs1|]. intros j s2 Hj. apply Hb. now right.
Qed.

(** A loop whose body keeps an invariant keeps it when it completes. *)
Lemma for_each_inv {S : Type} (P : S -> Prop) (l : list nat)
    (body : nat -> S -> result S) (s s' : S) :
  P s ->
  (forall i s s', i ∈ l -> P s -> body i s = Ok s' -> P s') ->
  for_each l body s = Ok s' -> P s'.
Proof.
  revert s. induction l as [|i l IH]; intros s Hs Hb; cbn.
  - now intros [= <-].
  - destruct (body i s) as [s1|e] eqn:E; cbn; [|discriminate].
    apply IH; [eapply Hb; eauto; now left|].
    intros j s2 s3 Hj. apply Hb. now right.
Qed.

Lemma nth_insert_ne (d v : Qu) (A : list Qu) (i k : nat) :
  k <> i -> nth k (<[i := v]> A) d = nth k A d.
Proof. intros Hk. rewrite !nth_lookup. now rewrite list_lookup_insert_ne. Qed.

Lemma nth_insert_eq (d v : Qu) (A : list Qu) (i : nat) :
  (i < length A)%nat -> nth i (<[i := v]> A) d = v.
Proof. intros Hi. rewrite nth_lookup. now rewrite list_lookup_insert_eq. Qed.
(** ** Tensor indices *)

Lemma cast_ull_mod32 z : cast_ull z mod 2 ^ 32 = z mod 2 ^ 32.
Proof.
  unfold cast_ull. apply Z.mod_mod_divide. exists (2 ^ 32). reflexivity.
Qed.

Lemma cast_int_mod32 z : cast_int z mod 2 ^ 32 = z mod 2 ^ 32.
Proof.
  unfold cast_int. rewrite Zminus_mod_idemp_l. f_equal. lia.
Qed.

Lemma cast_int_eq a b : a mod 2 ^ 32 = b mod 2 ^ 32 -> cast_int a = cast_int b.
Proof.
  intros H. unfold cast_int. f_equal.
  rewrite (Z.add_mod a), (Z.add_mod b) by lia. now rewrite H.
Qed.

(** A product computed on [size_t] and narrowed to [int] is the product
    narrowed to [int]. *)
Lemma narrow_step a d :
  cast_int (cast_ull (cast_ull (cast_int a) * d)) = cast_int (a * d).
Proof.
  apply cast_int_eq. rewrite cast_ull_mod32.
  rewrite (Z.mul_mod (cast_ull _)), cast_ull_mod32, cast_int_mod32 by lia.
  now rewrite <- Z.mul_mod by lia.
Qed.

Lemma narrow_fold (l : list nat) :
  forall p : nat,
    foldl (fun (init : Z) (d : nat) => cast_int (cast_ull (cast_ull init * Z.of_nat d)))
          (cast_int (Z.of_nat p)) l
    = cast_int (Z.of_nat (foldl Nat.mul p l)).
Proof.
  induction l as [|d l IH]; intros p; cbn [foldl]; [reflexivity|].
  rewrite narrow_step, <- Nat2Z.inj_mul. apply IH.
Qed.

Lemma size_t_of_nat (n : nat) : Z.of_nat n < 2 ^ 64 -> size_t (Z.of_nat n) = n.
Proof.
  intros H. unfold size_t, cast_ull. rewrite Z.mod_small by lia. apply Nat2Z.id.
Qed.

Lemma size_t_val z : Z.of_nat (size_t z) = z mod 2 ^ 64.
Proof.
  unfold size_t, cast_ull. apply Z2Nat.id. apply Z.mod_pos_bound. lia.
Qed.

Lemma size_t_add_l x y : size_t (Z.of_nat (size_t x) + y) = size_t (x + y).
Proof.
  unfold size_t at 1 3. unfold cast_ull. f_equal.
  rewrite size_t_val. apply Zplus_mod_idemp_l.
Qed.

Lemma size_t_add_r x y : size_t (x + Z.of_nat (size_t y)) = size_t (x + y).
Proof. rewrite Z.add_comm, size_t_add_l. f_equal. lia. Qed.

Lemma size_t_idem z : size_t (Z.of_nat (size_t z)) = size_t z.
Proof.
  replace (Z.of_nat (size_t z)) with (Z.of_nat (size_t z) + 0) by lia.
  rewrite size_t_add_l. f_equal. lia.
Qed.

(** The stride of a dimension is the product of the extents before it,
    narrowed to [int]. *)
Lemma elemSizeForIndexHead_narrow (dims : list nat) (k : nat) :
  dim.elemSizeForIndexHead dims k
  = size_t (cast_int (Z.of_nat (foldl Nat.mul 1%nat (take k dims)))).
Proof.
  unfold dim.elemSizeForIndexHead. f_equal.
  change 1 with (cast_int (Z.of_nat 1)). apply narrow_fold.
Qed.

Lemma elemSizeForIndexHead_small (dims : list nat) (k : nat) :
  Z.of_nat (foldl Nat.mul 1%nat (take k dims)) < 2 ^ 31 ->
  dim.elemSizeForIndexHead dims k = foldl Nat.mul 1%nat (take k dims).
Proof.
  intros H. rewrite elemSizeForIndexHead_narrow.
  rewrite cast_int_small by lia. apply size_t_of_nat. lia.
Qed.

Lemma elemSizeForIndexHead_app_length (pre rest : list nat) :
  Z.of_nat (foldl Nat.mul 1%nat pre) < 2 ^ 31 ->
  dim.elemSizeForIndexHead (pre ++ rest) (length pre) = foldl Nat.mul 1%nat pre.
Proof.
  intros H. rewrite elemSizeForIndexHead_small; now rewrite take_app_length.
Qed.

Lemma compute_size_t (dims : list nat) (loc : nat) (index : list nat) (r : nat) :
  dim.compute dims loc index = Ok r -> size_t (Z.of_nat r) = r.
Proof.
  destruct index as [|i [|i2 rest]].
  - discriminate.
  - cbn [dim.compute]. destruct (_ =? _)%nat; [|discriminate].
    intros [= <-]. apply size_t_idem.
  - change (dim.compute dims loc (i :: i2 :: rest))
      with (do rest0 <- dim.compute dims (S loc) (i2 :: rest);
            Ok (size_t (Z.of_nat i * Z.of_nat (dim.elemSizeForIndexHead dims loc)
                        + Z.of_nat rest0))).
    destruct (dim.compute dims (S loc) (i2 :: rest)); cbn [rbind]; [|discriminate].
    intros [= <-]. apply size_t_idem.
Qed.

(** The run-time computation adds to [accum], on [size_t], what the
    compile-time one computes. *)
Lemma calculateIndex_compute (dims : list nat) (index : list nat) :
  forall loc accum,
    index <> [] -> (loc + length index = dim.dimSize dims)%nat ->
    exists r, dim.compute dims loc index = Ok r /\
              dim.calculateIndex dims accum index = size_t (Z.of_nat accum + Z.of_nat r).
Proof.
  induction index as [|first rest IH]; intros loc accum Hne Hlen; [congruence|].
  destruct rest as [|i2 rest].
  - cbn [dim.compute dim.calculateIndex]. cbn [length] in Hlen.
    destruct (Nat.eqb_spec loc (dim.dimSize dims - 1)); [|lia].
    eexists. split; [reflexivity|]. now rewrite size_t_add_r.
  - cbn [length] in Hlen.
    destruct (IH (S loc)
                (size_t (Z.of_nat accum
                         + Z.of_nat first * Z.of_nat (dim.elemSizeForIndexHead dims loc)))
                ltac:(discriminate) ltac:(cbn [length]; lia)) as (r & Hr & Hc).
    eexists. split.
    + change (dim.compute dims loc (first :: i2 :: rest))
        with (do rest0 <- dim.compute dims (S loc) (i2 :: rest);
              Ok (size_t (Z.of_nat first * Z.of_nat (dim.elemSizeForIndexHead dims loc)
                          + Z.of_nat rest0))).
      rewrite Hr. reflexivity.
    + change (dim.calculateIndex dims accum (first :: i2 :: rest))
        with (dim.calculateIndex dims
                (size_t (Z.of_nat accum
                         + Z.of_nat first
                           * Z.of_nat (dim.elemSizeForIndexHead dims
                                         (dim.dimSize dims - length (i2 :: rest) - 1))))
                (i2 :: rest)).
      replace (dim.dimSize dims - length (i2 :: rest) - 1)%nat with loc
        by (cbn [length]; lia).
      rewrite Hc, size_t_add_l, size_t_add_r. f_equal. lia.
Qed.

(** The offsets of a matrix and of a vector. *)
Lemma absoluteIndex_s_matrix (row col i j : nat) :
  Z.of_nat row < 2 ^ 31 -> Z.of_nat (i + j * row) < 2 ^ 64 ->
  dim.absoluteIndex_s [row; col] [i; j] = Ok (i + j * row)%nat.
Proof.
  intros Hrow Hoff. unfold dim.absoluteIndex_s, static_assert, dim.dimSize.
  cbn [length Nat.eqb rbind dim.compute Nat.sub]. unfold dim.dimSize. cbn [length Nat.sub Nat.eqb].
  rewrite !elemSizeForIndexHead_small by (cbn; lia). cbn [take foldl rbind].
  rewrite Nat.mul_1_l. f_equal.
  rewrite size_t_add_r. rewrite <- !Nat2Z.inj_mul, <- Nat2Z.inj_add.
  rewrite size_t_of_nat; [lia|].
  replace (i * 1 + j * row)%nat with (i + j * row)%nat by lia. exact Hoff.
Qed.

Lemma absoluteIndex_s_vector (n i : nat) :
  Z.of_nat i < 2 ^ 64 -> dim.absoluteIndex_s [n] [i] = Ok i.
Proof.
  intros Hi. unfold dim.absoluteIndex_s, static_assert, dim.dimSize.
  cbn [length Nat.eqb rbind dim.compute Nat.sub]. unfold dim.dimSize. cbn [length Nat.sub Nat.eqb].
  rewrite elemSizeForIndexHead_small by (cbn; lia). cbn [take foldl].
  f_equal. rewrite <- Nat2Z.inj_mul, Nat.mul_1_r. now apply size_t_of_nat.
Qed.

Lemma subscript_matrix (row col i j : nat) :
  Z.of_nat row < 2 ^ 31 -> Z.of_nat (i + j * row) < 2 ^ 64 ->
  dim.subscript [row; col] [i; j] = Ok (i + j * row)%nat.
Proof.
  intros Hrow Hoff.
  destruct (calculateIndex_compute [row; col] [i; j] 0 0 ltac:(discriminate) eq_refl)
    as (r & Hr & Hc).
  pose proof (absoluteIndex_s_matrix row col i j Hrow Hoff) as Ha.
  unfold dim.absoluteIndex_s, static_assert in Ha. cbn [length dim.dimSize Nat.eqb rbind] in Ha.
  rewrite Ha in Hr. injection Hr as <-.
  unfold dim.subscript, static_assert. cbn [length dim.dimSize Nat.eqb Nat.ltb Nat.leb andb rbind].
  rewrite Hc. f_equal. cbn [Z.of_nat Z.add]. now apply size_t_of_nat.
Qed.

(** X21: the offset that [operator[](index...)] computes at run time and
    the compile-time constant [absoluteIndex_s<index...>::value] are the
    same [size_t] value, for every tensor shape and every list of two or
    more indices, as many as the tensor has dimensions; for a matrix of
    fewer than [2^31] rows it is [i + j * rows] (column-major). *)
Theorem X21_subscript_is_absoluteIndex (dims index : list nat) :
  length index = length dims -> (1 < length index)%nat ->
  (exists k, dim.subscript dims index = Ok k /\ dim.absoluteIndex_s dims index = Ok k) /\
  (forall row col i j,
      Z.of_nat row < 2 ^ 31 -> Z.of_nat (i + j * row) < 2 ^ 64 ->
      dim.subscript [row; col] [i; j] = Ok (i + j * row)%nat /\
      dim.absoluteIndex_s [row; col] [i; j] = Ok (i + j * row)%nat).
Proof.
  intros Hlen Hrank. split.
  - destruct (calculateIndex_compute dims index 0 0) as (r & Hr & Hc).
    + intros ->. cbn in Hrank. lia.
    + unfold dim.dimSize. lia.
    + exists r. unfold dim.subscript, dim.absoluteIndex_s, static_assert, dim.dimSize.
      rewrite Hlen, Nat.eqb_refl. rewrite <- Hlen.
      destruct (Nat.ltb_spec 1 (length index)); [|lia].
      cbn [andb rbind]. split; [|exact Hr].
      rewrite Hc. f_equal. cbn [Z.of_nat Z.add]. exact (compute_size_t _ _ _ _ Hr).
  - intros row col i j Hrow Hoff. split.
    + now apply subscript_matrix.
    + now apply absoluteIndex_s_matrix.
Qed.

Lemma X21_subscript_is_absoluteIndex_witness :
  dim.subscript [2; 3; 4]%nat [1; 2; 3]%nat = Ok 23%nat /\
  dim.absoluteIndex_s [2; 3; 4]%nat [1; 2; 3]%nat = Ok 23%nat.
Proof.
  destruct (X21_subscript_is_absoluteIndex [2; 3; 4]%nat [1; 2; 3]%nat eq_refl)
    as [(k & H1 & H2) _].
  - cbn. lia.
  - assert (k = 23%nat) as -> by (vm_compute in H1; congruence).
    split; [exact H1 | exact H2].
Defined.

Lemma extents_positive (index rest : list nat) :
  Forall2 lt index rest -> (0 < foldr Nat.mul 1%nat rest)%nat.
Proof.
  induction 1 as [|i d index rest Hi _ IH]; cbn [foldr]; [lia|]. nia.
Qed.

(** An in-bounds index suffix of a tensor of fewer than [2^31] elements
    has an offset that is a multiple of the stride of its first dimension,
    below the product of the extents. *)
Lemma compute_in_bounds (rest : list nat) :
  forall (pre index : list nat),
    rest <> [] -> Forall2 lt index rest ->
    Z.of_nat (foldl Nat.mul 1%nat pre * foldr Nat.mul 1%nat rest) < 2 ^ 31 ->
    exists k, dim.compute (pre ++ rest) (length pre) index
              = Ok (foldl Nat.mul 1%nat pre * k)%nat /\
              (k < foldr Nat.mul 1%nat rest)%nat.
Proof.
  induction rest as [|d rest IH]; intros pre index Hne Hall Hb; [congruence|].
  apply Forall2_cons_inv_r in Hall as (i & index' & Hi & Hall & ->).
  set (P := foldl Nat.mul 1%nat pre) in *.
  destruct rest as [|d2 rest].
  - apply Forall2_nil_inv_r in Hall as ->.
    cbn [foldr] in Hb. rewrite Nat.mul_1_r in Hb.
    assert (HP : (P * 1 <= P * d)%nat) by (apply Nat.mul_le_mono_l; lia).
    assert (HPi : (P * S i <= P * d)%nat) by (apply Nat.mul_le_mono_l; lia).
    cbn [dim.compute]. unfold dim.dimSize. rewrite length_app. cbn [length].
    destruct (Nat.eqb_spec (length pre) (length pre + 1 - 1)); [|lia].
    replace (length pre + 1 - 1)%nat with (length pre) by lia.
    rewrite elemSizeForIndexHead_app_length by (fold P; lia). fold P.
    exists i. split; [|cbn; lia].
    f_equal. rewrite <- Nat2Z.inj_mul. rewrite size_t_of_nat; lia.
  - assert (Hrest : (0 < foldr Nat.mul 1%nat (d2 :: rest))%nat)
      by exact (extents_positive _ _ Hall).
    change (foldr Nat.mul 1%nat (d :: d2 :: rest))
      with (d * foldr Nat.mul 1%nat (d2 :: rest))%nat in Hb.
    set (R := foldr Nat.mul 1%nat (d2 :: rest)) in *.
    assert (HdR : (1 <= d * R)%nat) by nia.
    assert (HP : (P * 1 <= P * (d * R))%nat) by (apply Nat.mul_le_mono_l; lia).
    destruct (IH (pre ++ [d]) index' ltac:(discriminate) Hall) as (k & Hk & Hlt).
    { rewrite foldl_app. cbn [foldl]. fold P. fold R. rewrite <- Nat.mul_assoc. exact Hb. }
    rewrite <- app_assoc in Hk. cbn [app] in Hk.
    rewrite length_app in Hk. cbn [length] in Hk.
    replace (length pre + 1)%nat with (S (length pre)) in Hk by lia.
    rewrite foldl_app in Hk. cbn [foldl] in Hk. fold P in Hk. fold R in Hlt.
    apply Forall2_cons_inv_r in Hall as (i2 & index'' & Hi2 & Hall & ->).
    change (dim.compute (pre ++ d :: d2 :: rest) (length pre) (i :: i2 :: index''))
      with (do rest0 <- dim.compute (pre ++ d :: d2 :: rest) (S (length pre)) (i2 :: index'');
            Ok (size_t (Z.of_nat i
                        * Z.of_nat (dim.elemSizeForIndexHead (pre ++ d :: d2 :: rest)
                                      (length pre))
                        + Z.of_nat rest0))).
    rewrite Hk. cbn [rbind]. rewrite elemSizeForIndexHead_app_length by (fold P; lia).
    fold P.
    assert (Hd : (d * S k <= d * R)%nat) by (apply Nat.mul_le_mono_l; lia).
    assert (HPk : (P * (S i + d * k) <= P * (d * R))%nat)
      by (apply Nat.mul_le_mono_l; lia).
    exists (i + d * k)%nat.
    split; [|change (foldr Nat.mul 1%nat (d :: d2 :: rest)) with (d * R)%nat; lia].
    f_equal. rewrite <- Nat2Z.inj_mul, <- Nat2Z.inj_add.
    rewrite size_t_of_nat; lia.
Qed.

Lemma compute_injective (rest : list nat) :
  forall (pre idx1 idx2 : list nat) (r : nat),
    rest <> [] -> (0 < foldl Nat.mul 1%nat pre)%nat ->
    Z.of_nat (foldl Nat.mul 1%nat pre * foldr Nat.mul 1%nat rest) < 2 ^ 31 ->
    Forall2 lt idx1 rest -> Forall2 lt idx2 rest ->
    dim.compute (pre ++ rest) (length pre) idx1 = Ok r ->
    dim.compute (pre ++ rest) (length pre) idx2 = Ok r ->
    idx1 = idx2.
Proof.
  induction rest as [|d rest IH]; intros pre idx1 idx2 r Hne Hpos Hb H1 H2 E1 E2;
    [congruence|].
  pose proof (compute_in_bounds (d :: rest) pre idx1 Hne H1 Hb) as (a1 & Ha1 & La1).
  pose proof (compute_in_bounds (d :: rest) pre idx2 Hne H2 Hb) as (a2 & Ha2 & La2).
  rewrite Ha1 in E1. rewrite Ha2 in E2. injection E1 as E1. injection E2 as E2.
  assert (Ea : a1 = a2) by nia. subst a2. clear E2 La2.
  apply Forall2_cons_inv_r in H1 as (i1 & t1 & Hi1 & H1 & ->).
  apply Forall2_cons_inv_r in H2 as (i2 & t2 & Hi2 & H2 & ->).
  set (P := foldl Nat.mul 1%nat pre) in *.
  destruct rest as [|d2 rest].
  - apply Forall2_nil_inv_r in H1 as ->. apply Forall2_nil_inv_r in H2 as ->.
    cbn [foldr] in Hb.
    cbn [dim.compute] in Ha1, Ha2.
    unfold dim.dimSize in Ha1, Ha2. rewrite length_app in Ha1, Ha2. cbn [length] in Ha1, Ha2.
    destruct (Nat.eqb_spec (length pre) (length pre + 1 - 1)); [|lia].
    replace (length pre + 1 - 1)%nat with (length pre) in Ha1, Ha2 by lia.
    rewrite elemSizeForIndexHead_app_length in Ha1, Ha2 by (fold P; nia).
    fold P in Ha1, Ha2.
    rewrite <- Nat2Z.inj_mul in Ha1, Ha2.
    rewrite size_t_of_nat in Ha1, Ha2 by nia.
    injection Ha1 as Ha1. injection Ha2 as Ha2. f_equal. nia.
  - assert (Hrest : (0 < foldr Nat.mul 1%nat (d2 :: rest))%nat)
      by exact (extents_positive _ _ H1).
    change (foldr Nat.mul 1%nat (d :: d2 :: rest))
      with (d * foldr Nat.mul 1%nat (d2 :: rest))%nat in Hb, La1.
    set (R := foldr Nat.mul 1%nat (d2 :: rest)) in *.
    assert (HdR : (1 <= d * R)%nat) by nia.
    assert (HP : (P * 1 <= P * (d * R))%nat) by (apply Nat.mul_le_mono_l; lia).
    assert (Hb' : Z.of_nat (foldl Nat.mul 1%nat (pre ++ [d]) * R) < 2 ^ 31).
    { rewrite foldl_app. cbn [foldl]. fold P. rewrite <- Nat.mul_assoc. exact Hb. }
    destruct (compute_in_bounds (d2 :: rest) (pre ++ [d]) t1 ltac:(discriminate) H1 Hb')
      as (k1 & Hk1 & Lk1).
    destruct (compute_in_bounds (d2 :: rest) (pre ++ [d]) t2 ltac:(discriminate) H2 Hb')
      as (k2 & Hk2 & Lk2).
    fold R in Lk1, Lk2.
    rewrite <- app_assoc in Hk1, Hk2. cbn [app] in Hk1, Hk2.
    rewrite length_app in Hk1, Hk2. cbn [length] in Hk1, Hk2.
    replace (length pre + 1)%nat with (S (length pre)) in Hk1, Hk2 by lia.
    rewrite foldl_app in Hk1, Hk2. cbn [foldl] in Hk1, Hk2. fold P in Hk1, Hk2.
    destruct t1 as [|j1 t1]; [inversion H1|]. destruct t2 as [|j2 t2]; [inversion H2|].
    change (dim.compute (pre ++ d :: d2 :: rest) (length pre) (i1 :: j1 :: t1))
      with (do rest0 <- dim.compute (pre ++ d :: d2 :: rest) (S (length pre)) (j1 :: t1);
            Ok (size_t (Z.of_nat i1
                        * Z.of_nat (dim.elemSizeForIndexHead (pre ++ d :: d2 :: rest)
                                      (length pre))
                        + Z.of_nat rest0))) in Ha1.
    change (dim.compute (pre ++ d :: d2 :: rest) (length pre) (i2 :: j2 :: t2))
      with (do rest0 <- dim.compute (pre ++ d :: d2 :: rest) (S (length pre)) (j2 :: t2);
            Ok (size_t (Z.of_nat i2
                        * Z.of_nat (dim.elemSizeForIndexHead (pre ++ d :: d2 :: rest)
                                      (length pre))
                        + Z.of_nat rest0))) in Ha2.
    rewrite Hk1 in Ha1. rewrite Hk2 in Ha2. cbn [rbind] in Ha1, Ha2.
    rewrite elemSizeForIndexHead_app_length in Ha1, Ha2 by (fold P; lia).
    fold P in Ha1, Ha2.
    assert (Hd1 : (d * S k1 <= d * R)%nat) by (apply Nat.mul_le_mono_l; lia).
    assert (Hd2 : (d * S k2 <= d * R)%nat) by (apply Nat.mul_le_mono_l; lia).
    assert (HP1 : (P * (S i1 + d * k1) <= P * (d * R))%nat)
      by (apply Nat.mul_le_mono_l; lia).
    assert (HP2 : (P * (S i2 + d * k2) <= P * (d * R))%nat)
      by (apply Nat.mul_le_mono_l; lia).
    rewrite <- !Nat2Z.inj_mul, <- Nat2Z.inj_add in Ha1, Ha2.
    rewrite size_t_of_nat in Ha1, Ha2 by lia.
    injection Ha1 as Ha1. injection Ha2 as Ha2.
    assert (Heq : (i1 + d * k1 = i2 + d * k2)%nat).
    { apply (Nat.mul_cancel_l _ _ P); lia. }
    assert (Hk : k1 = k2).
    { destruct (lt_eq_lt_dec k1 k2) as [[H|H]|H]; [|exact H|].
      - assert (d * S k1 <= d * k2)%nat by (apply Nat.mul_le_mono_l; lia). lia.
      - assert (d * S k2 <= d * k1)%nat by (apply Nat.mul_le_mono_l; lia). lia. }
    subst k2. assert (i1 = i2) by lia. subst i2. f_equal.
    apply (IH (pre ++ [d]) (j1 :: t1) (j2 :: t2) (P * d * k1)%nat);
      [discriminate | rewrite foldl_app; cbn [foldl]; fold P; nia | exact Hb'
      | exact H1 | exact H2 | |].
    + rewrite <- app_assoc, length_app. cbn [app length].
      replace (length pre + 1)%nat with (S (length pre)) by lia. exact Hk1.
    + rewrite <- app_assoc, length_app. cbn [app length].
      replace (length pre + 1)%nat with (S (length pre)) by lia. exact Hk2.
Qed.

(** X22: for every tensor shape of fewer than [2^31] elements, an index
    list that is in bounds (each index below the extent of its dimension)
    has a compile-time offset [absoluteIndex_s<index...>::value] below the
    number of elements of the tensor, and two in-bounds index lists with
    the same offset are the same list: distinct cells never share
    storage. *)
Theorem X22_offsets_in_bounds_and_distinct (dims idx1 idx2 : list nat) :
  dims <> [] -> Z.of_nat (foldr Nat.mul 1%nat dims) < 2 ^ 31 ->
  Forall2 lt idx1 dims -> Forall2 lt idx2 dims ->
  exists k1 k2,
    dim.absoluteIndex_s dims idx1 = Ok k1 /\ dim.absoluteIndex_s dims idx2 = Ok k2 /\
    (k1 < dim.elemSize dims)%nat /\ (k2 < dim.elemSize dims)%nat /\
    (k1 = k2 -> idx1 = idx2).
Proof.
  intros Hne Hb H1 H2.
  assert (Hb' : Z.of_nat (foldl Nat.mul 1%nat [] * foldr Nat.mul 1%nat dims) < 2 ^ 31)
    by (cbn [foldl]; lia).
  destruct (compute_in_bounds dims [] idx1 Hne H1 Hb') as (k1 & Hk1 & Hlt1).
  destruct (compute_in_bounds dims [] idx2 Hne H2 Hb') as (k2 & Hk2 & Hlt2).
  cbn [app length foldl] in Hk1, Hk2. rewrite Nat.mul_1_l in Hk1, Hk2.
  assert (He : dim.elemSize dims = foldr Nat.mul 1%nat dims).
  { unfold dim.elemSize. apply size_t_of_nat. lia. }
  exists k1, k2. unfold dim.absoluteIndex_s, static_assert, dim.dimSize.
  rewrite (Forall2_length _ _ _ H1), (Forall2_length _ _ _ H2), Nat.eqb_refl.
  cbn [rbind]. rewrite He. split; [exact Hk1|]. split; [exact Hk2|].
  split; [exact Hlt1|]. split; [exact Hlt2|].
  intros ->. apply (compute_injective dims [] idx1 idx2 k2); cbn [foldl app length];
    try assumption; lia.
Qed.

Lemma X22_offsets_in_bounds_and_distinct_witness :
  exists k1 k2,
    dim.absoluteIndex_s [2; 3; 4]%nat [1; 2; 3]%nat = Ok k1 /\
    dim.absoluteIndex_s [2; 3; 4]%nat [0; 0; 0]%nat = Ok k2 /\
    (k1 < 24)%nat /\ (k2 < 24)%nat.
Proof.
  destruct (X22_offsets_in_bounds_and_distinct [2; 3; 4]%nat [1; 2; 3]%nat [0; 0; 0]%nat)
    as (k1 & k2 & H1 & H2 & L1 & L2 & _).
  - discriminate.
  - cbn. lia.
  - repeat constructor.
  - repeat constructor.
  - exists k1, k2. split; [exact H1|]. split; [exact H2|]. split; [exact L1 | exact L2].
Defined.
(** ** Operators on scalars of one static type *)

Lemma fracConvert_ok a b m v :
  0 <= m <= 6 -> a - b <= 30 -> exists r, fracConvert a b m v = Ok r.
Proof.
  intros Hm Hd.
  assert (Hc : m = 0 \/ m = 1 \/ m = 2 \/ m = 3 \/ m = 4 \/ m = 5 \/ m = 6) by lia.
  destruct Hc as [->|[->|[->|[->|[->|[->| ->]]]]]]; cbn -[Z.sub]; frac_guards;
    eexists; reflexivity.
Qed.

Lemma fromMode_same m d : fromMode m m d = m.
Proof. unfold fromMode. now rewrite Z.eqb_refl. Qed.

Lemma mergedType_Mul_same T : mergedType (MulMerger T T []) = T.
Proof.
  destruct T as [i f s q o]. unfold mergedType, MulMerger. cbn.
  now rewrite !Z.max_id, orb_diag, !fromMode_same.
Qed.

Lemma mergedType_Add_same T : mergedType (AddMerger T T []) = T.
Proof.
  destruct T as [i f s q o]. unfold mergedType, AddMerger. cbn.
  now rewrite !Z.max_id, orb_diag, !fromMode_same.
Qed.

Lemma Qu_s_typed T v :
  wfT T -> Qu_s T v = Ok (mkQu false T (cast_int v)) /\ typed T (mkQu false T (cast_int v)).
Proof.
  intros (Ha & _). unfold Qu_s, static_assert. rewrite Ha. split; [reflexivity|].
  split; [reflexivity|]. split; [reflexivity|]. apply cast_int_range.
Qed.

Lemma op_mul_typed T a b :
  elemT_ok T -> typed T a -> typed T b -> exists r, op_mul a b = Ok r /\ typed T r.
Proof.
  intros [Hwf Hf] (Hda & Hta & _) (Hdb & Htb & _).
  unfold op_mul, Qmul. rewrite Hda, Hdb. cbn [orb].
  unfold Qmul_s.mul. cbn [MergerArgsWrapper fmap list_fmap]. rewrite Hta, Htb.
  set (m := MulMerger T T []).
  assert (Hm : mergedType m = T) by apply mergedType_Mul_same.
  rewrite Hm. pose proof Hwf as (Ha & Hq & Ho).
  unfold static_assert. rewrite Ha. cbn [rbind].
  assert (HQ : toQuMode m = QuM T) by (rewrite <- Hm; reflexivity).
  assert (HO : toOfMode m = OfM T) by (rewrite <- Hm; reflexivity).
  assert (HF : toFrac m = fracB T) by (rewrite <- Hm; reflexivity).
  destruct (fracConvert_ok (fracB T + fracB T) (toFrac m) (toQuMode m)
              (cast_ll (data a) * cast_ll (data b))) as (v & ->); [lia|lia|].
  cbn [rbind].
  destruct (intConvert_ok (toInt m) (toFrac m) (toIsSigned m) (toOfMode m) v)
    as (w & ->); [lia|].
  cbn [rbind]. destruct (Qu_s_typed T w Hwf) as [-> Ht].
  eexists. split; [reflexivity|exact Ht].
Qed.

Lemma op_sub_typed T a b :
  elemT_ok T -> typed T a -> typed T b -> exists r, op_sub a b = Ok r /\ typed T r.
Proof.
  intros [Hwf Hf] (Hda & Hta & _) (Hdb & Htb & _).
  unfold op_sub, Qsub. rewrite Hda, Hdb. cbn [orb].
  unfold Qsub_s.sub. cbn [MergerArgsWrapper fmap list_fmap head_not_Qu_s].
  rewrite Hta, Htb.
  set (m := AddMerger T T []).
  assert (Hm : mergedType m = T) by apply mergedType_Add_same.
  rewrite Hm. pose proof Hwf as (Ha & Hq & Ho).
  unfold static_assert. rewrite Ha. cbn [rbind].
  assert (HQ : toQuMode m = QuM T) by (rewrite <- Hm; reflexivity).
  assert (HO : toOfMode m = OfM T) by (rewrite <- Hm; reflexivity).
  assert (HF : toFrac m = fracB T) by (rewrite <- Hm; reflexivity).
  match goal with
  | |- context [fracConvert ?x ?y ?z ?w] =>
      destruct (fracConvert_ok x y z w) as (v & ->); [lia|rewrite Z.max_id; lia|]
  end.
  cbn [rbind].
  destruct (intConvert_ok (toInt m) (toFrac m) (toIsSigned m) (toOfMode m) v)
    as (w & ->); [lia|].
  cbn [rbind]. destruct (Qu_s_typed T w Hwf) as [-> Ht].
  eexists. split; [reflexivity|exact Ht].
Qed.

Lemma Qu_s_from_typed T r : wfT T -> typed T r -> Qu_s_from T r = Ok r.
Proof.
  intros (Ha & _) (Hd & Ht & _). unfold Qu_s_from, static_assert. rewrite Ha, Hd, Ht.
  cbn [rbind]. rewrite !Z.eqb_refl, eqb_reflx. cbn [andb].
  destruct r as [dy ty da]. cbn in *. now subst.
Qed.

Lemma Qtable_typed func T x :
  elemT_ok T -> table_defined func T -> typed T x -> 0 < data x ->
  exists t, ANUS.Qtable func x = Ok t /\ typed T t.
Proof.
  intros [Hwf Hf] Hfun Hx Hpos. pose proof Hx as (Hd & Ht & _).
  unfold ANUS.Qtable, Qu_s_of_real. rewrite Ht.
  pose proof Hwf as (Ha & Hq & Ho). unfold static_assert at 1.
  replace (Qu_s_assert _) with true by (symmetry; exact Ha).
  cbn [rbind fracB intB isS QuM OfM].
  unfold inputDynamic. destruct (Z.leb_spec 0 (fracB T)); [|lia].
  rewrite cast_double_ll_ok by (apply Hfun; assumption). cbn [rbind].
  match goal with
  | |- context [fracConvert ?x ?y ?z ?w] =>
      destruct (fracConvert_ok x y z w) as (v & ->); [unfold RND.ZERO; lia|lia|]
  end.
  cbn [rbind].
  destruct (intConvert_ok (intB T) (fracB T) (isS T) (OfM T) v) as (w & ->); [lia|].
  cbn [rbind data]. destruct (Qu_s_typed T w Hwf) as [-> Ht'].
  eexists. split; [reflexivity|exact Ht'].
Qed.
(** ** Qpotrf *)

(** A loop over [0 .. n-1] whose step [k] takes the invariant from [k] to
    [k + 1] succeeds and ends in the invariant at [n]. *)
Lemma for_each_seq_inv {S : Type} (P : nat -> S -> Prop) (n : nat)
    (body : nat -> S -> result S) (s : S) :
  P 0%nat s ->
  (forall k s, (k < n)%nat -> P k s -> exists s', body k s = Ok s' /\ P (Datatypes.S k) s') ->
  exists s', for_each (seq 0 n) body s = Ok s' /\ P n s'.
Proof.
  intros H0 Hstep. induction n as [|n IH].
  - exists s. now split.
  - destruct IH as (s1 & E1 & H1); [intros k s0 Hk; apply Hstep; lia|].
    destruct (Hstep n s1 ltac:(lia) H1) as (s2 & E2 & H2).
    exists s2. rewrite seq_S, for_each_app, E1. cbn. rewrite E2. now split.
Qed.

Lemma at_typed T (A : list Qu) (i : nat) : Forall (typed T) A -> typed T (at_ T A i).
Proof.
  intros HA. unfold at_. destruct (nth_lookup_or_length A i (zeroQu T)) as [H|H].
  - eapply Forall_lookup_1; eauto.
  - rewrite nth_overflow by lia. repeat split; cbn; lia.
Qed.

Lemma entry_typed T row (A : list Qu) (i j : nat) :
  Forall (typed T) A -> typed T (entry T row A i j).
Proof. apply at_typed. Qed.

Lemma read_at T (A : list Qu) (off : nat) :
  (off < length A)%nat -> read A off = Ok (at_ T A off).
Proof.
  intros H. unfold read, at_. destruct (lookup_lt_is_Some_2 A off H) as (x & Hx).
  rewrite Hx. f_equal. symmetry. now apply nth_lookup_Some.
Qed.

Lemma write_in (A : list Qu) (off : nat) (q : Qu) :
  (off < length A)%nat -> write A off q = Ok (<[off := q]> A).
Proof. intros H. unfold write. destruct (Nat.ltb_spec off (length A)); [reflexivity|lia]. Qed.

Lemma matrix_inv_insert T row A k v :
  matrix_inv T row A -> typed T v -> matrix_inv T row (<[k := v]> A).
Proof.
  intros [Hl HA] Hv. split; [now rewrite length_insert | now apply Forall_insert].
Qed.

Lemma offset_lt row i j :
  (i < row)%nat -> (j < row)%nat -> (i + j * row < row * row)%nat.
Proof.
  intros Hi Hj.
  assert (S j * row <= row * row)%nat by (apply Nat.mul_le_mono_r; lia).
  lia.
Qed.

Lemma offset_inj row i j i' j' :
  (i < row)%nat -> (i' < row)%nat ->
  (i + j * row = i' + j' * row)%nat -> i = i' /\ j = j'.
Proof.
  intros Hi Hi' Heq.
  destruct (lt_eq_lt_dec j j') as [[H|H]|H].
  - assert (S j * row <= j' * row)%nat by (apply Nat.mul_le_mono_r; lia). lia.
  - subst. lia.
  - assert (S j' * row <= j * row)%nat by (apply Nat.mul_le_mono_r; lia). lia.
Qed.

Lemma offset_size_t row i j :
  Z.of_nat row < 2 ^ 31 -> (i < row)%nat -> (j < row)%nat ->
  Z.of_nat (i + j * row) < 2 ^ 64.
Proof.
  intros Hrow Hi Hj. pose proof (offset_lt row i j Hi Hj).
  assert (Z.of_nat row * Z.of_nat row < 2 ^ 31 * 2 ^ 31) by nia.
  change (2 ^ 31 * 2 ^ 31) with (2 ^ 62) in *. lia.
Qed.

(** As shipped, no element of a tensor can be named through [get]. *)
Lemma get_Shipped dims A index : get Shipped dims A index = Err CompileError.
Proof. reflexivity. Qed.

Lemma set_Shipped T dims A index v : set Shipped T dims A index v = Err CompileError.
Proof. reflexivity. Qed.

Section SquareMatrix.
Variables (T : QuType) (row : nat).
Hypothesis Hrow : Z.of_nat row < 2 ^ 31.

Lemma get_entry A i j :
  length A = (row * row)%nat -> (i < row)%nat -> (j < row)%nat ->
  get Repaired [row; row] A [i; j] = Ok (entry T row A i j).
Proof.
  intros Hl Hi Hj. unfold get, absoluteIndex.
  rewrite absoluteIndex_s_matrix by (try apply offset_size_t; assumption).
  cbn [rbind]. apply read_at. rewrite Hl. now apply offset_lt.
Qed.

Lemma set_entry A i j v :
  wfT T -> length A = (row * row)%nat -> (i < row)%nat -> (j < row)%nat -> typed T v ->
  set Repaired T [row; row] A [i; j] v = Ok (<[(i + j * row)%nat := v]> A).
Proof.
  intros Hwf Hl Hi Hj Hv. unfold set, absoluteIndex.
  rewrite absoluteIndex_s_matrix by (try apply offset_size_t; assumption).
  cbn [rbind]. rewrite Qu_s_from_typed by assumption. cbn [rbind].
  apply write_in. rewrite Hl. now apply offset_lt.
Qed.

Lemma entry_insert_eq A i j v :
  length A = (row * row)%nat -> (i < row)%nat -> (j < row)%nat ->
  entry T row (<[(i + j * row)%nat := v]> A) i j = v.
Proof.
  intros Hl Hi Hj. unfold entry, at_. apply nth_insert_eq. rewrite Hl. now apply offset_lt.
Qed.

Lemma entry_insert_ne A i j i' j' v :
  (i < row)%nat -> (i' < row)%nat -> (i', j') <> (i, j) ->
  entry T row (<[(i + j * row)%nat := v]> A) i' j' = entry T row A i' j'.
Proof.
  intros Hi Hi' Hne. unfold entry, at_. apply nth_insert_ne.
  intros Heq. apply offset_inj in Heq as [-> ->]; [|assumption..]. now apply Hne.
Qed.

(** What a column [J] leaves alone: the other columns, and its own
    entries above the diagonal. *)
Definition outside (J : nat) (A A' : list Qu) : Prop :=
  forall i j, (i < row)%nat -> j <> J \/ (i < J)%nat ->
              entry T row A' i j = entry T row A i j.

Lemma outside_refl J A : outside J A A.
Proof. intros i j _ _. reflexivity. Qed.

Lemma outside_trans J A1 A2 A3 : outside J A1 A2 -> outside J A2 A3 -> outside J A1 A3.
Proof. intros H12 H23 i j Hi Hj. now rewrite H23, H12. Qed.

Lemma outside_insert J A I v :
  (J <= I)%nat -> (I < row)%nat -> outside J A (<[(I + J * row)%nat := v]> A).
Proof.
  intros HJI HI i j Hi Hj. apply entry_insert_ne; [assumption..|].
  intros [= -> ->]. lia.
Qed.

Hypothesis HT : elemT_ok T.

Lemma loop_sec1_inner_spec J K A :
  (J < row)%nat -> (K < row)%nat -> matrix_inv T row A ->
  exists A', Qpotrf_s.loop_sec1_inner Repaired T row row J K A = Ok A' /\
             matrix_inv T row A' /\ outside J A A'.
Proof.
  intros HJ HK HA. unfold Qpotrf_s.loop_sec1_inner.
  destruct (for_each_seq_inv (fun _ B => matrix_inv T row B /\ outside J A B) (row - J)
              (fun I A0 =>
                 do a <- get Repaired [row; row] A0 [(I + J)%nat; J];
                 do x <- get Repaired [row; row] A0 [(I + J)%nat; K];
                 do y <- get Repaired [row; row] A0 [J; K];
                 do p <- op_mul x y;
                 do v <- op_sub a p;
                 set Repaired T [row; row] A0 [(I + J)%nat; J] v) A)
    as (A' & E & HA' & Hout).
  - split; [exact HA|apply outside_refl].
  - intros I B HI [[HBl HBt] HBout].
    rewrite !get_entry by (assumption || lia). cbn [rbind].
    destruct (op_mul_typed T (entry T row B (I + J) K) (entry T row B J K)) as (p & -> & Hp);
      [exact HT | now apply entry_typed | now apply entry_typed |].
    cbn [rbind].
    destruct (op_sub_typed T (entry T row B (I + J) J) p) as (v & -> & Hv);
      [exact HT | now apply entry_typed | exact Hp |].
    cbn [rbind]. rewrite set_entry by (assumption || lia || apply HT).
    eexists. split; [reflexivity|]. split; [now apply matrix_inv_insert|].
    eapply outside_trans; [exact HBout|]. apply outside_insert; lia.
  - exists A'. now split.
Qed.

Lemma loop_sec1_outer_spec J A :
  (J < row)%nat -> matrix_inv T row A ->
  exists A', Qpotrf_s.loop_sec1_outer Repaired T row row J A = Ok A' /\
             matrix_inv T row A' /\ outside J A A'.
Proof.
  intros HJ HA. unfold Qpotrf_s.loop_sec1_outer.
  destruct (for_each_seq_inv (fun _ B => matrix_inv T row B /\ outside J A B) J
              (fun K A0 => Qpotrf_s.loop_sec1_inner Repaired T row row J K A0) A)
    as (A' & E & HA' & Hout).
  - split; [exact HA|apply outside_refl].
  - intros K B HK [HB HBout].
    destruct (loop_sec1_inner_spec J K B HJ ltac:(lia) HB) as (B' & -> & HB' & Hout').
    exists B'. split; [reflexivity|]. split; [exact HB'|].
    eapply outside_trans; eassumption.
  - exists A'. now split.
Qed.

Variable func : Q -> Q.
Hypothesis Hfun : table_defined func T.

(** The second half of a column with a positive pivot: the table value [t]
    of the pivot multiplies the entries from the diagonal down and is then
    stored on the diagonal. *)
Lemma loop_sec2_spec J A1 :
  (J < row)%nat -> matrix_inv T row A1 -> 0 < data (entry T row A1 J J) ->
  exists t A',
    ANUS.Qtable func (entry T row A1 J J) = Ok t /\
    Qpotrf_s.loop_sec2 Repaired func T row row J A1 = Ok A' /\
    matrix_inv T row A' /\ outside J A1 A' /\
    entry T row A' J J = t /\
    (forall i, (J < i < row)%nat ->
               op_mul (entry T row A1 i J) t = Ok (entry T row A' i J)).
Proof.
  intros HJ HA Hpos. pose proof HA as [Hl Ht].
  destruct (Qtable_typed func T (entry T row A1 J J) HT Hfun (entry_typed _ _ _ _ _ Ht) Hpos)
    as (t & Etab & Htt).
  unfold Qpotrf_s.loop_sec2. rewrite get_entry by assumption. cbn [rbind].
  rewrite Etab. cbn [rbind].
  destruct (for_each_seq_inv
              (fun k B =>
                 matrix_inv T row B /\ outside J A1 B /\
                 (forall i, (J <= i < J + k)%nat ->
                            op_mul (entry T row A1 i J) t = Ok (entry T row B i J)) /\
                 (forall i, (J + k <= i < row)%nat ->
                            entry T row B i J = entry T row A1 i J))
              (row - J)
              (fun I A0 =>
                 do a <- get Repaired [row; row] A0 [(I + J)%nat; J];
                 do v <- op_mul a t;
                 set Repaired T [row; row] A0 [(I + J)%nat; J] v) A1)
    as (A2 & E & HA2 & Hout & Hdone & _).
  - split; [exact HA|]. split; [apply outside_refl|]. split; [intros i Hi; lia|].
    intros i _. reflexivity.
  - intros I B HI ([HBl HBt] & HBout & HBdone & HBtodo).
    rewrite get_entry by (assumption || lia). cbn [rbind].
    rewrite (HBtodo (I + J)%nat) by lia.
    destruct (op_mul_typed T (entry T row A1 (I + J) J) t) as (v & Ev & Hv);
      [exact HT | now apply entry_typed | exact Htt |].
    rewrite Ev. cbn [rbind]. rewrite set_entry by (assumption || lia || apply HT).
    eexists. split; [reflexivity|]. split; [now apply matrix_inv_insert|].
    split; [eapply outside_trans; [exact HBout|]; apply outside_insert; lia|].
    split.
    + intros i Hi. destruct (Nat.eq_dec i (I + J)%nat) as [->|Hne].
      * rewrite entry_insert_eq by (assumption || lia). exact Ev.
      * rewrite entry_insert_ne by (try lia; intros [=]; lia).
        apply HBdone. lia.
    + intros i Hi. rewrite entry_insert_ne by (try lia; intros [=]; lia).
      apply HBtodo. lia.
  - rewrite E. cbn [rbind]. destruct HA2 as [HA2l HA2t].
    rewrite set_entry by (assumption || apply HT).
    exists t. eexists. split; [reflexivity|]. split; [reflexivity|].
    split; [apply matrix_inv_insert; [now split|exact Htt]|].
    split; [eapply outside_trans; [exact Hout|]; apply outside_insert; lia|].
    split; [now apply entry_insert_eq|].
    intros i Hi. rewrite entry_insert_ne by (try lia; intros [=]; lia).
    apply Hdone. lia.
Qed.

(** One column: the updates of the first half, then, when the updated
    pivot is positive, the second half; otherwise nothing more. *)
Lemma loop_inner_spec J A :
  (J < row)%nat -> matrix_inv T row A ->
  exists A1 A',
    Qpotrf_s.loop_sec1_outer Repaired T row row J A = Ok A1 /\
    Qpotrf_s.loop_inner Repaired func T row row J A = Ok A' /\
    matrix_inv T row A' /\ outside J A A' /\
    (data (entry T row A1 J J) <= 0 -> A' = A1) /\
    (0 < data (entry T row A1 J J) ->
     exists t,
       ANUS.Qtable func (entry T row A1 J J) = Ok t /\
       entry T row A' J J = t /\
       (forall i, (J < i < row)%nat ->
                  op_mul (entry T row A1 i J) t = Ok (entry T row A' i J))).
Proof.
  intros HJ HA.
  destruct (loop_sec1_outer_spec J A HJ HA) as (A1 & E1 & HA1 & Hout1).
  exists A1. unfold Qpotrf_s.loop_inner. rewrite E1. cbn [rbind].
  rewrite get_entry by (assumption || apply HA1). cbn [rbind].
  destruct (Z.leb_spec (data (entry T row A1 J J)) 0) as [Hle|Hgt].
  - exists A1. split; [reflexivity|]. split; [reflexivity|]. split; [exact HA1|].
    split; [exact Hout1|]. split; [reflexivity|]. intros; lia.
  - destruct (loop_sec2_spec J A1 HJ HA1 Hgt) as (t & A' & Et & E2 & HA' & Hout2 & Hd & Hc).
    exists A'. split; [reflexivity|]. split; [exact E2|]. split; [exact HA'|].
    split; [eapply outside_trans; eassumption|]. split; [intros; lia|].
    intros _. exists t. now split.
Qed.

(** The columns [from], [from + 1], ... run one after the other and leave
    the columns before [from] alone. *)
Lemma loop_columns (n from : nat) A :
  (from + n <= row)%nat -> matrix_inv T row A ->
  exists A',
    for_each (seq from n) (fun J A => Qpotrf_s.loop_inner Repaired func T row row J A) A
      = Ok A' /\
    matrix_inv T row A' /\
    (forall i j, (i < row)%nat -> (j < from)%nat \/ (from + n <= j)%nat \/ (i < j)%nat ->
                 entry T row A' i j = entry T row A i j).
Proof.
  revert from A. induction n as [|n IH]; intros from A Hn HA.
  - exists A. cbn. split; [reflexivity|]. split; [exact HA|]. reflexivity.
  - destruct (loop_inner_spec from A ltac:(lia) HA) as (A1 & B & _ & EB & HB & Hout & _).
    destruct (IH (S from) B ltac:(lia) HB) as (A' & E' & HA' & Hfr).
    exists A'. cbn [seq for_each]. rewrite EB. cbn [rbind].
    split; [exact E'|]. split; [exact HA'|].
    intros i j Hi Hj. rewrite Hfr by lia. apply Hout; [exact Hi|]. lia.
Qed.
End SquareMatrix.
(** ** Qpotrs *)

Lemma get_vector T (n i : nat) (b : list Qu) :
  length b = n -> (i < n)%nat -> Z.of_nat n < 2 ^ 64 ->
  get Repaired [n] b [i] = Ok (at_ T b i).
Proof.
  intros Hl Hi Hn. unfold get, absoluteIndex.
  rewrite absoluteIndex_s_vector by lia. cbn [rbind]. apply read_at. lia.
Qed.

Lemma set_vector T (n i : nat) (b : list Qu) (v : Qu) :
  length b = n -> (i < n)%nat -> Z.of_nat n < 2 ^ 64 ->
  set Repaired T [n] b [i] v = (do e <- Qu_s_from T v; Ok (<[i := e]> b)).
Proof.
  intros Hl Hi Hn. unfold set, absoluteIndex.
  rewrite absoluteIndex_s_vector by lia. cbn [rbind].
  destruct (Qu_s_from T v); cbn [rbind]; [|reflexivity]. apply write_in. lia.
Qed.

Lemma at_insert_eq T (b : list Qu) (i : nat) (v : Qu) :
  (i < length b)%nat -> at_ T (<[i := v]> b) i = v.
Proof. intros H. unfold at_. now apply nth_insert_eq. Qed.

Lemma at_insert_ne T (b : list Qu) (i k : nat) (v : Qu) :
  i <> k -> at_ T (<[i := v]> b) k = at_ T b k.
Proof. intros H. unfold at_. apply nth_insert_ne. congruence. Qed.

Lemma insert_at_id T (b : list Qu) (i : nat) :
  (i < length b)%nat -> <[i := at_ T b i]> b = b.
Proof.
  intros H. apply list_insert_id. unfold at_.
  destruct (lookup_lt_is_Some_2 b i H) as (x & Hx). rewrite Hx. f_equal.
  symmetry. now apply nth_lookup_Some.
Qed.

(** A traced loop whose bodies are those of an untraced loop, each with
    its own list of primitives. *)
Lemma tfor_each_refines {S : Type} (inv : S -> Prop) (l : list nat)
    (body : nat -> S -> traced S) (sbody : nat -> S -> result S)
    (ops : nat -> list Prim) (s : S) (tr : list Prim) :
  inv s ->
  (forall i s tr, i ∈ l -> inv s ->
     body i s tr = (do x <- sbody i s; Ok (x, tr ++ ops i))) ->
  (forall i s x, i ∈ l -> inv s -> sbody i s = Ok x -> inv x) ->
  tfor_each l body s tr = (do x <- for_each l sbody s; Ok (x, tr ++ flat_map ops l)).
Proof.
  revert s tr. induction l as [|i l IH]; intros s tr Hs Hb Hinv.
  - cbn. now rewrite app_nil_r.
  - cbn [tfor_each for_each flat_map]. unfold tbind.
    rewrite Hb by (try apply elem_of_cons; auto).
    destruct (sbody i s) as [x|e] eqn:Ex; cbn [rbind fst snd]; [|reflexivity].
    rewrite IH.
    + destruct (for_each l sbody x); cbn [rbind]; [|reflexivity]. now rewrite app_assoc.
    + eapply Hinv; [apply elem_of_cons; left; reflexivity | exact Hs | exact Ex].
    + intros j s0 tr0 Hj. apply Hb. apply elem_of_cons. now right.
    + intros j s0 x0 Hj. apply Hinv. apply elem_of_cons. now right.
Qed.

Section Substitution.
Variables (LT bT : QuType) (row : nat) (L : list Qu).
Hypothesis Hrow : Z.of_nat row < 2 ^ 31.
Hypothesis HL : length L = (row * row)%nat.

Lemma eliminate_eq I lr lc bj b tr :
  length b = row -> (I < row)%nat -> (lr < row)%nat -> (lc < row)%nat -> (bj < row)%nat ->
  Qpotrs_s.eliminate Repaired bT row row row I lr lc bj L b tr =
  (do v <- spec_sub_mul bT (at_ bT b I) (entry LT row L lr lc, at_ bT b bj);
   Ok (<[I := v]> b, tr ++ [PMul; PSub])).
Proof.
  intros Hb HI Hlr Hlc Hbj.
  unfold Qpotrs_s.eliminate, tbind, lift, call, spec_sub_mul.
  rewrite !(get_vector bT) by (assumption || lia).
  rewrite (get_entry LT) by assumption. cbn [rbind fst snd].
  destruct (op_mul _ _) as [p|e]; cbn [rbind fst snd]; [|reflexivity].
  destruct (op_sub _ _) as [v|e]; cbn [rbind fst snd]; [|reflexivity].
  rewrite set_vector by (assumption || lia).
  destruct (Qu_s_from bT v) as [e|e]; cbn [rbind]; [|reflexivity].
  now rewrite <- app_assoc.
Qed.

Lemma scale_eq I b tr :
  length b = row -> (I < row)%nat ->
  Qpotrs_s.scale Repaired bT row row row I L b tr =
  (do v <- (do v <- op_mul (at_ bT b I) (entry LT row L I I); Qu_s_from bT v);
   Ok (<[I := v]> b, tr ++ [PMul])).
Proof.
  intros Hb HI. unfold Qpotrs_s.scale, tbind, lift, call.
  rewrite (get_vector bT) by (assumption || lia).
  rewrite (get_entry LT) by assumption. cbn [rbind fst snd].
  destruct (op_mul _ _) as [v|e]; cbn [rbind fst snd]; [|reflexivity].
  rewrite set_vector by (assumption || lia).
  destruct (Qu_s_from bT v) as [e|e]; cbn [rbind]; reflexivity.
Qed.

(** The inner loop of a row: the terms are read from entries of [b] other
    than [b[I]], which the loop leaves alone. *)
Lemma eliminate_row (js : list nat) (lr lc bj : nat -> nat) I b tr :
  length b = row -> (I < row)%nat ->
  Forall (fun J => (lr J < row)%nat /\ (lc J < row)%nat /\ (bj J < row)%nat /\ bj J <> I) js ->
  tfor_each js (fun J b => Qpotrs_s.eliminate Repaired bT row row row I (lr J) (lc J) (bj J) L b)
            b tr =
  (do v <- spec_row_value bT ((fun J => (entry LT row L (lr J) (lc J), at_ bT b (bj J))) <$> js)
                     (at_ bT b I);
   Ok (<[I := v]> b, tr ++ concat (replicate (length js) [PMul; PSub]))).
Proof.
  intros Hb HI Hjs. revert b tr Hb.
  induction Hjs as [|J js (Hlr & Hlc & Hbj & Hne) Hjs IH]; intros b tr Hb.
  - cbn. rewrite app_nil_r, insert_at_id by lia. reflexivity.
  - cbn [tfor_each fmap list_fmap spec_row_value length replicate concat]. unfold tbind.
    rewrite eliminate_eq by assumption.
    destruct (spec_sub_mul bT _ _) as [v|e]; cbn [rbind fst snd]; [|reflexivity].
    rewrite IH by (now rewrite length_insert).
    rewrite at_insert_eq by lia.
    replace ((fun J0 => (entry LT row L (lr J0) (lc J0), at_ bT (<[I:=v]> b) (bj J0))) <$> js)
      with ((fun J0 => (entry LT row L (lr J0) (lc J0), at_ bT b (bj J0))) <$> js).
    2:{ apply Forall_fmap_ext_1. eapply Forall_impl; [exact Hjs|].
        intros J0 (_ & _ & _ & Hne0). cbn beta. rewrite at_insert_ne by congruence.
        reflexivity. }
    destruct (spec_row_value bT _ v) as [a|e]; cbn [rbind]; [|reflexivity].
    rewrite list_insert_insert_eq, <- app_assoc. reflexivity.
Qed.

Lemma row_then_scale (terms : list (Qu * Qu)) I b tr n :
  length b = row -> (I < row)%nat ->
  (do r <- (do v <- spec_row_value bT terms (at_ bT b I);
            Ok (<[I := v]> b, tr ++ concat (replicate n [PMul; PSub])));
   Qpotrs_s.scale Repaired bT row row row I L (fst r) (snd r)) =
  (do v <- spec_row_scaled bT terms (at_ bT b I) (entry LT row L I I);
   Ok (<[I := v]> b, tr ++ spec_ops_row n)).
Proof.
  intros Hb HI. unfold spec_row_scaled.
  destruct (spec_row_value bT terms (at_ bT b I)) as [a|e]; cbn [rbind fst snd]; [|reflexivity].
  rewrite scale_eq by (rewrite ?length_insert; assumption).
  rewrite at_insert_eq by lia.
  destruct (op_mul a _) as [v|e]; cbn [rbind]; [|reflexivity].
  destruct (Qu_s_from bT v) as [e|e]; cbn [rbind]; [|reflexivity].
  unfold spec_ops_row. rewrite list_insert_insert_eq, <- app_assoc. reflexivity.
Qed.

Lemma execute_forward_eq I b tr :
  length b = row -> (I < row)%nat ->
  Qpotrs_s.execute_forward Repaired bT row row row I L b tr =
  (do x <- spec_forward_row LT bT row L I b; Ok (x, tr ++ spec_ops_row I)).
Proof.
  intros Hb HI. unfold Qpotrs_s.execute_forward, tbind.
  rewrite (eliminate_row (seq 0 I) (fun _ => I) (fun J => J) (fun J => J)) by
    (try assumption; apply Forall_forall; intros J HJ; apply elem_of_seq in HJ; lia).
  rewrite length_seq, row_then_scale by assumption. unfold spec_forward_row.
  destruct (spec_row_scaled _ _ _ _); reflexivity.
Qed.

Lemma execute_backward_eq I b tr :
  length b = row -> (I < row)%nat ->
  Qpotrs_s.execute_backward Repaired bT row row row I (row - S I) L b tr =
  (do x <- spec_backward_row LT bT row L I b; Ok (x, tr ++ spec_ops_row (row - S I))).
Proof.
  intros Hb HI. unfold Qpotrs_s.execute_backward, tbind.
  rewrite (eliminate_row (seq 0 (row - S I)) (fun J => (J + I + 1)%nat) (fun _ => I)
             (fun J => (J + I + 1)%nat)) by
    (try assumption; apply Forall_forall; intros J HJ; apply elem_of_seq in HJ; lia).
  rewrite length_seq, row_then_scale by assumption. unfold spec_backward_row.
  replace (seq (S I) (row - S I)) with (Nat.add (S I) <$> seq 0 (row - S I))
    by (rewrite fmap_add_seq; f_equal; lia).
  rewrite <- list_fmap_compose.
  replace ((fun J => (entry LT row L (J + I + 1) I, at_ bT b (J + I + 1))) <$> seq 0 (row - S I))
    with (((fun j => (entry LT row L j I, at_ bT b j)) ∘ Nat.add (S I)) <$> seq 0 (row - S I)).
  2:{ apply Forall_fmap_ext_1, Forall_forall. intros J _. cbn.
      replace (J + I + 1)%nat with (S (I + J)) by lia. reflexivity. }
  destruct (spec_row_scaled _ _ _ _); reflexivity.
Qed.

Lemma spec_forward_row_length I b x : spec_forward_row LT bT row L I b = Ok x -> length x = length b.
Proof.
  unfold spec_forward_row. destruct (spec_row_scaled _ _ _ _); cbn; [|discriminate].
  intros [= <-]. apply length_insert.
Qed.

Lemma spec_backward_row_length I b x : spec_backward_row LT bT row L I b = Ok x -> length x = length b.
Proof.
  unfold spec_backward_row. destruct (spec_row_scaled _ _ _ _); cbn; [|discriminate].
  intros [= <-]. apply length_insert.
Qed.

Lemma for_each_length (l : list nat) (body : nat -> list Qu -> result (list Qu)) b x :
  (forall i b x, body i b = Ok x -> length x = length b) ->
  for_each l body b = Ok x -> length x = length b.
Proof.
  intros Hb. revert b. induction l as [|i l IH]; intros b; cbn; [now intros [= <-]|].
  destruct (body i b) as [b1|e] eqn:E; cbn; [|discriminate].
  intros H. rewrite (IH _ H). eauto.
Qed.

(** [Qpotrs], on the repaired header, is the reference solve; the
    primitives it calls depend on the size only. *)
Lemma Qpotrs_refines b tr :
  length b = row ->
  Qpotrs Repaired bT row row row L b tr =
  (do x <- spec_potrs LT bT row L b; Ok (x, tr ++ spec_potrs_ops row)).
Proof.
  intros Hb. unfold Qpotrs, Qpotrs_s.execute, tbind, lift, static_assert.
  rewrite Nat.eqb_refl. cbn [rbind fst snd].
  unfold Qpotrs_s.execute_loop, tbind, spec_potrs, spec_potrs_ops.
  rewrite (tfor_each_refines (fun b => length b = row) (seq 0 row) _
             (spec_forward_row LT bT row L) spec_ops_row); [|exact Hb| |].
  2:{ intros I b0 tr0 HI Hb0. apply elem_of_seq in HI. apply execute_forward_eq; [exact Hb0|lia]. }
  2:{ intros I b0 x _ Hb0 E. rewrite (spec_forward_row_length _ _ _ E). exact Hb0. }
  destruct (for_each (seq 0 row) (spec_forward_row LT bT row L) b) as [b1|e] eqn:E1;
    cbn [rbind fst snd]; [|reflexivity].
  assert (Hb1 : length b1 = row).
  { rewrite (for_each_length _ _ _ _ (spec_forward_row_length) E1). exact Hb. }
  rewrite (tfor_each_refines (fun b => length b = row) (seq 0 row) _
             (fun k b => spec_backward_row LT bT row L (row - 1 - k) b) spec_ops_row); [|exact Hb1| |].
  2:{ intros I b0 tr0 HI Hb0. apply elem_of_seq in HI.
      pose proof (execute_backward_eq (row - 1 - I) b0 tr0 Hb0 ltac:(lia)) as E.
      replace (row - S (row - 1 - I))%nat with I in E by lia. exact E. }
  2:{ intros I b0 x _ Hb0 E. rewrite (spec_backward_row_length _ _ _ E). exact Hb0. }
  destruct (for_each (seq 0 row) _ b1); cbn [rbind]; [|reflexivity].
  now rewrite app_assoc.
Qed.
End Substitution.

Lemma spec_ops_row_mul_or_sub n : Forall mul_or_sub (spec_ops_row n).
Proof.
  unfold spec_ops_row. apply Forall_app. split; [|repeat constructor; now left].
  induction n as [|n IH]; cbn; [constructor|].
  constructor; [now left|]. constructor; [now right|exact IH].
Qed.

Lemma spec_potrs_ops_mul_or_sub row : Forall mul_or_sub (spec_potrs_ops row).
Proof.
  assert (H : Forall mul_or_sub (flat_map spec_ops_row (seq 0 row))).
  { induction (seq 0 row) as [|i l IH]; cbn; [constructor|].
    apply Forall_app. split; [apply spec_ops_row_mul_or_sub|exact IH]. }
  unfold spec_potrs_ops. apply Forall_app. now split.
Qed.

(** On elements of one type [T] no step of the reference solve fails. *)
Section SubstitutionTotal.
Variables (T : QuType) (row : nat) (L : list Qu).
Hypothesis HT : elemT_ok T.
Hypothesis HL : Forall (typed T) L.

Lemma spec_sub_mul_typed acc l x :
  typed T acc -> typed T l -> typed T x ->
  exists v, spec_sub_mul T acc (l, x) = Ok v /\ typed T v.
Proof.
  intros Ha Hl Hx. unfold spec_sub_mul. cbn [fst snd].
  destruct (op_mul_typed T l x HT Hl Hx) as (p & -> & Hp). cbn [rbind].
  destruct (op_sub_typed T acc p HT Ha Hp) as (v & -> & Hv). cbn [rbind].
  exists v. split; [apply Qu_s_from_typed; [apply HT|exact Hv]|exact Hv].
Qed.

Lemma spec_row_value_typed terms acc :
  Forall (fun lx => typed T lx.1 /\ typed T lx.2) terms -> typed T acc ->
  exists v, spec_row_value T terms acc = Ok v /\ typed T v.
Proof.
  intros Hterms. revert acc. induction Hterms as [|[l x] terms [Hl Hx] _ IH]; intros acc Ha.
  - exists acc. now split.
  - cbn [spec_row_value]. destruct (spec_sub_mul_typed acc l x Ha Hl Hx) as (a & -> & Ha').
    cbn [rbind]. apply IH, Ha'.
Qed.

Lemma spec_row_scaled_typed terms acc d :
  Forall (fun lx => typed T lx.1 /\ typed T lx.2) terms -> typed T acc -> typed T d ->
  exists v, spec_row_scaled T terms acc d = Ok v /\ typed T v.
Proof.
  intros Hterms Ha Hd. unfold spec_row_scaled.
  destruct (spec_row_value_typed terms acc Hterms Ha) as (a & -> & Ha'). cbn [rbind].
  destruct (op_mul_typed T a d HT Ha' Hd) as (v & -> & Hv). cbn [rbind].
  exists v. split; [apply Qu_s_from_typed; [apply HT|exact Hv]|exact Hv].
Qed.

Lemma terms_typed (f : nat -> Qu * Qu) (l : list nat) :
  (forall j, typed T (f j).1 /\ typed T (f j).2) ->
  Forall (fun lx => typed T lx.1 /\ typed T lx.2) (f <$> l).
Proof. intros Hf. apply Forall_fmap, Forall_forall. intros j _. apply Hf. Qed.

Lemma spec_potrs_total b :
  vector_inv T row b -> exists x, spec_potrs T T row L b = Ok x /\ vector_inv T row x.
Proof.
  intros Hb. unfold spec_potrs.
  assert (Hrow_ok : forall (F : nat -> list Qu -> result (list Qu)),
             (forall i b, vector_inv T row b ->
                exists x, F i b = Ok x /\ vector_inv T row x) ->
             forall b, vector_inv T row b ->
               exists x, for_each (seq 0 row) F b = Ok x /\ vector_inv T row x).
  { intros F HF b0 Hb0. apply (for_each_total (vector_inv T row)); [exact Hb0|].
    intros i s _ Hs. apply HF, Hs. }
  destruct (Hrow_ok (spec_forward_row T T row L)) with (b := b) as (b1 & -> & Hb1); [|exact Hb|].
  { intros i b0 [Hl0 Ht0]. unfold spec_forward_row.
    destruct (spec_row_scaled_typed
                ((fun j => (entry T row L i j, at_ T b0 j)) <$> seq 0 i)
                (at_ T b0 i) (entry T row L i i)) as (v & -> & Hv).
    - apply terms_typed. intros j. split; [now apply entry_typed|now apply at_typed].
    - now apply at_typed.
    - now apply entry_typed.
    - eexists. split; [reflexivity|].
      split; [now rewrite length_insert|now apply Forall_insert]. }
  cbn [rbind]. apply Hrow_ok; [|exact Hb1].
  intros i b0 [Hl0 Ht0]. unfold spec_backward_row.
  destruct (spec_row_scaled_typed
              ((fun j => (entry T row L j (row - 1 - i), at_ T b0 j))
                 <$> seq (S (row - 1 - i)) (row - S (row - 1 - i)))
              (at_ T b0 (row - 1 - i)) (entry T row L (row - 1 - i) (row - 1 - i)))
    as (v & -> & Hv).
  - apply terms_typed. intros j. split; [now apply entry_typed|now apply at_typed].
  - now apply at_typed.
  - now apply entry_typed.
  - eexists. split; [reflexivity|].
    split; [now rewrite length_insert|now apply Forall_insert].
Qed.
End SubstitutionTotal.
(** ** The Cholesky pair (C1, C8) *)

(** As shipped, the first column already names an element through [get]. *)
Lemma Qpotrf_Shipped func T (n : nat) (A : list Qu) :
  Qpotrf Shipped func T (S n) (S n) A = Err CompileError.
Proof.
  unfold Qpotrf, Qpotrf_s.execute, static_assert. rewrite Nat.eqb_refl. reflexivity.
Qed.

Lemma Qpotrs_Shipped bT (n : nat) (L b : list Qu) (tr : list Prim) :
  Qpotrs Shipped bT (S n) (S n) (S n) L b tr = Err CompileError.
Proof.
  unfold Qpotrs, Qpotrs_s.execute, static_assert, tbind, lift.
  rewrite Nat.eqb_refl. reflexivity.
Qed.

(** The run of all the columns, cut at column [J]. *)
Lemma loop_split {S : Type} (body : nat -> S -> result S) (row J : nat) (A : S) :
  (J < row)%nat ->
  for_each (seq 0 row) body A =
  (do B <- for_each (seq 0 J) body A;
   do B' <- body J B;
   for_each (seq (Datatypes.S J) (row - Datatypes.S J)) body B').
Proof.
  intros HJ. replace row with (J + Datatypes.S (row - Datatypes.S J))%nat at 1 by lia.
  rewrite seq_app, for_each_app. cbn [seq Nat.add].
  destruct (for_each (seq 0 J) body A); reflexivity.
Qed.

(** C1: with the accessor [get] as shipped, no instance of [Qpotrf] on a
    matrix with a row compiles.  With the accessor repaired, on the 2x2
    matrix [[0, 1], [1, 1]] of format (8, 8) the pivot of column 0 is 0,
    not positive; [loop_inner<0>] returns with the matrix as it was, and
    [Qpotrf] nevertheless goes on to column 1, whose update
    [A[1,1] -= A[1,0] * A[1,0]] changes [A[1,1]] from raw 256 to raw 0.
    (The claim has [Qpotrf] return at column 0 with the later columns as
    they were.) *)
Theorem C1_Qpotrf_goes_on_after_nonpositive_pivot (rsqrtFunc : Q -> Q) :
  let T := mkQuType 8 8 true TRN.TCPL SAT.TCPL in
  let A := [mkQu false T 0; mkQu false T 256; mkQu false T 256; mkQu false T 256] in
  (forall (n : nat) (B : list Qu),
     Qpotrf Shipped rsqrtFunc T (S n) (S n) B = Err CompileError) /\
  Qpotrf_s.loop_sec1_outer Repaired T 2 2 0 A = Ok A /\
  data (entry T 2 A 0 0) <= 0 /\
  Qpotrf_s.loop_inner Repaired rsqrtFunc T 2 2 0 A = Ok A /\
  entry T 2 A 1 1 = mkQu false T 256 /\
  Qpotrf Repaired rsqrtFunc T 2 2 A =
    Ok [mkQu false T 0; mkQu false T 256; mkQu false T 256; mkQu false T 0].
Proof.
  cbv zeta. split; [intros n B; apply Qpotrf_Shipped|].
  split; [reflexivity|]. split; [vm_compute; discriminate|].
  split; [reflexivity|]. split; reflexivity.
Qed.


(** ** Full-precision addition is exact *)

Lemma fracConvert_same F m v :
  0 <= m <= 6 -> - 2 ^ 63 <= v < 2 ^ 63 -> fracConvert F F m v = Ok v.
Proof.
  intros Hm Hv.
  assert (Hs : shl64 v (F - F) = v).
  { rewrite Z.sub_diag. unfold shl64. rewrite Z.shiftl_0_r. now apply cast_ll_small. }
  assert (Hc : m = 0 \/ m = 1 \/ m = 2 \/ m = 3 \/ m = 4 \/ m = 5 \/ m = 6) by lia.
  destruct Hc as [->|[->|[->|[->|[->|[->| ->]]]]]]; cbn -[Z.sub]; frac_guards;
    unfold fracConvert_POS_INF, fracConvert_NEG_INF, fracConvert_ZERO, fracConvert_INF,
      fracConvert_CONV, fracConvert_TCPL, fracConvert_SMGN, shiftRightDynamic;
    rewrite ?Z.leb_refl, ?Z.ltb_irrefl, ?Hs; try reflexivity.
  - rewrite Z.sub_diag. cbn. now rewrite Z.shiftr_0_r.
  - rewrite Z.sub_diag, !Z.shiftr_0_r. destruct (0 <=? v); f_equal; lia.
Qed.

Lemma int_maxVal_small i f :
  0 <= i + f <= 62 -> int_maxVal i f = 2 ^ (i + f) - 1.
Proof.
  intros H. unfold int_maxVal, cast_ull, cast_ll.
  rewrite Z.shiftl_1_l.
  assert (Hp : 0 < 2 ^ (i + f) <= 2 ^ 62).
  { split; [apply Z.pow_pos_nonneg; lia|apply Z.pow_le_mono_r; lia]. }
  change (2 ^ 62) with 4611686018427387904 in Hp.
  change (2 ^ 64) with 18446744073709551616. change (2 ^ 63) with 9223372036854775808.
  rewrite (Z.mod_small (2 ^ (i + f))) by lia.
  rewrite (Z.mod_small (2 ^ (i + f) - 1)) by lia.
  rewrite Z.mod_small by lia. lia.
Qed.

Lemma cast_ull_pow2 n : 0 <= n <= 63 -> cast_ull (Z.shiftl 1 n) = 2 ^ n.
Proof.
  intros Hn. unfold cast_ull. rewrite Z.shiftl_1_l.
  apply Z.mod_small. split; [apply Z.pow_nonneg; lia|apply Z.pow_lt_mono_r; lia].
Qed.

Lemma wrap_mask n : 0 <= n <= 63 -> cast_ull (cast_ull (Z.shiftl 1 n) - 1) = Z.ones n.
Proof.
  intros Hn. rewrite cast_ull_pow2 by lia. unfold cast_ull.
  assert (0 < 2 ^ n <= 2 ^ 63).
  { split; [apply Z.pow_pos_nonneg; lia|apply Z.pow_le_mono_r; lia]. }
  change (2 ^ 63) with 9223372036854775808 in H.
  change (2 ^ 64) with 18446744073709551616.
  rewrite Z.mod_small by lia. rewrite Z.ones_equiv. lia.
Qed.

Lemma land_cast_ull_ones v n :
  0 <= n <= 64 -> Z.land (cast_ull v) (Z.ones n) = v mod 2 ^ n.
Proof.
  intros Hn. rewrite Z.land_ones by lia. unfold cast_ull.
  replace (2 ^ 64) with (2 ^ n * 2 ^ (64 - n)).
  2:{ rewrite <- Z.pow_add_r by lia. f_equal. lia. }
  rewrite Z.rem_mul_r.
  2:{ apply Z.pow_nonzero; lia. }
  2:{ apply Z.pow_pos_nonneg; lia. }
  rewrite Z.mul_comm, Z.mod_add; [apply Z.mod_mod|]; apply Z.pow_nonzero; lia.
Qed.

Lemma intConvert_WRP_in_range i f (s : bool) v :
  0 <= i + f <= 31 ->
  (if s then - 2 ^ (i + f) else 0) <= v <= 2 ^ (i + f) - 1 ->
  intConvert_WRP_TCPL i f s v = v.
Proof.
  intros Hw Hv. set (n := i + f) in *.
  assert (Hp : 0 < 2 ^ n <= 2 ^ 31).
  { split; [apply Z.pow_pos_nonneg; lia|apply Z.pow_le_mono_r; lia]. }
  change (2 ^ 31) with 2147483648 in Hp.
  unfold intConvert_WRP_TCPL. fold n. destruct s.
  - rewrite wrap_mask by lia. rewrite land_cast_ull_ones by lia.
    assert (Hpp : 2 ^ (n + 1) = 2 * 2 ^ n) by (rewrite Z.pow_add_r by lia; lia).
    destruct (Z.lt_ge_cases v 0) as [Hneg|Hpos].
    + assert (Hm : v mod 2 ^ (n + 1) = v + 2 ^ (n + 1)).
      { symmetry. apply (Z.mod_unique _ _ (-1)); lia. }
      rewrite Hm. rewrite Z.shiftr_div_pow2 by lia.
      assert (Hd : (v + 2 ^ (n + 1)) / 2 ^ n = 1).
      { symmetry. apply (Z.div_unique _ _ _ (v + 2 ^ n)); lia. }
      rewrite Hd. cbn [Z.eqb negb].
      assert (Hl : cast_ull (Z.lnot (Z.ones (n + 1))) = 2 ^ 64 - 2 ^ (n + 1)).
      { unfold cast_ull. rewrite Z.ones_equiv. unfold Z.lnot.
        symmetry. apply (Z.mod_unique _ _ (-1)).
        - change (2 ^ 64) with 18446744073709551616. lia.
        - lia. }
      rewrite Hl.
      rewrite <- Z.add_nocarry_lor.
      * unfold cast_int. replace (v + 2 ^ (n + 1) + (2 ^ 64 - 2 ^ (n + 1)) + 2 ^ 31)
          with (v + 2 ^ 31 + 2 ^ 32 * 2 ^ 32) by (change (2 ^ 64) with (2 ^ 32 * 2 ^ 32); lia).
        rewrite Z.mod_add by lia. rewrite Z.mod_small; change (2 ^ 32) with 4294967296;
          change (2 ^ 31) with 2147483648; lia.
      * apply Z.bits_inj'. intros k Hk. rewrite Z.land_spec, Z.bits_0.
        destruct (Z.lt_ge_cases k (n + 1)) as [Hlt|Hge].
        -- replace (2 ^ 64 - 2 ^ (n + 1)) with (Z.shiftl (2 ^ (63 - n) - 1) (n + 1)).
           2:{ rewrite Z.shiftl_mul_pow2 by lia. rewrite Z.mul_sub_distr_r.
               rewrite <- Z.pow_add_r by lia. replace (63 - n + (n + 1)) with 64 by lia. lia. }
           rewrite Z.shiftl_spec_low by lia. apply andb_false_r.
        -- rewrite (Z.bits_above_log2 (v + 2 ^ (n + 1)) k); [reflexivity|lia|].
           apply Z.log2_lt_pow2; [lia|].
           apply Z.lt_le_trans with (2 ^ (n + 1)); [lia|apply Z.pow_le_mono_r; lia].
    + rewrite Z.mod_small by lia. rewrite Z.shiftr_div_pow2 by lia.
      rewrite Z.div_small by lia. cbn [Z.eqb negb].
      apply cast_int_small. change (2 ^ 31) with 2147483648. lia.
  - rewrite wrap_mask by lia. rewrite land_cast_ull_ones by lia.
    rewrite Z.mod_small by lia. apply cast_int_small. change (2 ^ 31) with 2147483648. lia.
Qed.

Lemma intConvert_in_range i f (s : bool) m v :
  0 <= i + f <= 31 ->
  0 <= m <= 3 ->
  low_bound s (i + f) m <= v <= 2 ^ (i + f) - 1 ->
  intConvert i f s m v = Ok v.
Proof.
  intros Hw Hm Hv.
  assert (Hp : 0 < 2 ^ (i + f) <= 2 ^ 31).
  { split; [apply Z.pow_pos_nonneg; lia|apply Z.pow_le_mono_r; lia]. }
  change (2 ^ 31) with 2147483648 in Hp.
  assert (Hmax : int_maxVal i f = 2 ^ (i + f) - 1) by (apply int_maxVal_small; lia).
  assert (Hc : m = 0 \/ m = 1 \/ m = 2 \/ m = 3) by lia.
  destruct Hc as [->|[->|[->| ->]]]; unfold low_bound in Hv; cbn in Hv |- *.
  - assert (Hci : cast_int v = v).
    { apply cast_int_small. change (2 ^ 31) with 2147483648. destruct s; lia. }
    unfold intConvert_SAT_TCPL. fold (int_maxVal i f). rewrite Hmax.
    rewrite Z.max_l by (destruct s; lia). rewrite Z.min_l by lia. now rewrite Hci.
  - assert (Hci : cast_int v = v).
    { apply cast_int_small. change (2 ^ 31) with 2147483648. destruct s; lia. }
    unfold intConvert_SAT_ZERO. fold (int_maxVal i f). rewrite Hmax.
    destruct (Z.ltb_spec (2 ^ (i + f) - 1) v); [lia|].
    destruct (Z.ltb_spec v (if s then - (2 ^ (i + f) - 1) - 1 else 0)).
    + destruct s; lia.
    + cbn. now rewrite Hci.
  - assert (Hci : cast_int v = v).
    { apply cast_int_small. change (2 ^ 31) with 2147483648. destruct s; lia. }
    unfold intConvert_SAT_SMGN. fold (int_maxVal i f). rewrite Hmax.
    rewrite Z.max_l by (destruct s; lia). rewrite Z.min_l by lia. now rewrite Hci.
  - f_equal. apply intConvert_WRP_in_range; [exact Hw|]. destruct s; lia.
Qed.

Lemma scale_bounds d a k c :
  0 <= a -> 0 <= k -> 0 <= c -> - 2 ^ a + c <= d <= 2 ^ a - 1 ->
  - 2 ^ (a + k) + c <= d * 2 ^ k <= 2 ^ (a + k) - 1.
Proof.
  intros Ha Hk Hc Hd. rewrite Z.pow_add_r by lia.
  assert (0 < 2 ^ k) by (apply Z.pow_pos_nonneg; lia).
  assert (0 < 2 ^ a) by (apply Z.pow_pos_nonneg; lia). nia.
Qed.

Lemma scale_bounds_nonneg d a k c :
  0 <= a -> 0 <= k -> 0 <= c -> c <= d <= 2 ^ a - 1 ->
  c <= d * 2 ^ k <= 2 ^ (a + k) - 1.
Proof.
  intros Ha Hk Hc Hd. rewrite Z.pow_add_r by lia.
  assert (0 < 2 ^ k) by (apply Z.pow_pos_nonneg; lia).
  assert (0 < 2 ^ a) by (apply Z.pow_pos_nonneg; lia). nia.
Qed.

(** The raw data of an operand, aligned to a fractional width [Fr] and seen
    in a format of [N] bits. *)
Lemma aligned_bounds F N Fr q :
  exact_operand F q ->
  fracB (type q) <= Fr -> intB (type q) + Fr <= N ->
  low_bound (isS (type q)) N (OfM (type q))
    <= data q * 2 ^ (Fr - fracB (type q)) <= 2 ^ N - 1.
Proof.
  intros (_ & Hi & Hf & _ & _ & Hr) HFr HN. unfold in_range, low_bound in *.
  set (a := intB (type q) + fracB (type q)) in *.
  set (k := Fr - fracB (type q)).
  set (c := if OfM (type q) =? SAT.SMGN then 1 else 0) in *.
  assert (Hc : 0 <= c) by (unfold c; destruct (_ =? _); lia).
  assert (Hle : 2 ^ (a + k) <= 2 ^ N) by (apply Z.pow_le_mono_r; unfold a, k; lia).
  destruct Hr as [Hlo Hhi]. destruct (isS (type q)).
  - pose proof (scale_bounds (data q) a k c ltac:(lia) ltac:(unfold k; lia) Hc
                  ltac:(lia)). lia.
  - pose proof (scale_bounds_nonneg (data q) a k c ltac:(lia) ltac:(unfold k; lia) Hc
                  ltac:(lia)). lia.
Qed.

(** A full-precision sum of two operands is rejected when its format has
    more than 31 bits, and is exact otherwise. *)
Lemma Qadd_FullPrec_exact F x y :
  exact_operand F x -> exact_operand F y ->
  Qadd [ArgTag FullPrec] x y = Err CompileError \/
  exists r, Qadd [ArgTag FullPrec] x y = Ok r /\
            exact_operand F r /\
            aligned F r = aligned F x + aligned F y.
Proof.
  intros Hx Hy.
  pose proof Hx as (Hdx & Hix & Hfx & Hqx & Hox & Hrx).
  pose proof Hy as (Hdy & Hiy & Hfy & Hqy & Hoy & Hry).
  unfold Qadd. rewrite Hdx, Hdy. cbn [orb]. unfold Qadd_s.add.
  change (MergerArgsWrapper [ArgTag FullPrec]) with [FullPrec].
  set (m := AddMerger (type x) (type y) [FullPrec]).
  destruct (Qu_s_assert (mergedType m)) eqn:Hassert;
    unfold static_assert at 1; cbn [rbind]; [right | now left].
  set (Fr := Z.max (fracB (type x)) (fracB (type y))).
  set (N := Z.max (intB (type x)) (intB (type y)) + Fr).
  assert (Hti : toInt m = Z.max (intB (type x)) (intB (type y)) + 1) by reflexivity.
  assert (Htf : toFrac m = Fr) by reflexivity.
  assert (Hts : toIsSigned m = isS (type x) || isS (type y)) by reflexivity.
  assert (HN : 0 <= N <= 30).
  { unfold Qu_s_assert, mergedType in Hassert. cbn [intB fracB] in Hassert.
    rewrite Hti, Htf in Hassert. apply andb_prop in Hassert as [_ H2].
    apply Z.leb_le in H2. unfold N, Fr in *. lia. }
  assert (Hp : 0 < 2 ^ N <= 2 ^ 30).
  { split; [apply Z.pow_pos_nonneg; lia|apply Z.pow_le_mono_r; lia]. }
  change (2 ^ 30) with 1073741824 in Hp.
  assert (Hpp : 2 ^ (N + 1) = 2 * 2 ^ N) by (rewrite Z.pow_add_r by lia; lia).
  pose proof (aligned_bounds F N Fr x Hx ltac:(unfold Fr; lia) ltac:(unfold N; lia)) as Hax.
  pose proof (aligned_bounds F N Fr y Hy ltac:(unfold Fr; lia) ltac:(unfold N; lia)) as Hay.
  set (ax := data x * 2 ^ (Fr - fracB (type x))) in *.
  set (ay := data y * 2 ^ (Fr - fracB (type y))) in *.
  assert (Hax' : - 2 ^ N <= ax <= 2 ^ N - 1).
  { unfold low_bound in Hax. destruct (isS (type x)), (OfM (type x) =? SAT.SMGN); lia. }
  assert (Hay' : - 2 ^ N <= ay <= 2 ^ N - 1).
  { unfold low_bound in Hay. destruct (isS (type y)), (OfM (type y) =? SAT.SMGN); lia. }
  assert (Htq : 0 <= toQuMode m <= 6).
  { change (toQuMode m) with (fromMode (QuM (type x)) (QuM (type y)) defaultQuMode).
    unfold fromMode, defaultQuMode, TRN.TCPL. destruct (_ =? _); lia. }
  assert (Hto : 0 <= toOfMode m <= 3).
  { change (toOfMode m) with (fromMode (OfM (type x)) (OfM (type y)) defaultOfMode).
    unfold fromMode, defaultOfMode, SAT.TCPL. destruct (_ =? _); lia. }
  assert (HsA : shiftA_of (fracB (type x)) (fracB (type y)) = Fr - fracB (type x)).
  { unfold shiftA_of, Fr. destruct (Z.ltb_spec (fracB (type x)) (fracB (type y))); lia. }
  assert (HsB : shiftB_of (fracB (type x)) (fracB (type y)) = Fr - fracB (type y)).
  { unfold shiftB_of, Fr. destruct (Z.ltb_spec (fracB (type y)) (fracB (type x))); lia. }
  rewrite HsA, HsB.
  rewrite (shl32_exact (data x)), (shl32_exact (data y));
    [| unfold Fr; lia | fold ay; change (2 ^ 31) with 2147483648; lia
     | unfold Fr; lia | fold ax; change (2 ^ 31) with 2147483648; lia].
  fold ax ay.
  rewrite !cast_ll_small by (change (2 ^ 63) with 9223372036854775808; lia).
  rewrite Htf. rewrite fracConvert_same;
    [| exact Htq | change (2 ^ 63) with 9223372036854775808; lia].
  cbn [rbind]. rewrite Hti, Hts.
  assert (Hsum : low_bound (isS (type x) || isS (type y)) (N + 1) (toOfMode m) <= ax + ay
                 <= 2 ^ (N + 1) - 1).
  { change (toOfMode m) with (fromMode (OfM (type x)) (OfM (type y)) defaultOfMode).
    unfold low_bound, fromMode, defaultOfMode, SAT.TCPL, SAT.SMGN in *.
    destruct (Z.eqb_spec (OfM (type x)) (OfM (type y))) as [E|E];
      [rewrite <- E in Hay|];
      destruct (isS (type x)), (isS (type y)),
        (Z.eqb_spec (OfM (type x)) 2), (Z.eqb_spec (OfM (type y)) 2);
      cbn [orb Z.eqb]; lia. }
  rewrite intConvert_in_range; [| unfold N in HN; lia | exact Hto | ].
  2:{ replace (Z.max (intB (type x)) (intB (type y)) + 1 + Fr) with (N + 1)
        by (unfold N; lia). exact Hsum. }
  cbn [rbind]. unfold Qu_s, static_assert. rewrite Hassert. cbn [rbind].
  rewrite cast_int_small by (change (2 ^ 31) with 2147483648; lia).
  eexists. split; [reflexivity|]. split.
  - unfold exact_operand, in_range, mergedType. cbn [dynamic type data intB fracB isS QuM OfM].
    rewrite Hti, Htf, Hts.
    replace (Z.max (intB (type x)) (intB (type y)) + 1 + Fr) with (N + 1)
      by (unfold N; lia).
    split; [reflexivity|]. split; [lia|]. split; [unfold Fr; lia|].
    split; [exact Htq|]. split; [exact Hto|]. exact Hsum.
  - unfold aligned at 1. cbn [data type fracB mergedType]. rewrite Htf.
    unfold aligned, ax, ay. rewrite Z.mul_add_distr_r, <- !Z.mul_assoc, <- !Z.pow_add_r
      by (unfold Fr; lia).
    f_equal; f_equal; f_equal; lia.
Qed.

Lemma map_result_app {A B : Type} (f : A -> result B) (l1 l2 : list A) :
  map_result f (l1 ++ l2) =
  (do a <- map_result f l1; do b <- map_result f l2; Ok (a ++ b)).
Proof.
  induction l1 as [|x l1 IH]; cbn.
  - destruct (map_result f l2); reflexivity.
  - destruct (f x); cbn; [|reflexivity]. rewrite IH.
    destruct (map_result f l1); cbn; [|reflexivity].
    destruct (map_result f l2); reflexivity.
Qed.

Lemma sum_aligned_app F l1 l2 :
  sum_aligned F (l1 ++ l2) = sum_aligned F l1 + sum_aligned F l2.
Proof.
  unfold sum_aligned. induction l1 as [|x l1 IH]; cbn; [reflexivity|]. rewrite IH. lia.
Qed.

Lemma ReducerTypeSelector_FullPrec k layer :
  Reducer.ReducerTypeSelector (replicate (S k) (ArgTag FullPrec)) layer = ArgTag FullPrec.
Proof.
  unfold Reducer.ReducerTypeSelector. cbn [replicate].
  change (ArgTag FullPrec :: replicate k (ArgTag FullPrec))
    with (replicate (S k) (ArgTag FullPrec)).
  rewrite nth_lookup, length_replicate.
  rewrite lookup_replicate_2; [reflexivity|].
  destruct (Nat.leb_spec (S k) layer); lia.
Qed.

(** A dynamic full-precision sum whose format is not capped is the static
    sum. *)
Lemma add_dynamic_FullPrec x y r0 :
  0 <= QuM (type x) <= 6 -> 0 <= QuM (type y) <= 6 ->
  0 <= OfM (type x) <= 3 -> 0 <= OfM (type y) <= 3 ->
  Qadd_s.add [FullPrec] (as_static x) (as_static y) = Ok r0 ->
  Qadd_s.add_dynamic [FullPrec] x y = Ok (mkQu true (type r0) (data r0)).
Proof.
  intros Hqx Hqy Hox Hoy. unfold Qadd_s.add, Qadd_s.add_dynamic. cbn [as_static type data].
  change (dynMerger false (type x) (type y) [FullPrec])
    with (AddMerger (type x) (type y) [FullPrec]).
  set (m := AddMerger (type x) (type y) [FullPrec]).
  destruct (Qu_s_assert (mergedType m)) eqn:Ha; unfold static_assert at 1; cbn [rbind];
    [|discriminate].
  assert (Hres : resType m = mergedType m).
  { unfold Qu_s_assert, mergedType in Ha. cbn [intB fracB] in Ha.
    apply andb_prop in Ha as [_ H2]. apply Z.leb_le in H2.
    unfold resType, mergedType, toIntFinal, toFracFinal.
    destruct (Z.ltb_spec 31 (toInt m + toFrac m)); [lia|].
    destruct (Z.ltb_spec 31 (toFrac m + toInt m)); [lia|]. reflexivity. }
  rewrite Hres. cbn [mergedType fracB intB].
  assert (Htq : 0 <= toQuMode m <= 6).
  { change (toQuMode m) with (fromMode (QuM (type x)) (QuM (type y)) defaultQuMode).
    unfold fromMode, defaultQuMode, TRN.TCPL. destruct (_ =? _); lia. }
  assert (Hto : 0 <= toOfMode m <= 3).
  { change (toOfMode m) with (fromMode (OfM (type x)) (OfM (type y)) defaultOfMode).
    unfold fromMode, defaultOfMode, SAT.TCPL. destruct (_ =? _); lia. }
  rewrite fracConvertDynamic_static
    by (try exact Htq; change (toFrac m) with (Z.max (fracB (type x)) (fracB (type y))); lia).
  destruct (fracConvert _ _ _ _) as [fs|e]; cbn [rbind]; [|discriminate].
  rewrite intConvertDynamic_static by exact Hto.
  destruct (intConvert _ _ _ _ fs) as [d|e] eqn:Ei; cbn [rbind]; [|discriminate].
  unfold Qu_s, static_assert. rewrite Ha. cbn [rbind]. intros [= <-]. cbn [type data].
  now rewrite (intConvert_cast _ _ _ _ _ _ Ei).
Qed.

(** A full-precision sum of two operands, static or dynamic, is exact
    unless its format has more than 31 bits, which the compiler rejects on
    static operands. *)
Lemma Qadd_FullPrec_exact_any F x y :
  exact_scalar F x -> exact_scalar F y ->
  Qadd [ArgTag FullPrec] (as_static x) (as_static y) = Err CompileError \/
  exists r, Qadd [ArgTag FullPrec] x y = Ok r /\
            Qadd [ArgTag FullPrec] (as_static x) (as_static y) = Ok (as_static r) /\
            exact_scalar F r /\
            aligned F r = aligned F x + aligned F y.
Proof.
  intros Hx Hy.
  destruct (Qadd_FullPrec_exact F (as_static x) (as_static y) Hx Hy)
    as [E | (r0 & E & Hr0 & Hal)]; [now left | right].
  destruct (dynamic x || dynamic y) eqn:Hd.
  - exists (mkQu true (type r0) (data r0)).
    assert (Hs : as_static (mkQu true (type r0) (data r0)) = r0).
    { destruct Hr0 as (Hdr & _). destruct r0 as [d0 t0 v0]. cbn in Hdr. subst d0.
      reflexivity. }
    rewrite Hs. split; [|split; [exact E|split; [unfold exact_scalar; now rewrite Hs|exact Hal]]].
    unfold Qadd. rewrite Hd. change (MergerArgsWrapper [ArgTag FullPrec]) with [FullPrec].
    destruct Hx as (_ & _ & _ & Hqx & Hox & _), Hy as (_ & _ & _ & Hqy & Hoy & _).
    apply add_dynamic_FullPrec; assumption.
  - apply orb_false_elim in Hd as [Hdx Hdy].
    assert (Ex : as_static x = x) by (destruct x as [d t v]; cbn in Hdx; now subst d).
    assert (Ey : as_static y = y) by (destruct y as [d t v]; cbn in Hdy; now subst d).
    rewrite Ex, Ey in *. exists r0.
    assert (Hs : as_static r0 = r0).
    { destruct Hr0 as (Hdr & _). destruct r0 as [d0 t0 v0]. cbn in Hdr. now subst d0. }
    rewrite Hs. split; [exact E|]. split; [exact E|]. split; [|exact Hal].
    unfold exact_scalar. now rewrite Hs.
Qed.

(** The pair sums of a layer, on the operands and on their static forms. *)
Lemma pair_sums F (quants : list Qu) (m : nat) :
  (2 * m <= length quants)%nat -> Forall (exact_scalar F) quants ->
  let pairadd := fun (qs : list Qu) (I : nat) =>
    do x <- packIndex (I * 2) qs;
    do y <- packIndex (I * 2 + 1) qs;
    Qadd [ArgTag FullPrec] x y in
  map_result (pairadd (as_static <$> quants)) (seq 0 m) = Err CompileError \/
  exists sums, map_result (pairadd quants) (seq 0 m) = Ok sums /\
               map_result (pairadd (as_static <$> quants)) (seq 0 m)
                 = Ok (as_static <$> sums) /\
               length sums = m /\ Forall (exact_scalar F) sums /\
               sum_aligned F sums = sum_aligned F (take (2 * m) quants).
Proof.
  intros Hlen Hq. cbv zeta. induction m as [|m IH].
  - right. exists []. cbn. repeat split. constructor.
  - rewrite seq_S, !map_result_app. cbn [Nat.add].
    destruct IH as [-> | (sums & -> & -> & Hl & Hs & Hsum)]; [lia | now left |].
    cbn [rbind map_result].
    destruct (lookup_lt_is_Some_2 quants (m * 2)) as (x & Hx); [lia|].
    destruct (lookup_lt_is_Some_2 quants (m * 2 + 1)) as (y & Hy); [lia|].
    unfold packIndex. rewrite !list_lookup_fmap, Hx, Hy. cbn [fmap option_fmap option_map rbind].
    assert (Hxe : exact_scalar F x) by exact (Forall_lookup_1 _ _ _ _ Hq Hx).
    assert (Hye : exact_scalar F y) by exact (Forall_lookup_1 _ _ _ _ Hq Hy).
    destruct (Qadd_FullPrec_exact_any F x y Hxe Hye) as [-> | (r & -> & -> & Hr & Hal)].
    + now left.
    + right. cbn [rbind]. exists (sums ++ [r]). split; [reflexivity|].
      split; [now rewrite fmap_app|].
      split; [rewrite length_app; cbn; lia|].
      split; [apply Forall_app; split; [exact Hs|constructor; [exact Hr|constructor]]|].
      replace (2 * S m)%nat with (S (S (2 * m))) by lia.
      rewrite (take_S_r quants (S (2 * m)) y) by (rewrite <- Hy; f_equal; lia).
      rewrite (take_S_r quants (2 * m) x) by (rewrite <- Hx; f_equal; lia).
      rewrite !sum_aligned_app, Hsum. cbn. lia.
Qed.

Lemma reduce_impl_FullPrec_exact (k : nat) (F : Z) (fuel : nat) :
  forall (layer : nat) (quants : list Qu),
    (1 <= length quants <= fuel)%nat -> Forall (exact_scalar F) quants ->
    let Args := replicate (S k) (ArgTag FullPrec) in
    Reducer.reduce_impl Args fuel layer (as_static <$> quants) = Err CompileError \/
    exists r, Reducer.reduce_impl Args fuel layer quants = Ok r /\
              Reducer.reduce_impl Args fuel layer (as_static <$> quants) = Ok (as_static r) /\
              exact_scalar F r /\ aligned F r = sum_aligned F quants.
Proof.
  induction fuel as [|fuel IH]; intros layer quants Hlen Hq Args; [lia|].
  cbn [Reducer.reduce_impl]. rewrite length_fmap.
  destruct (Nat.eqb_spec (length quants) 1) as [H1|H1].
  - destruct quants as [|q [|q' rest]]; cbn in H1; try lia.
    right. exists q. split; [reflexivity|]. split; [reflexivity|]. split.
    + now apply Forall_inv in Hq.
    + cbn. lia.
  - unfold Args. rewrite ReducerTypeSelector_FullPrec.
    set (m := (length quants / 2)%nat).
    assert (Hm : (1 <= m /\ 2 * m <= length quants /\ length quants <= 2 * m + 1)%nat).
    { unfold m. pose proof (Nat.div_mod (length quants) 2 ltac:(lia)).
      pose proof (Nat.mod_upper_bound (length quants) 2 ltac:(lia)). lia. }
    destruct (pair_sums F quants m ltac:(lia) Hq)
      as [-> | (sums & -> & -> & Hl & Hs & Hsum)]; [now left|].
    cbn [rbind].
    destruct (IH (S layer) sums ltac:(lia) Hs) as [E | (res & E & Es & Hres & Hal)].
    { left. fold Args in E |- *. rewrite E. now destruct (Nat.even _). }
    fold Args in E, Es |- *. rewrite E, Es.
    destruct (Nat.even (length quants)) eqn:Ev.
    + right. exists res. split; [reflexivity|]. split; [reflexivity|]. split; [exact Hres|].
      rewrite Hal, Hsum. f_equal. apply take_ge.
      apply Nat.even_spec in Ev as (m' & Hm'). lia.
    + cbn [rbind].
      assert (Hodd : length quants = (2 * m + 1)%nat).
      { destruct (Nat.eq_dec (length quants) (2 * m)%nat) as [He|]; [|lia].
        exfalso. assert (Nat.even (length quants) = true); [|congruence].
        apply Nat.even_spec. now exists m. }
      destruct (lookup_lt_is_Some_2 quants (length quants - 1)) as (last & Hlast); [lia|].
      unfold packIndex. rewrite list_lookup_fmap, Hlast.
      cbn [fmap option_fmap option_map rbind].
      assert (Hle : exact_scalar F last) by exact (Forall_lookup_1 _ _ _ _ Hq Hlast).
      destruct (Qadd_FullPrec_exact_any F res last Hres Hle)
        as [-> | (r & -> & -> & Hr & Har)].
      * now left.
      * right. exists r. split; [reflexivity|]. split; [reflexivity|]. split; [exact Hr|].
        rewrite Har, Hal, Hsum.
        transitivity (sum_aligned F (take (2 * m) quants ++ drop (2 * m) quants));
          [|now rewrite take_drop].
        rewrite sum_aligned_app. f_equal.
        assert (Hd : drop (2 * m) quants = [last]).
        { replace (length quants - 1)%nat with (2 * m)%nat in Hlast by lia.
          rewrite (drop_S quants last (2 * m) Hlast).
          rewrite drop_ge by lia. reflexivity. }
        rewrite Hd. cbn. lia.
Qed.
(** ** Qreduce under FullPrec (C7) *)

(** C7, as stated, fails.  With two [QuDynamic] inputs of format (20, 11)
    the sum format (21, 11) is capped to (20, 10), and the lowest
    fractional bit of the sum is lost: raw 1 + raw 0 gives raw 0.  With the
    same inputs as static scalars the sum type (21, 11) is rejected. *)
Lemma C7_counterexample :
  let T := mkQuType 20 11 true TRN.TCPL SAT.TCPL in
  Qreduce [ArgTag FullPrec] [mkQu true T 1; mkQu true T 0] =
    Ok (mkQu true (mkQuType 20 10 true TRN.TCPL SAT.TCPL) 0) /\
  aligned 11 (mkQu true (mkQuType 20 10 true TRN.TCPL SAT.TCPL) 0) = 0 /\
  sum_aligned 11 [mkQu true T 1; mkQu true T 0] = 1 /\
  Qreduce [ArgTag FullPrec] [mkQu false T 1; mkQu false T 0] = Err CompileError.
Proof. vm_compute. repeat split; reflexivity. Qed.

(** C7 (amended): for scalar inputs, static, dynamic or mixed, whose raw
    data lie in the range of their formats, with any of the seven rounding
    modes and of the four implemented overflow modes, [Qreduce] with
    [FullPrec] given for the layers (once or more, as separate arguments
    or as one [TypeList]; the last bundle serves the deeper layers)
    returns, whenever no intermediate sum format exceeds 31 bits (which is
    when the compiler accepts the call on static operands of the same
    formats), a scalar whose raw data, aligned to a common fractional width
    [F], is the exact wide-integer sum of the inputs' aligned raw data. *)
Theorem C7_Qreduce_FullPrec_exact (Args : list TArg) (k : nat) (F : Z) (quants : list Qu) :
  Args = replicate (S k) (ArgTag FullPrec) \/
  Args = [ArgTypeList (replicate (S k) FullPrec)] ->
  Forall (exact_scalar F) quants ->
  Qreduce Args (as_static <$> quants) <> Err CompileError ->
  exists r,
    Qreduce Args quants = Ok r /\
    exact_scalar F r /\
    aligned F r = sum_aligned F quants.
Proof.
  intros HArgs Hq Hc.
  assert (HA : ReducerInputHelper Args = replicate (S k) (ArgTag FullPrec)).
  { destruct HArgs as [-> | ->]; [now destruct k|].
    cbn [ReducerInputHelper]. now rewrite fmap_replicate. }
  unfold Qreduce, Reducer.reduce in *. rewrite HA in *. rewrite length_fmap in Hc.
  destruct quants as [|q quants]; [now cbn in Hc|].
  destruct (reduce_impl_FullPrec_exact k F (length (q :: quants)) 0 (q :: quants))
    as [E | (r & E & _ & Hr & Hal)]; [cbn [length]; lia | exact Hq | contradiction |].
  exists r. now split.
Qed.

Lemma C7_Qreduce_FullPrec_exact_witness :
  let T := mkQuType 8 8 true TRN.TCPL SAT.TCPL in
  let U := mkQuType 4 4 false RND.CONV WRP.TCPL in
  let quants := [mkQu true T 128; mkQu true U 1; mkQu false T (-7)] in
  exists r, Qreduce [ArgTypeList [FullPrec]] quants = Ok r /\
            type r = mkQuType 10 8 true TRN.TCPL SAT.TCPL /\ data r = 137.
Proof.
  cbv zeta.
  destruct (C7_Qreduce_FullPrec_exact [ArgTypeList [FullPrec]] 0 8
              [mkQu true (mkQuType 8 8 true TRN.TCPL SAT.TCPL) 128;
               mkQu true (mkQuType 4 4 false RND.CONV WRP.TCPL) 1;
               mkQu false (mkQuType 8 8 true TRN.TCPL SAT.TCPL) (-7)])
    as (r & Hr & _ & _).
  - now right.
  - repeat constructor; vm_compute; congruence.
  - vm_compute. discriminate.
  - exists r. split; [exact Hr|]. vm_compute in Hr. injection Hr as <-. split; reflexivity.
Defined.
(** ** The tree reducer on a vector *)

Lemma map_result_length {A B : Type} (f : A -> result B) (l : list A) (bs : list B) :
  map_result f l = Ok bs -> length bs = length l.
Proof.
  revert bs. induction l as [|x l IH]; cbn; intros bs.
  - now intros [= <-].
  - destruct (f x); cbn; [|discriminate].
    destruct (map_result f l) as [bs'|]; cbn; [|discriminate].
    intros [= <-]. cbn. f_equal. now apply IH.
Qed.

(** A loop that writes the cells [0 .. m-1] of a buffer, each with a value
    that does not depend on the buffer, overwrites its first [m] cells. *)
Lemma for_each_fill (body : nat -> list Qu -> result (list Qu)) (f : nat -> result Qu)
    (m : nat) (res0 : list Qu) :
  (m <= length res0)%nat ->
  (forall I res, (I < m)%nat -> length res = length res0 ->
                 body I res = (do v <- f I; Ok (<[I := v]> res))) ->
  for_each (seq 0 m) body res0 =
  (do vs <- map_result f (seq 0 m); Ok (vs ++ drop m res0)).
Proof.
  induction m as [|m IH]; intros Hm Hbody.
  - cbn. now rewrite drop_0.
  - rewrite seq_S, for_each_app, map_result_app, IH by (try lia; intros; apply Hbody; lia).
    cbn [Nat.add].
    destruct (map_result f (seq 0 m)) as [vs|e] eqn:Evs; cbn [rbind]; [|reflexivity].
    apply map_result_length in Evs. rewrite length_seq in Evs.
    cbn [for_each map_result]. rewrite Hbody
      by (try lia; rewrite length_app, length_drop; lia).
    destruct (f m) as [v|e]; cbn [rbind]; [|reflexivity].
    f_equal. rewrite insert_app_r_alt by lia. rewrite Evs, Nat.sub_diag.
    destruct (drop m res0) as [|x rest] eqn:Ed.
    { apply (f_equal length) in Ed. rewrite length_drop in Ed. cbn [length] in Ed. lia. }
    cbn. rewrite <- app_assoc. cbn. f_equal. f_equal.
    replace (S m) with (m + 1)%nat by lia. rewrite <- drop_drop, Ed. reflexivity.
Qed.

(** With the accessor repaired, a layer of the version for a vector leaves
    in [res] the pair sums, followed, when the count is odd, by the
    unmatched element; each is converted to the element type of [res].
    What [res] held is gone. *)
Lemma reduce_layer_values type resT elemT (quants res0 : list Qu) :
  Z.of_nat (length quants) < 2 ^ 64 ->
  length res0 = ((length quants + 1) / 2)%nat ->
  Reducer.reduce_layer Repaired type resT (length quants) quants res0 =
  layer_values type resT elemT quants.
Proof.
  intros Hsz Hlen. unfold Reducer.reduce_layer, layer_values.
  set (len := length quants) in *. set (m := (len / 2)%nat).
  assert (Hm : (2 * m <= len <= 2 * m + 1)%nat).
  { unfold m. pose proof (Nat.div_mod len 2 ltac:(lia)).
    pose proof (Nat.mod_upper_bound len 2 ltac:(lia)). lia. }
  assert (Hh : (2 * ((len + 1) / 2) <= len + 1 <= 2 * ((len + 1) / 2) + 1)%nat).
  { pose proof (Nat.div_mod (len + 1) 2 ltac:(lia)).
    pose proof (Nat.mod_upper_bound (len + 1) 2 ltac:(lia)). lia. }
  set (h := ((len + 1) / 2)%nat) in *.
  rewrite (for_each_fill _
             (fun I => do s <- Qadd [type] (at_ elemT quants (I * 2))
                                           (at_ elemT quants (I * 2 + 1));
                       Qu_s_from resT s) m res0); [|lia|].
  2:{ intros I res HI Hres. cbn beta.
      rewrite !(get_vector elemT) by (fold len; lia). cbn [rbind].
      destruct (Qadd _ _ _) as [s|e]; cbn [rbind]; [|reflexivity].
      apply set_vector; lia. }
  destruct (map_result _ (seq 0 m)) as [sums|e] eqn:Es; cbn [rbind]; [|reflexivity].
  apply map_result_length in Es. rewrite length_seq in Es.
  destruct (Nat.odd len) eqn:Hodd.
  - assert (Hl : len = (2 * m + 1)%nat).
    { destruct (Nat.eq_dec len (2 * m)%nat) as [He|]; [|lia].
      exfalso. rewrite <- Nat.negb_even in Hodd.
      assert (Nat.even len = true) by (apply Nat.even_spec; now exists m).
      rewrite H in Hodd. discriminate. }
    rewrite (get_vector elemT) by (fold len; lia). cbn [rbind].
    rewrite set_vector by (rewrite ?length_app, ?length_drop; lia).
    destruct (Qu_s_from resT _) as [e|e]; cbn [rbind]; [|reflexivity].
    f_equal. replace (h - 1)%nat with m by lia.
    rewrite insert_app_r_alt by lia. rewrite Es, Nat.sub_diag.
    destruct (drop m res0) as [|x rest] eqn:Ed.
    { apply (f_equal length) in Ed. rewrite length_drop in Ed. cbn [length] in Ed. lia. }
    assert (rest = []) as ->.
    { apply (f_equal length) in Ed. rewrite length_drop in Ed. cbn [length] in Ed.
      destruct rest; [reflexivity|cbn [length] in Ed; lia]. }
    reflexivity.
  - assert (Hl : len = (2 * m)%nat).
    { destruct (Nat.eq_dec len (2 * m + 1)%nat) as [He|]; [|lia].
      exfalso. assert (Nat.odd len = true); [|congruence].
      apply Nat.odd_spec. now exists m. }
    rewrite drop_ge by lia. now rewrite app_nil_r.
Qed.

Lemma layer_values_length type resT elemT (quants res : list Qu) :
  layer_values type resT elemT quants = Ok res ->
  length res = ((length quants + 1) / 2)%nat.
Proof.
  unfold layer_values. set (len := length quants).
  assert (Hm : (2 * (len / 2) <= len <= 2 * (len / 2) + 1)%nat).
  { pose proof (Nat.div_mod len 2 ltac:(lia)).
    pose proof (Nat.mod_upper_bound len 2 ltac:(lia)). lia. }
  assert (Hh : (2 * ((len + 1) / 2) <= len + 1 <= 2 * ((len + 1) / 2) + 1)%nat).
  { pose proof (Nat.div_mod (len + 1) 2 ltac:(lia)).
    pose proof (Nat.mod_upper_bound (len + 1) 2 ltac:(lia)). lia. }
  destruct (map_result _ _) as [sums|e] eqn:Es; cbn [rbind]; [|discriminate].
  apply map_result_length in Es. rewrite length_seq in Es.
  destruct (Nat.odd len) eqn:Hodd.
  - destruct (Qu_s_from _ _); cbn [rbind]; [|discriminate]. intros [= <-].
    rewrite length_app, Es. cbn [length].
    destruct (Nat.eq_dec len (2 * (len / 2))%nat) as [He|]; [|lia].
    exfalso. rewrite <- Nat.negb_even in Hodd.
    assert (Nat.even len = true) by (apply Nat.even_spec; now exists (len / 2)%nat).
    rewrite H in Hodd. discriminate.
  - intros [= <-]. rewrite Es.
    destruct (Nat.eq_dec len (2 * (len / 2) + 1)%nat) as [He|]; [|lia].
    exfalso. assert (Nat.odd len = true); [|congruence].
    apply Nat.odd_spec. now exists (len / 2)%nat.
Qed.

Lemma static_at_length (h : gmap loc (list Qu)) (l : loc) (n : nat) (T : QuType) :
  length (static_at h l n T) = n.
Proof.
  unfold static_at. destruct (h !! l) as [buf|]; [|apply length_replicate].
  destruct (Nat.eqb_spec (length buf) n); [assumption|apply length_replicate].
Qed.
(** ** The unmatched element of a layer (C6) *)

(** C6: the two forms of the reducer treat the unmatched element of an odd
    layer differently, and neither as the claim has it.  The variadic form
    does not carry it to the next layer: on three operands and two bundles
    or more it adds the third operand with the bundle of layer 0, after
    the pair sum has come back from the deeper layers, where the schedule
    of the claim adds it at layer 1 with the bundle of layer 1.  On three
    inputs 0.5 of format (8, 8), with the bundle (8, 8) for layer 0 and
    (8, 0) for layer 1, the variadic form returns 1.5 in the format (8, 8)
    (raw 384); the schedule of the claim returns 1 in the format (8, 0),
    and so does the form for a vector once its accessor is repaired (as
    shipped it does not compile).  With the bundles the other way round,
    (8, 0) for layer 0 and (8, 8) for layer 1, the schedule of the claim
    returns 1.5 (raw 384); the variadic form returns 1 in the format
    (8, 0), and the form for a vector, which stores the unmatched 0.5 in
    the [res] of layer 0, of format (8, 0), returns 1.0 (raw 256). *)
Theorem C6_variadic_adds_unmatched_last :
  (forall (t0 t1 : TArg) (rest : list TArg) (a b c : Qu),
     Qreduce (t0 :: t1 :: rest) [a; b; c] = (do s <- Qadd [t0] a b; Qadd [t0] s c) /\
     spec_reduce 3 (t0 :: t1 :: rest) 0 [a; b; c] = (do s <- Qadd [t0] a b; Qadd [t1] s c)) /\
  let T := mkQuType 8 8 true TRN.TCPL SAT.TCPL in
  let T1 := mkQuType 8 0 true TRN.TCPL SAT.TCPL in
  let quants := [mkQu false T 128; mkQu false T 128; mkQu false T 128] in
  (Qreduce [ArgQu T; ArgQu T1] quants = Ok (mkQu false T 384) /\
   spec_reduce 3 [ArgQu T; ArgQu T1] 0 quants = Ok (mkQu false T1 1) /\
   (do r <- Qreduce_vec Repaired [ArgQu T; ArgQu T1] T quants ∅; Ok (fst r))
     = Ok (mkQu false T1 1)) /\
  (Qreduce [ArgQu T1; ArgQu T] quants = Ok (mkQu false T1 1) /\
   spec_reduce 3 [ArgQu T1; ArgQu T] 0 quants = Ok (mkQu false T 384) /\
   (do r <- Qreduce_vec Repaired [ArgQu T1; ArgQu T] T quants ∅; Ok (fst r))
     = Ok (mkQu false T 256)) /\
  (forall Args h, Qreduce_vec Shipped Args T quants h = Err CompileError).
Proof.
  split.
  - intros t0 t1 rest a b c. split.
    + unfold Qreduce, Reducer.reduce.
      replace (ReducerInputHelper (t0 :: t1 :: rest)) with (t0 :: t1 :: rest)
        by (destruct t0; reflexivity).
      cbn -[Qadd]. destruct (Qadd [t0] a b) as [s|e]; reflexivity.
    + cbn -[Qadd]. destruct (Qadd [t0] a b) as [s|e]; cbn -[Qadd]; [|reflexivity].
      destruct (Qadd [t1] s c); reflexivity.
  - cbv zeta. split; [|split].
    + split; [vm_compute; reflexivity|]. split; vm_compute; reflexivity.
    + split; [vm_compute; reflexivity|]. split; vm_compute; reflexivity.
    + intros Args h. unfold Qreduce_vec, Reducer.reduce_vec.
      cbn [length Reducer.reduce_impl_vec].
      destruct (match Reducer.res_elem_type _ _ with Some _ => _ | None => _ end)
        as [[]|e] eqn:E; cbn [rbind].
      * destruct (Reducer.res_elem_type _ _); reflexivity.
      * destruct (Reducer.res_elem_type _ _) as [resT|]; [|discriminate].
        unfold static_assert in E. destruct (Qu_s_assert resT); [discriminate|].
        now injection E as <-.
Qed.
(** ** The frame of Qgemul (C9) *)

Lemma agree_on_insert_static ns h1 h2 l buf1 buf2 :
  (forall n, l <> Caller n) -> agree_on ns h1 h2 ->
  agree_on ns (<[l := buf1]> h1) (<[l := buf2]> h2).
Proof.
  intros Hl H n Hn. rewrite !lookup_insert_ne by apply Hl. now apply H.
Qed.

Lemma tensor_at_agree ns h1 h2 n :
  agree_on ns h1 h2 -> n ∈ ns -> tensor_at h1 n = tensor_at h2 n.
Proof. intros H Hn. unfold tensor_at. now rewrite H. Qed.

Lemma for_each_rel {S : Type} (R : S -> S -> Prop) (l : list nat)
    (body : nat -> S -> result S) (s1 s2 s1' : S) :
  R s1 s2 ->
  (forall i s1 s2 s1', R s1 s2 -> body i s1 = Ok s1' ->
                       exists s2', body i s2 = Ok s2' /\ R s1' s2') ->
  for_each l body s1 = Ok s1' ->
  exists s2', for_each l body s2 = Ok s2' /\ R s1' s2'.
Proof.
  intros HR Hb. revert s1 s2 HR. induction l as [|i l IH]; intros s1 s2 HR; cbn.
  - intros [= <-]. eauto.
  - destruct (body i s1) as [t1|e] eqn:E1; cbn; [|discriminate].
    destruct (Hb i s1 s2 t1 HR E1) as (t2 & -> & HR'). cbn. now apply IH.
Qed.

(** The vector reducer writes only its static [res]. *)
Lemma reduce_impl_vec_frame hd Args fuel :
  forall layer elemT (quants : list Qu) (h h' : gmap loc (list Qu)) r,
    Reducer.reduce_impl_vec hd Args fuel layer elemT quants h = Ok (r, h') ->
    forall n, h' !! Caller n = h !! Caller n.
Proof.
  induction fuel as [|fuel IH]; intros layer elemT quants h h' r; [discriminate|].
  cbn [Reducer.reduce_impl_vec].
  destruct (match Reducer.res_elem_type _ _ with Some _ => _ | None => _ end);
    cbn [rbind]; [|discriminate].
  destruct (length quants =? 1)%nat.
  { destruct (get _ _ _ _); cbn [rbind]; [|discriminate]. now intros [= _ <-]. }
  destruct (Reducer.res_elem_type _ _) as [resT|]; [|discriminate].
  destruct (Reducer.reduce_layer _ _ _ _ _ _) as [res|]; cbn [rbind]; [|discriminate].
  intros E n. rewrite (IH _ _ _ _ _ _ E n). now rewrite lookup_insert_ne.
Qed.

(** What it returns does not depend on the store. *)
Lemma reduce_impl_vec_rel ns Args fuel :
  forall layer elemT (quants : list Qu) (h1 h2 h1' : gmap loc (list Qu)) r,
    Z.of_nat (length quants) < 2 ^ 64 ->
    agree_on ns h1 h2 ->
    Reducer.reduce_impl_vec Repaired Args fuel layer elemT quants h1 = Ok (r, h1') ->
    exists h2',
      Reducer.reduce_impl_vec Repaired Args fuel layer elemT quants h2 = Ok (r, h2') /\
      agree_on ns h1' h2'.
Proof.
  induction fuel as [|fuel IH]; intros layer elemT quants h1 h2 h1' r Hsz Heq;
    [discriminate|].
  cbn [Reducer.reduce_impl_vec].
  destruct (match Reducer.res_elem_type _ _ with Some _ => _ | None => _ end);
    cbn [rbind]; [|discriminate].
  destruct (length quants =? 1)%nat.
  { destruct (get _ _ _ _); cbn [rbind]; [|discriminate]. intros [= <- <-]. eauto. }
  destruct (Reducer.res_elem_type _ _) as [resT|]; [|discriminate].
  rewrite !(reduce_layer_values _ _ elemT) by (try exact Hsz; apply static_at_length).
  destruct (layer_values _ _ _ _) as [res|] eqn:Eres; cbn [rbind]; [|discriminate].
  apply IH; [|now apply agree_on_insert_static].
  rewrite (layer_values_length _ _ _ _ _ Eres).
  assert ((length quants + 1) / 2 <= length quants)%nat; [|lia].
  pose proof (Nat.div_mod (length quants + 1) 2 ltac:(lia)).
  pose proof (Nat.mod_upper_bound (length quants + 1) 2 ltac:(lia)).
  destruct (length quants); cbn in *; lia.
Qed.

Section QgemulFrame.
Variables (isTransposedA isTransposedB : bool) (addArgs mulArgs : list TArg).
Variables (TC TA TB : TensorT) (c a b : nat).
(** Names of caller's objects, among them [C], [A] and [B]. *)
Variable ns : list nat.
Hypotheses (Hc : c ∈ ns) (Ha : a ∈ ns) (Hb : b ∈ ns).
Hypothesis HK : Z.of_nat (Qgemul_s.K isTransposedA TA) < 2 ^ 64.

Local Abbreviation cell hd := (Qgemul_s.cell hd isTransposedA isTransposedB addArgs mulArgs
                                 TC TA TB c a b).
Local Abbreviation products := (Qgemul_s.products isTransposedA isTransposedB mulArgs
                                  TA TB a b).

(** The products of a cell depend on the store through [A] and [B] only,
    and not on what [vecC] held. *)
Lemma products_rel vecT i j h1 h2 (v1 v2 : list Qu) :
  agree_on ns h1 h2 ->
  length v1 = Qgemul_s.K isTransposedA TA -> length v2 = Qgemul_s.K isTransposedA TA ->
  products vecT i j h1 v1 = products vecT i j h2 v2.
Proof.
  intros Heq Hl1 Hl2. unfold Qgemul_s.products.
  rewrite <- (tensor_at_agree ns h1 h2 a Heq Ha), <- (tensor_at_agree ns h1 h2 b Heq Hb).
  set (f := fun k : nat =>
         do x <- subscript_get [t_row TA; t_col TA] (tensor_at h1 a)
                   [if isTransposedA then k else i; if isTransposedA then i else k];
         do y <- subscript_get [t_row TB; t_col TB] (tensor_at h1 b)
                   [if isTransposedB then j else k; if isTransposedB then k else j];
         do p <- Qmul mulArgs x y;
         Qu_s_from vecT p).
  assert (Hfill : forall v : list Qu, length v = Qgemul_s.K isTransposedA TA ->
            for_each (seq 0 (Qgemul_s.K isTransposedA TA))
              (fun k vecC =>
                 do x <- subscript_get [t_row TA; t_col TA] (tensor_at h1 a)
                           [if isTransposedA then k else i; if isTransposedA then i else k];
                 do y <- subscript_get [t_row TB; t_col TB] (tensor_at h1 b)
                           [if isTransposedB then j else k; if isTransposedB then k else j];
                 do p <- Qmul mulArgs x y;
                 index_set vecT vecC k p) v =
            (do vs <- map_result f (seq 0 (Qgemul_s.K isTransposedA TA)); Ok vs)).
  { intros v Hv. rewrite (for_each_fill _ f); [|lia|].
    2:{ intros k res Hk Hres. unfold f, index_set.
        destruct (subscript_get _ _ _) as [x|]; cbn [rbind]; [|reflexivity].
        destruct (subscript_get _ _ _) as [y|]; cbn [rbind]; [|reflexivity].
        destruct (Qmul _ _ _) as [p|]; cbn [rbind]; [|reflexivity].
        destruct (Qu_s_from _ _) as [e|]; cbn [rbind]; [|reflexivity].
        apply write_in. lia. }
    rewrite drop_ge by lia.
    destruct (map_result f _); cbn [rbind]; [now rewrite app_nil_r|reflexivity]. }
  now rewrite (Hfill v1 Hl1), (Hfill v2 Hl2).
Qed.

Lemma cell_frame hd vecT i j h h' :
  cell hd vecT i j h = Ok h' -> writes_only c h h'.
Proof.
  unfold Qgemul_s.cell.
  destruct (products _ _ _ _ _) as [vecC|]; cbn [rbind]; [|discriminate].
  destruct (Qreduce_vec _ _ _ _ _) as [[r h1]|] eqn:Er; cbn [rbind fst snd]; [|discriminate].
  destruct (subscript_set _ _ _ _ _) as [C|]; cbn [rbind]; [|discriminate].
  intros [= <-] n Hn.
  rewrite lookup_insert_ne by congruence.
  unfold Qreduce_vec, Reducer.reduce_vec in Er.
  rewrite (reduce_impl_vec_frame _ _ _ _ _ _ _ _ _ Er n).
  now rewrite lookup_insert_ne.
Qed.

Lemma cell_rel vecT i j h1 h2 h1' :
  agree_on ns h1 h2 ->
  cell Repaired vecT i j h1 = Ok h1' ->
  exists h2', cell Repaired vecT i j h2 = Ok h2' /\ agree_on ns h1' h2'.
Proof.
  intros Heq. unfold Qgemul_s.cell.
  rewrite (products_rel vecT i j h1 h2 _
             (static_at h2 Static_vecC (Qgemul_s.K isTransposedA TA) vecT) Heq)
    by apply static_at_length.
  destruct (products _ _ _ _ _) as [vecC|] eqn:Ep; cbn [rbind]; [|discriminate].
  assert (HvecC : length vecC = Qgemul_s.K isTransposedA TA).
  { unfold Qgemul_s.products in Ep.
    revert Ep. apply (for_each_inv (fun v => length v = Qgemul_s.K isTransposedA TA));
      [apply static_at_length|].
    intros k v v' _ Hv E.
    destruct (subscript_get _ _ _) as [x|]; cbn [rbind] in E; [|discriminate].
    destruct (subscript_get _ _ _) as [y|]; cbn [rbind] in E; [|discriminate].
    destruct (Qmul _ _ _) as [p|]; cbn [rbind] in E; [|discriminate].
    unfold index_set, write in E.
    destruct (Qu_s_from _ _) as [e|]; cbn [rbind] in E; [|discriminate].
    destruct (_ <? _)%nat; [|discriminate]. injection E as <-.
    now rewrite length_insert. }
  destruct (Qreduce_vec _ _ _ _ (<[Static_vecC := vecC]> h1)) as [[r g1]|] eqn:Er;
    cbn [rbind fst snd]; [|discriminate].
  unfold Qreduce_vec, Reducer.reduce_vec in *.
  destruct (reduce_impl_vec_rel ns _ _ _ _ _ _ (<[Static_vecC := vecC]> h2) _ _
              ltac:(rewrite HvecC; exact HK)
              ltac:(apply agree_on_insert_static; [discriminate|exact Heq]) Er)
    as (g2 & -> & Hg).
  cbn [rbind fst snd].
  rewrite <- (tensor_at_agree ns g1 g2 c Hg Hc).
  destruct (subscript_set _ _ _ _ _) as [C|]; cbn [rbind]; [|discriminate].
  intros [= <-]. eexists. split; [reflexivity|].
  intros n Hin. destruct (decide (n = c)) as [->|Hn].
  - now rewrite !lookup_insert_eq.
  - rewrite !lookup_insert_ne by congruence. now apply Hg.
Qed.

Lemma writes_only_refl h : writes_only c h h.
Proof. now intros n _. Qed.

Lemma writes_only_trans h1 h2 h3 :
  writes_only c h1 h2 -> writes_only c h2 h3 -> writes_only c h1 h3.
Proof. intros H12 H23 n Hn. now rewrite H23, H12. Qed.

Lemma Qgemul_frame hd h h' :
  Qgemul hd isTransposedA isTransposedB addArgs mulArgs TC TA TB c a b h = Ok h' ->
  writes_only c h h'.
Proof.
  unfold Qgemul, Qgemul_s.execute.
  destruct (static_assert _); cbn [rbind]; [|discriminate].
  destruct (Qgemul_s.mulMerger _ _ _) as [m|]; cbn [rbind]; [|discriminate].
  destruct (static_assert _); cbn [rbind]; [|discriminate].
  destruct (if (_ =? 0)%nat then _ else _); cbn [rbind]; [|discriminate].
  apply (for_each_inv (writes_only c h)); [apply writes_only_refl|].
  intros i g g' _ Hg. apply (for_each_inv (writes_only c h)); [exact Hg|].
  intros j g1 g2 _ Hg1 E. eapply writes_only_trans; [exact Hg1|].
  eapply cell_frame; eauto.
Qed.

Lemma Qgemul_rel h1 h2 h1' :
  agree_on ns h1 h2 ->
  Qgemul Repaired isTransposedA isTransposedB addArgs mulArgs TC TA TB c a b h1 = Ok h1' ->
  exists h2',
    Qgemul Repaired isTransposedA isTransposedB addArgs mulArgs TC TA TB c a b h2 = Ok h2' /\
    agree_on ns h1' h2'.
Proof.
  intros Heq. unfold Qgemul, Qgemul_s.execute.
  destruct (static_assert _); cbn [rbind]; [|discriminate].
  destruct (Qgemul_s.mulMerger _ _ _) as [m|]; cbn [rbind]; [|discriminate].
  destruct (static_assert _); cbn [rbind]; [|discriminate].
  destruct (if (_ =? 0)%nat then _ else _); cbn [rbind]; [|discriminate].
  apply (for_each_rel (agree_on ns)); [exact Heq|].
  intros i g1 g2 g1' Hg. apply (for_each_rel (agree_on ns)); [exact Hg|].
  intros j k1 k2 k1' Hk. now apply cell_rel.
Qed.
End QgemulFrame.

(** As shipped, no instance of [Qgemul] compiles: its reduction reads
    [vecC] through [get]. *)
Lemma Qgemul_Shipped tA tB addArgs mulArgs TC TA TB c a b h :
  Qgemul Shipped tA tB addArgs mulArgs TC TA TB c a b h = Err CompileError.
Proof.
  unfold Qgemul, Qgemul_s.execute, static_assert.
  destruct (Qgemul_s.size_ok _ _ _ _ _); cbn [rbind]; [|reflexivity].
  unfold Qgemul_s.mulMerger. destruct mulArgs as [|[| |l] [|]]; cbn [rbind]; try reflexivity.
  destruct (Qu_s_assert _); cbn [rbind]; [|reflexivity].
  destruct (_ =? 0)%nat; reflexivity.
Qed.

(** C9, as stated, fails: with the accessor repaired, a call of [Qgemul]
    on 2x2 matrices, started from a store that holds the three matrices
    only, leaves the products of the last cell in the static [vecC] of the
    kernel and a partial sum in the static [res] of the reducer's first
    layer: the call has written state that all calls of the instantiation
    share. *)
Lemma C9_counterexample :
  let T := mkQuType 8 8 true TRN.TCPL SAT.TCPL in
  let V := mkQuType 15 15 true TRN.TCPL SAT.TCPL in
  let M := mkTensorT 2 2 T in
  let h : gmap loc (list Qu) :=
    <[Caller 0 := [mkQu false T 0; mkQu false T 0; mkQu false T 0; mkQu false T 0]]>
    (<[Caller 1 := [mkQu false T 256; mkQu false T 512; mkQu false T 768; mkQu false T 1024]]>
     (<[Caller 2 := [mkQu false T 128; mkQu false T 0; mkQu false T 0; mkQu false T 128]]> ∅)) in
  match Qgemul Repaired false false [] [ArgTypeList [FullPrec]] M M M 0 1 2 h with
  | Ok h' =>
      h !! Static_vecC = None /\
      h' !! Static_vecC = Some [mkQu false V 0; mkQu false V 65536] /\
      h !! Static_res 0 = None /\
      h' !! Static_res 0 = Some [mkQu false V 65536] /\
      h' !! Caller 0 =
        Some [mkQu false T 128; mkQu false T 256; mkQu false T 384; mkQu false T 512]
  | Err _ => False
  end.
Proof. vm_compute. repeat split; reflexivity. Qed.

(** C9 (amended): with the accessor repaired (as shipped, no instance of
    [Qgemul] compiles), a call [Qgemul(C, A, B)] that completes leaves [A]
    and [B] (when they are not [C]) and every other object of the caller
    as they were; what it modifies is [C], the static scratch vector
    [vecC] of the kernel and the static [res] buffers of the reducer,
    which the calls of one instantiation share.  What it stores in [C]
    depends on the store through [C], [A] and [B] only, not on what those
    buffers held; hence a call made after a call with another destination
    (which is not one of its operands) stores in its destination what it
    would have stored alone.  The extent of the dot product is a
    [size_t]. *)
Theorem C9_Qgemul_frame
    (isTransposedA isTransposedB : bool) (addArgs mulArgs : list TArg)
    (TC TA TB : TensorT) (c a b : nat) (h h' : gmap loc (list Qu)) :
  Z.of_nat (Qgemul_s.K isTransposedA TA) < 2 ^ 64 ->
  Qgemul Repaired isTransposedA isTransposedB addArgs mulArgs TC TA TB c a b h = Ok h' ->
  (a <> c -> h' !! Caller a = h !! Caller a) /\
  (b <> c -> h' !! Caller b = h !! Caller b) /\
  (forall l, h' !! l <> h !! l ->
             l = Caller c \/ l = Static_vecC \/ exists layer, l = Static_res layer) /\
  (forall g, agree_on [c; a; b] h g ->
     exists g',
       Qgemul Repaired isTransposedA isTransposedB addArgs mulArgs TC TA TB c a b g = Ok g' /\
       g' !! Caller c = h' !! Caller c) /\
  (forall tA' tB' addArgs' mulArgs' TC' TA' TB' c' a' b' h'',
     Z.of_nat (Qgemul_s.K tA' TA') < 2 ^ 64 ->
     c ∉ [c'; a'; b'] ->
     Qgemul Repaired tA' tB' addArgs' mulArgs' TC' TA' TB' c' a' b' h' = Ok h'' ->
     exists g,
       Qgemul Repaired tA' tB' addArgs' mulArgs' TC' TA' TB' c' a' b' h = Ok g /\
       g !! Caller c' = h'' !! Caller c') /\
  (forall g,
     Qgemul Shipped isTransposedA isTransposedB addArgs mulArgs TC TA TB c a b g
       = Err CompileError).
Proof.
  intros HK E. pose proof (Qgemul_frame _ _ _ _ _ _ _ _ _ _ _ _ _ E) as Hframe.
  split; [intros Hn; now apply Hframe|].
  split; [intros Hn; now apply Hframe|].
  split; [|split; [|split]].
  - intros l Hl. destruct l as [n| |layer].
    + left. destruct (decide (n = c)) as [->|Hn]; [reflexivity|].
      exfalso. apply Hl. now apply Hframe.
    + right. now left.
    + right. right. now exists layer.
  - intros g Hg.
    destruct (Qgemul_rel isTransposedA isTransposedB addArgs mulArgs TC TA TB c a b
                [c; a; b] ltac:(set_solver) ltac:(set_solver) ltac:(set_solver) HK
                h g h' Hg E)
      as (g' & Eg & Hg').
    exists g'. split; [exact Eg|]. symmetry. apply Hg'. set_solver.
  - intros tA' tB' addArgs' mulArgs' TC' TA' TB' c' a' b' h'' HK' Hnot E'.
    destruct (Qgemul_rel tA' tB' addArgs' mulArgs' TC' TA' TB' c' a' b' [c'; a'; b']
                ltac:(set_solver) ltac:(set_solver) ltac:(set_solver) HK' h' h h'')
      as (g & Eg & Hg).
    + intros n Hn. apply Hframe. intros ->. contradiction.
    + exact E'.
    + exists g. split; [exact Eg|]. symmetry. apply Hg. set_solver.
  - intros g. apply Qgemul_Shipped.
Qed.

Lemma C9_Qgemul_frame_witness :
  let T := mkQuType 8 8 true TRN.TCPL SAT.TCPL in
  let V := mkQuType 15 15 true TRN.TCPL SAT.TCPL in
  let M := mkTensorT 2 2 T in
  let h : gmap loc (list Qu) :=
    <[Caller 0 := [mkQu false T 0; mkQu false T 0; mkQu false T 0; mkQu false T 0]]>
    (<[Caller 1 := [mkQu false T 256; mkQu false T 512; mkQu false T 768; mkQu false T 1024]]>
     (<[Caller 2 := [mkQu false T 128; mkQu false T 0; mkQu false T 0; mkQu false T 128]]> ∅)) in
  Z.of_nat (Qgemul_s.K false M) < 2 ^ 64 /\
  exists h',
    Qgemul Repaired false false [ArgTypeList [Qu_s_arg V]] [ArgTypeList [FullPrec]]
           M M M 0 1 2 h = Ok h' /\
    h' !! Caller 1 = h !! Caller 1 /\ h' !! Caller 2 = h !! Caller 2.
Proof.
  intros T V M h.
  assert (HK : Z.of_nat (Qgemul_s.K false M) < 2 ^ 64) by (vm_compute; reflexivity).
  split; [exact HK|].
  destruct (Qgemul Repaired false false [ArgTypeList [Qu_s_arg V]] [ArgTypeList [FullPrec]]
                   M M M 0 1 2 h) as [h'|e] eqn:E.
  - exists h'. split; [reflexivity|].
    destruct (C9_Qgemul_frame _ _ _ _ _ _ _ _ _ _ _ _ HK E) as (HA & HB & _).
    split; [apply HA|apply HB]; discriminate.
  - vm_compute in E. discriminate.
Defined.
(** * Further properties *)

(** ** Rounding modes *)

Lemma shl32_one d : 0 <= d <= 30 -> shl32 1 d = 2 ^ d.
Proof.
  intros Hd. rewrite shl32_exact; [lia|lia|].
  assert (0 < 2 ^ d <= 2 ^ 30).
  { split; [apply Z.pow_pos_nonneg; lia|apply Z.pow_le_mono_r; lia]. }
  change (2 ^ 30) with 1073741824 in *. change (2 ^ 31) with 2147483648. lia.
Qed.

Lemma frac_ceil_spec fromFrac toFrac v :
  0 < fromFrac - toFrac <= 30 -> - 2 ^ 63 <= v < 2 ^ 63 ->
  frac_ceil fromFrac toFrac v =
    2 ^ (fromFrac - toFrac) * (v / 2 ^ (fromFrac - toFrac)) + 2 ^ (fromFrac - toFrac).
Proof.
  intros Hd Hv. unfold frac_ceil. fold (frac_floor fromFrac toFrac v).
  rewrite frac_floor_spec, shl32_one by lia. reflexivity.
Qed.

(** The quotient and the remainder of [v] by [2^d], as the conversions see
    them through [floor] and [ceil]. *)
Lemma frac_split d v :
  0 < d ->
  let q := v / 2 ^ d in let r := v mod 2 ^ d in
  v = 2 ^ d * q + r /\ 0 <= r < 2 ^ d /\ 2 ^ d = 2 * 2 ^ (d - 1) /\ 0 < 2 ^ (d - 1) /\
  (0 <= v <-> 0 <= q).
Proof.
  intros Hd q r.
  assert (0 < 2 ^ d) by (apply Z.pow_pos_nonneg; lia).
  split; [apply Z.div_mod; lia|]. split; [apply Z.mod_pos_bound; lia|].
  split; [|split; [apply Z.pow_pos_nonneg; lia|]].
  - replace d with (1 + (d - 1)) at 1 by lia. rewrite Z.pow_add_r by lia. reflexivity.
  - unfold q. split; intros H0.
    + apply Z.div_pos; lia.
    + destruct (Z.lt_ge_cases v 0) as [Hn|]; [|lia].
      pose proof (Z.div_lt_upper_bound v (2 ^ d) 0 ltac:(lia) ltac:(lia)). lia.
Qed.

Lemma shiftr_mul_pow2 d q : 0 <= d -> Z.shiftr (2 ^ d * q) d = q.
Proof.
  intros Hd. rewrite Z.shiftr_div_pow2 by lia.
  rewrite Z.mul_comm, Z.div_mul; [reflexivity|]. apply Z.pow_nonzero; lia.
Qed.

Lemma shiftr_mul_pow2_succ d q : 0 <= d -> Z.shiftr (2 ^ d * q + 2 ^ d) d = q + 1.
Proof.
  intros Hd. replace (2 ^ d * q + 2 ^ d) with (2 ^ d * (q + 1)) by ring.
  now apply shiftr_mul_pow2.
Qed.

Lemma fracConvert_POS_INF_spec fromFrac toFrac v :
  0 < fromFrac - toFrac <= 30 -> - 2 ^ 62 <= v < 2 ^ 62 ->
  fracConvert_POS_INF fromFrac toFrac v =
    (v + 2 ^ (fromFrac - toFrac - 1)) / 2 ^ (fromFrac - toFrac).
Proof.
  intros Hd Hv. unfold fracConvert_POS_INF.
  destruct (Z.leb_spec fromFrac toFrac); [lia|].
  fold (frac_floor fromFrac toFrac v).
  rewrite frac_floor_spec by (change (2 ^ 63) with (2 * 2 ^ 62); lia).
  rewrite shl32_one by lia.
  set (d := fromFrac - toFrac) in *.
  destruct (frac_split d v ltac:(lia)) as (Hv' & Hr & H2 & Hh & Hq).
  set (q := v / 2 ^ d) in *. set (r := v mod 2 ^ d) in *. set (h := 2 ^ (d - 1)) in *.
  destruct (Z.ltb_spec (v - 2 ^ d * q) (2 ^ d * q + 2 ^ d - v)).
  - rewrite shiftr_mul_pow2 by lia. apply (Z.div_unique _ _ _ (r + h)); lia.
  - rewrite shiftr_mul_pow2_succ by lia. apply (Z.div_unique _ _ _ (r - h)); lia.
Qed.

Lemma fracConvert_NEG_INF_spec fromFrac toFrac v :
  0 < fromFrac - toFrac <= 30 -> - 2 ^ 62 <= v < 2 ^ 62 ->
  fracConvert_NEG_INF fromFrac toFrac v =
    - ((2 ^ (fromFrac - toFrac - 1) - v) / 2 ^ (fromFrac - toFrac)).
Proof.
  intros Hd Hv. unfold fracConvert_NEG_INF.
  destruct (Z.leb_spec fromFrac toFrac); [lia|].
  fold (frac_floor fromFrac toFrac v).
  rewrite frac_floor_spec by (change (2 ^ 63) with (2 * 2 ^ 62); lia).
  rewrite shl32_one by lia.
  set (d := fromFrac - toFrac) in *.
  destruct (frac_split d v ltac:(lia)) as (Hv' & Hr & H2 & Hh & Hq).
  set (q := v / 2 ^ d) in *. set (r := v mod 2 ^ d) in *. set (h := 2 ^ (d - 1)) in *.
  destruct (Z.leb_spec (v - 2 ^ d * q) (2 ^ d * q + 2 ^ d - v)).
  - rewrite shiftr_mul_pow2 by lia.
    rewrite <- (Z.div_unique (h - v) (2 ^ d) (- q) (h - r)); lia.
  - rewrite shiftr_mul_pow2_succ by lia.
    rewrite <- (Z.div_unique (h - v) (2 ^ d) (- (q + 1)) (h - r + 2 ^ d)); lia.
Qed.

Lemma fracConvert_INF_spec fromFrac toFrac v :
  0 < fromFrac - toFrac <= 30 -> - 2 ^ 62 <= v < 2 ^ 62 ->
  fracConvert_INF fromFrac toFrac v =
    if v <? 0 then v / 2 ^ (fromFrac - toFrac) else v / 2 ^ (fromFrac - toFrac) + 1.
Proof.
  intros Hd Hv. unfold fracConvert_INF.
  destruct (Z.leb_spec fromFrac toFrac); [lia|].
  fold (frac_floor fromFrac toFrac v).
  rewrite frac_floor_spec by (change (2 ^ 63) with (2 * 2 ^ 62); lia).
  rewrite shl32_one by lia.
  set (d := fromFrac - toFrac) in *.
  destruct (frac_split d v ltac:(lia)) as (Hv' & Hr & H2 & Hh & Hq).
  set (q := v / 2 ^ d) in *. set (r := v mod 2 ^ d) in *.
  rewrite shiftr_mul_pow2, shiftr_mul_pow2_succ by lia.
  destruct (Z.ltb_spec (2 ^ d * q + (2 ^ d * q + 2 ^ d)) 0), (Z.ltb_spec v 0);
    try reflexivity; exfalso; nia.
Qed.

Lemma land_pow2 a d : 0 <= d -> Z.land a (2 ^ d) = if Z.testbit a d then 2 ^ d else 0.
Proof.
  intros Hd. apply Z.bits_inj'. intros k Hk.
  rewrite Z.land_spec, Z.pow2_bits_eqb by lia.
  destruct (Z.eqb_spec d k) as [->|Hne].
  - rewrite andb_true_r. destruct (Z.testbit a k) eqn:E.
    + now rewrite Z.pow2_bits_true.
    + now rewrite Z.bits_0.
  - rewrite andb_false_r. destruct (Z.testbit a d).
    + now rewrite Z.pow2_bits_false.
    + now rewrite Z.bits_0.
Qed.

Lemma fracConvert_CONV_spec fromFrac toFrac v :
  0 < fromFrac - toFrac <= 30 -> - 2 ^ 62 <= v < 2 ^ 62 ->
  let q := v / 2 ^ (fromFrac - toFrac) in
  let r := v mod 2 ^ (fromFrac - toFrac) in
  fracConvert_CONV fromFrac toFrac v =
    if 2 * r <? 2 ^ (fromFrac - toFrac) then q
    else if 2 ^ (fromFrac - toFrac) <? 2 * r then q + 1
    else if Z.even q then q else q + 1.
Proof.
  intros Hd Hv. unfold fracConvert_CONV.
  destruct (Z.leb_spec fromFrac toFrac); [lia|].
  fold (frac_floor fromFrac toFrac v).
  rewrite frac_floor_spec by (change (2 ^ 63) with (2 * 2 ^ 62); lia).
  rewrite shl32_one by lia.
  set (d := fromFrac - toFrac) in *.
  destruct (frac_split d v ltac:(lia)) as (Hv' & Hr & H2 & Hh & Hq).
  cbv zeta.
  set (q := v / 2 ^ d) in *. set (r := v mod 2 ^ d) in *.
  rewrite shiftr_mul_pow2, shiftr_mul_pow2_succ by lia.
  rewrite shl64_exact by (change (2 ^ 63) with (2 * 2 ^ 62); lia).
  assert (Hp : 0 < 2 ^ d <= 2 ^ 30).
  { split; [apply Z.pow_pos_nonneg; lia|apply Z.pow_le_mono_r; lia]. }
  change (2 ^ 30) with 1073741824 in Hp.
  assert (Hm2 : cast_ull (2 ^ d) = 2 ^ d).
  { unfold cast_ull. apply Z.mod_small. change (2 ^ 64) with 18446744073709551616. lia. }
  rewrite Hm2, land_pow2 by lia.
  assert (Hbit : Z.testbit (cast_ull (2 ^ d * q)) d = Z.odd q).
  { unfold cast_ull. rewrite Z.mod_pow2_bits_low by lia.
    rewrite Z.mul_comm, Z.mul_pow2_bits by lia. rewrite Z.sub_diag. apply Z.bit0_odd. }
  rewrite Hbit. rewrite <- Z.negb_even.
  destruct (Z.eqb_spec (2 ^ d * q + (2 ^ d * q + 2 ^ d)) (v * 2 ^ 1)) as [Htie|Hnt].
  - destruct (Z.ltb_spec (2 * r) (2 ^ d)); [lia|].
    destruct (Z.ltb_spec (2 ^ d) (2 * r)); [lia|].
    destruct (Z.even q); cbn [negb].
    + destruct (Z.eqb_spec 0 0); [reflexivity|lia].
    + destruct (Z.eqb_spec (2 ^ d) 0); [lia|reflexivity].
  - destruct (Z.ltb_spec (v - 2 ^ d * q) (2 ^ d * q + 2 ^ d - v)).
    + destruct (Z.ltb_spec (2 * r) (2 ^ d)); [reflexivity|lia].
    + destruct (Z.ltb_spec (2 * r) (2 ^ d)); [lia|].
      destruct (Z.ltb_spec (2 ^ d) (2 * r)); [reflexivity|]. exfalso. lia.
Qed.

Lemma fracConvert_TCPL_spec fromFrac toFrac v :
  toFrac <= fromFrac ->
  fracConvert_TCPL fromFrac toFrac v = v / 2 ^ (fromFrac - toFrac).
Proof.
  intros Hd. unfold fracConvert_TCPL, shiftRightDynamic.
  destruct (Z.leb_spec 0 (fromFrac - toFrac)); [|lia].
  apply Z.shiftr_div_pow2. lia.
Qed.

Lemma fracConvert_SMGN_spec fromFrac toFrac v :
  toFrac <= fromFrac ->
  fracConvert_SMGN fromFrac toFrac v = Z.quot v (2 ^ (fromFrac - toFrac)).
Proof.
  intros Hd. unfold fracConvert_SMGN.
  destruct (Z.ltb_spec fromFrac toFrac); [lia|].
  assert (0 < 2 ^ (fromFrac - toFrac)) by (apply Z.pow_pos_nonneg; lia).
  destruct (Z.leb_spec 0 v).
  - rewrite Z.shiftr_div_pow2 by lia. symmetry. apply Z.quot_div_nonneg; lia.
  - rewrite Z.shiftr_div_pow2 by lia. rewrite <- Z.quot_div_nonneg by lia.
    rewrite Z.quot_opp_l by lia. lia.
Qed.

Lemma fracConvert_widen fromFrac toFrac m v :
  0 <= m <= 6 -> fromFrac <= toFrac ->
  - 2 ^ 63 <= v * 2 ^ (toFrac - fromFrac) < 2 ^ 63 ->
  fracConvert fromFrac toFrac m v = Ok (v * 2 ^ (toFrac - fromFrac)).
Proof.
  intros Hm Hle Hv.
  assert (Hs : shl64 v (toFrac - fromFrac) = v * 2 ^ (toFrac - fromFrac))
    by (apply shl64_exact; [lia|exact Hv]).
  assert (Hc : m = 0 \/ m = 1 \/ m = 2 \/ m = 3 \/ m = 4 \/ m = 5 \/ m = 6) by lia.
  destruct Hc as [->|[->|[->|[->|[->|[->| ->]]]]]]; cbn -[Z.sub Z.pow Z.mul];
    frac_guards; f_equal;
    unfold fracConvert_POS_INF, fracConvert_NEG_INF, fracConvert_ZERO, fracConvert_INF,
      fracConvert_CONV, fracConvert_TCPL, fracConvert_SMGN, shiftRightDynamic.
  1-5: destruct (Z.leb_spec fromFrac toFrac); [exact Hs|lia].
  - destruct (Z.leb_spec 0 (fromFrac - toFrac)).
    + replace (fromFrac - toFrac) with 0 by lia.
      replace (toFrac - fromFrac) with 0 by lia. rewrite Z.shiftr_0_r. cbn. lia.
    + replace (- (fromFrac - toFrac)) with (toFrac - fromFrac) by lia. exact Hs.
  - destruct (Z.ltb_spec fromFrac toFrac); [exact Hs|].
    replace (fromFrac - toFrac) with 0 by lia.
    replace (toFrac - fromFrac) with 0 by lia. rewrite !Z.shiftr_0_r.
    destruct (0 <=? v); cbn; lia.
Qed.

(** ** Overflow modes *)

Lemma int_minVal_small i f (s : bool) :
  0 <= i + f <= 62 -> int_minVal i f s = if s then - 2 ^ (i + f) else 0.
Proof.
  intros H. unfold int_minVal. fold (int_maxVal i f). rewrite int_maxVal_small by lia.
  destruct s; lia.
Qed.

Lemma intConvert_SAT_TCPL_spec i f (s : bool) v :
  0 <= i + f <= 31 ->
  intConvert_SAT_TCPL i f s v =
    Z.min (Z.max v (if s then - 2 ^ (i + f) else 0)) (2 ^ (i + f) - 1).
Proof.
  intros Hw. unfold intConvert_SAT_TCPL.
  fold (int_maxVal i f). rewrite int_maxVal_small by lia.
  replace (if s then - (2 ^ (i + f) - 1) - 1 else 0) with (if s then - 2 ^ (i + f) else 0)
    by (destruct s; lia).
  assert (Hp : 0 < 2 ^ (i + f) <= 2 ^ 31).
  { split; [apply Z.pow_pos_nonneg; lia|apply Z.pow_le_mono_r; lia]. }
  rewrite cast_int_small; destruct s; lia.
Qed.

Lemma intConvert_SAT_ZERO_spec i f (s : bool) v :
  0 <= i + f <= 31 ->
  intConvert_SAT_ZERO i f s v =
    if (2 ^ (i + f) - 1 <? v) || (v <? (if s then - 2 ^ (i + f) else 0)) then 0 else v.
Proof.
  intros Hw. unfold intConvert_SAT_ZERO.
  fold (int_maxVal i f). rewrite int_maxVal_small by lia.
  replace (if s then - (2 ^ (i + f) - 1) - 1 else 0) with (if s then - 2 ^ (i + f) else 0)
    by (destruct s; lia).
  assert (Hp : 0 < 2 ^ (i + f) <= 2 ^ 31).
  { split; [apply Z.pow_pos_nonneg; lia|apply Z.pow_le_mono_r; lia]. }
  destruct (Z.ltb_spec (2 ^ (i + f) - 1) v); [reflexivity|].
  destruct (Z.ltb_spec v (if s then - 2 ^ (i + f) else 0)); [reflexivity|].
  cbn [orb]. apply cast_int_small. destruct s; lia.
Qed.

Lemma intConvert_SAT_SMGN_spec i f (s : bool) v :
  0 <= i + f <= 31 ->
  intConvert_SAT_SMGN i f s v =
    Z.min (Z.max v ((if s then - 2 ^ (i + f) else 0) + 1)) (2 ^ (i + f) - 1).
Proof.
  intros Hw. unfold intConvert_SAT_SMGN.
  fold (int_maxVal i f). rewrite int_maxVal_small by lia.
  replace (if s then - (2 ^ (i + f) - 1) - 1 else 0) with (if s then - 2 ^ (i + f) else 0)
    by (destruct s; lia).
  assert (Hp : 0 < 2 ^ (i + f) <= 2 ^ 31).
  { split; [apply Z.pow_pos_nonneg; lia|apply Z.pow_le_mono_r; lia]. }
  rewrite cast_int_small; destruct s; lia.
Qed.

Lemma lor_high_ones w n :
  0 <= n <= 64 -> 0 <= w < 2 ^ n ->
  Z.lor w (2 ^ 64 - 2 ^ n) = w + (2 ^ 64 - 2 ^ n).
Proof.
  intros Hn Hw. symmetry. apply Z.add_nocarry_lor.
  apply Z.bits_inj'. intros k Hk. rewrite Z.land_spec, Z.bits_0.
  destruct (Z.lt_ge_cases k n) as [Hlt|Hge].
  - replace (2 ^ 64 - 2 ^ n) with (Z.shiftl (2 ^ (64 - n) - 1) n).
    2:{ rewrite Z.shiftl_mul_pow2 by lia. rewrite Z.mul_sub_distr_r.
        rewrite <- Z.pow_add_r by lia. replace (64 - n + n) with 64 by lia. lia. }
    rewrite Z.shiftl_spec_low by lia. apply andb_false_r.
  - destruct (Z.eq_dec w 0) as [->|Hnz]; [now rewrite Z.bits_0|].
    rewrite (Z.bits_above_log2 w k); [reflexivity|lia|].
    apply Z.lt_le_trans with n; [apply Z.log2_lt_pow2; lia|lia].
Qed.

Lemma intConvert_WRP_TCPL_spec i f (s : bool) v :
  0 <= i + f <= 31 ->
  intConvert_WRP_TCPL i f s v =
    if s then (v + 2 ^ (i + f)) mod 2 ^ (i + f + 1) - 2 ^ (i + f)
    else v mod 2 ^ (i + f).
Proof.
  intros Hw. set (n := i + f) in *.
  assert (Hp : 0 < 2 ^ n <= 2 ^ 31).
  { split; [apply Z.pow_pos_nonneg; lia|apply Z.pow_le_mono_r; lia]. }
  change (2 ^ 31) with 2147483648 in Hp.
  unfold intConvert_WRP_TCPL. fold n. destruct s.
  - rewrite wrap_mask by lia. rewrite land_cast_ull_ones by lia.
    assert (Hpp : 2 ^ (n + 1) = 2 * 2 ^ n) by (rewrite Z.pow_add_r by lia; lia).
    pose proof (Z.mod_pos_bound v (2 ^ (n + 1)) ltac:(lia)) as Hwb.
    set (w := v mod 2 ^ (n + 1)) in *.
    assert (Hvw : v = 2 ^ (n + 1) * (v / 2 ^ (n + 1)) + w) by (apply Z.div_mod; lia).
    rewrite Z.shiftr_div_pow2 by lia.
    destruct (Z.lt_ge_cases w (2 ^ n)) as [Hlow|Hhigh].
    + rewrite Z.div_small by lia. cbn [Z.eqb negb].
      rewrite cast_int_small by (change (2 ^ 31) with 2147483648; lia).
      assert (E : (v + 2 ^ n) mod 2 ^ (n + 1) = w + 2 ^ n).
      { symmetry. apply (Z.mod_unique _ _ (v / 2 ^ (n + 1))); lia. }
      rewrite E. lia.
    + assert (Hd : w / 2 ^ n = 1).
      { symmetry. apply (Z.div_unique _ _ _ (w - 2 ^ n)); lia. }
      rewrite Hd. cbn [Z.eqb negb].
      assert (Hl : cast_ull (Z.lnot (Z.ones (n + 1))) = 2 ^ 64 - 2 ^ (n + 1)).
      { unfold cast_ull. rewrite Z.ones_equiv. unfold Z.lnot.
        symmetry. apply (Z.mod_unique _ _ (-1)).
        - change (2 ^ 64) with 18446744073709551616. lia.
        - lia. }
      rewrite Hl, lor_high_ones by lia.
      assert (E : (v + 2 ^ n) mod 2 ^ (n + 1) = w - 2 ^ n).
      { symmetry. apply (Z.mod_unique _ _ (v / 2 ^ (n + 1) + 1)); lia. }
      rewrite E. unfold cast_int.
      replace (w + (2 ^ 64 - 2 ^ (n + 1)) + 2 ^ 31)
        with (w - 2 ^ (n + 1) + 2 ^ 31 + 2 ^ 32 * 2 ^ 32)
        by (change (2 ^ 64) with (2 ^ 32 * 2 ^ 32); lia).
      rewrite Z.mod_add by lia. rewrite Z.mod_small; change (2 ^ 32) with 4294967296;
        change (2 ^ 31) with 2147483648; lia.
  - rewrite wrap_mask by lia. rewrite land_cast_ull_ones by lia.
    pose proof (Z.mod_pos_bound v (2 ^ n) ltac:(lia)).
    apply cast_int_small. change (2 ^ 31) with 2147483648. lia.
Qed.

(** ** Rounding and overflow modes: what each one computes *)



(** X2: dropping [d] fractional bits (1 <= d <= 30) under [RND::POS_INF]
    rounds to the nearest multiple of [2^d], a tie going up: the result is
    [floor((v + 2^(d-1)) / 2^d)]. *)
Theorem X2_POS_INF_rounds_half_up (fromFrac toFrac v : Z) :
  let d := fromFrac - toFrac in
  0 < d <= 30 -> - 2 ^ 62 <= v < 2 ^ 62 ->
  fracConvert fromFrac toFrac RND.POS_INF v = Ok ((v + 2 ^ (d - 1)) / 2 ^ d) /\
  fracConvertDynamic v fromFrac toFrac RND.POS_INF = Ok ((v + 2 ^ (d - 1)) / 2 ^ d).
Proof.
  intros d Hd Hv. cbn.
  assert (Hd30 : fromFrac - toFrac <= 30) by (unfold d in Hd; lia). frac_guards.
  rewrite fracConvert_POS_INF_spec by assumption. now split.
Qed.

Lemma X2_POS_INF_rounds_half_up_witness :
  fracConvert 3 0 RND.POS_INF 12 = Ok 2 /\ fracConvert 3 0 RND.POS_INF (-12) = Ok (-1).
Proof.
  split.
  - apply (X2_POS_INF_rounds_half_up 3 0 12); lia.
  - apply (X2_POS_INF_rounds_half_up 3 0 (-12)); lia.
Defined.

(** X3: under [RND::NEG_INF] the result is the nearest multiple, a tie
    going down: [ceil((v - 2^(d-1)) / 2^d)]. *)
Theorem X3_NEG_INF_rounds_half_down (fromFrac toFrac v : Z) :
  let d := fromFrac - toFrac in
  0 < d <= 30 -> - 2 ^ 62 <= v < 2 ^ 62 ->
  fracConvert fromFrac toFrac RND.NEG_INF v = Ok (- ((2 ^ (d - 1) - v) / 2 ^ d)) /\
  fracConvertDynamic v fromFrac toFrac RND.NEG_INF = Ok (- ((2 ^ (d - 1) - v) / 2 ^ d)).
Proof.
  intros d Hd Hv. cbn.
  assert (Hd30 : fromFrac - toFrac <= 30) by (unfold d in Hd; lia). frac_guards.
  rewrite fracConvert_NEG_INF_spec by assumption. now split.
Qed.

Lemma X3_NEG_INF_rounds_half_down_witness :
  fracConvert 3 0 RND.NEG_INF 12 = Ok 1 /\ fracConvert 3 0 RND.NEG_INF (-12) = Ok (-2) /\
  fracConvert 3 0 RND.NEG_INF 13 = Ok 2.
Proof.
  split; [|split].
  - apply (X3_NEG_INF_rounds_half_down 3 0 12); lia.
  - apply (X3_NEG_INF_rounds_half_down 3 0 (-12)); lia.
  - apply (X3_NEG_INF_rounds_half_down 3 0 13); lia.
Defined.

(** X4: under [RND::CONV] the result is the nearest multiple, and a tie
    goes to the even quotient: with [q = floor(v / 2^d)] and [r = v mod 2^d],
    it is [q] when [2r < 2^d], [q + 1] when [2r > 2^d], and at [2r = 2^d]
    the even one of [q] and [q + 1]. *)
Theorem X4_CONV_rounds_half_even (fromFrac toFrac v : Z) :
  let d := fromFrac - toFrac in
  let q := v / 2 ^ d in
  let r := v mod 2 ^ d in
  let nearest_even :=
    if 2 * r <? 2 ^ d then q else if 2 ^ d <? 2 * r then q + 1
    else if Z.even q then q else q + 1 in
  0 < d <= 30 -> - 2 ^ 62 <= v < 2 ^ 62 ->
  fracConvert fromFrac toFrac RND.CONV v = Ok nearest_even /\
  fracConvertDynamic v fromFrac toFrac RND.CONV = Ok nearest_even.
Proof.
  intros d q r ne Hd Hv. cbn.
  assert (Hd30 : fromFrac - toFrac <= 30) by (unfold d in Hd; lia). frac_guards.
  rewrite fracConvert_CONV_spec by assumption. now split.
Qed.

Lemma X4_CONV_rounds_half_even_witness :
  fracConvert 3 0 RND.CONV 12 = Ok 2 /\ fracConvert 3 0 RND.CONV 20 = Ok 2 /\
  fracConvert 3 0 RND.CONV (-12) = Ok (-2).
Proof.
  split; [|split].
  - apply (X4_CONV_rounds_half_even 3 0 12); lia.
  - apply (X4_CONV_rounds_half_even 3 0 20); lia.
  - apply (X4_CONV_rounds_half_even 3 0 (-12)); lia.
Defined.

(** X5: [RND::INF] compares no distances either: dropping [d] bits gives
    [floor(v / 2^d)] for [v < 0] and [floor(v / 2^d) + 1] for [v >= 0], so
    every non-negative value, a multiple of [2^d] included, moves one step
    up (0 becomes 1). *)
Theorem X5_INF_by_sign_only (fromFrac toFrac v : Z) :
  let d := fromFrac - toFrac in
  let r := if v <? 0 then v / 2 ^ d else v / 2 ^ d + 1 in
  0 < d <= 30 -> - 2 ^ 62 <= v < 2 ^ 62 ->
  fracConvert fromFrac toFrac RND.INF v = Ok r /\
  fracConvertDynamic v fromFrac toFrac RND.INF = Ok r.
Proof.
  intros d r Hd Hv. cbn.
  assert (Hd30 : fromFrac - toFrac <= 30) by (unfold d in Hd; lia). frac_guards.
  rewrite fracConvert_INF_spec by assumption. now split.
Qed.

Lemma X5_INF_by_sign_only_witness :
  fracConvert 3 0 RND.INF 0 = Ok 1 /\ fracConvert 3 0 RND.INF 8 = Ok 2 /\
  fracConvert 3 0 RND.INF (-9) = Ok (-2).
Proof.
  split; [|split].
  - apply (X5_INF_by_sign_only 3 0 0); lia.
  - apply (X5_INF_by_sign_only 3 0 8); lia.
  - apply (X5_INF_by_sign_only 3 0 (-9)); lia.
Defined.

(** X6: the two truncation modes, dropping [d] bits, [0 <= d <= 63], of a
    [long long int] value above [LLONG_MIN] (so that [-val] is one too):
    [TRN::TCPL] is the quotient rounded down, [floor(v / 2^d)], and
    [TRN::SMGN] the quotient rounded toward zero, in the static and in the
    dynamic conversion. *)
Theorem X6_TRN_floor_and_toward_zero (fromFrac toFrac v : Z) :
  0 <= fromFrac - toFrac <= 63 -> - 2 ^ 63 < v < 2 ^ 63 ->
  fracConvert fromFrac toFrac TRN.TCPL v = Ok (v / 2 ^ (fromFrac - toFrac)) /\
  fracConvertDynamic v fromFrac toFrac TRN.TCPL = Ok (v / 2 ^ (fromFrac - toFrac)) /\
  fracConvert fromFrac toFrac TRN.SMGN v = Ok (Z.quot v (2 ^ (fromFrac - toFrac))) /\
  fracConvertDynamic v fromFrac toFrac TRN.SMGN = Ok (Z.quot v (2 ^ (fromFrac - toFrac))).
Proof.
  intros Hd Hv. cbn. frac_guards.
  rewrite fracConvert_TCPL_spec, fracConvert_SMGN_spec by lia. repeat split.
Qed.

Lemma X6_TRN_floor_and_toward_zero_witness :
  fracConvert 3 0 TRN.TCPL (-9) = Ok (-2) /\ fracConvert 3 0 TRN.SMGN (-9) = Ok (-1).
Proof.
  destruct (X6_TRN_floor_and_toward_zero 3 0 (-9) ltac:(lia) ltac:(lia))
    as (H1 & _ & H2 & _).
  split; [exact H1 | exact H2].
Defined.

Lemma intConvert_in_format (i f : Z) (s : bool) (m v : Z) :
  0 <= i + f <= 31 -> 0 <= m <= 3 ->
  exists q, intConvert i f s m v = Ok q /\ intConvertDynamic v i f s m = Ok q /\
            (if s then - 2 ^ (i + f) else 0) <= q <= 2 ^ (i + f) - 1.
Proof.
  intros Hw Hm.
  assert (Hp : 0 < 2 ^ (i + f)) by (apply Z.pow_pos_nonneg; lia).
  assert (Hc : m = 0 \/ m = 1 \/ m = 2 \/ m = 3) by lia.
  destruct Hc as [->|[->|[->| ->]]]; cbn; eexists; (split; [reflexivity|]);
    (split; [reflexivity|]).
  - rewrite intConvert_SAT_TCPL_spec by exact Hw. destruct s; lia.
  - rewrite intConvert_SAT_ZERO_spec by exact Hw.
    destruct (Z.ltb_spec (2 ^ (i + f) - 1) v); cbn [orb]; [destruct s; lia|].
    destruct (Z.ltb_spec v (if s then - 2 ^ (i + f) else 0)); destruct s; lia.
  - rewrite intConvert_SAT_SMGN_spec by exact Hw. destruct s; lia.
  - rewrite intConvert_WRP_TCPL_spec by exact Hw.
    assert (Hpp : 2 ^ (i + f + 1) = 2 * 2 ^ (i + f)) by (rewrite Z.pow_add_r by lia; lia).
    destruct s.
    + pose proof (Z.mod_pos_bound (v + 2 ^ (i + f)) (2 ^ (i + f + 1)) ltac:(lia)). lia.
    + pose proof (Z.mod_pos_bound v (2 ^ (i + f)) ltac:(lia)). lia.
Qed.

(** X7: under each of the four implemented overflow modes, and whatever
    the input, [intConvert] (static and dynamic) returns a raw value inside
    the range of the target format: [-2^n .. 2^n - 1] when signed and
    [0 .. 2^n - 1] when not, [n = toInt + toFrac <= 31]. *)
Theorem X7_intConvert_result_in_range (i f : Z) (s : bool) (m v : Z) :
  0 <= i + f <= 31 -> 0 <= m <= 3 ->
  exists q, intConvert i f s m v = Ok q /\ intConvertDynamic v i f s m = Ok q /\
            (if s then - 2 ^ (i + f) else 0) <= q <= 2 ^ (i + f) - 1.
Proof. apply intConvert_in_format. Qed.

Lemma X7_intConvert_result_in_range_witness :
  exists q, intConvert 4 4 true SAT.SMGN (-100000) = Ok q /\ -256 <= q <= 255.
Proof.
  destruct (X7_intConvert_result_in_range 4 4 true 2 (-100000) ltac:(lia) ltac:(lia))
    as (q & Hq & _ & Hr).
  exists q. split; [exact Hq | exact Hr].
Defined.

(** X8: each of the four implemented overflow modes leaves a raw value
    that is inside the range of the target format as it is; under
    [SAT::SMGN] the range starts one above the minimum. *)
Theorem X8_intConvert_identity_in_range (i f : Z) (s : bool) (m v : Z) :
  0 <= i + f <= 31 -> 0 <= m <= 3 ->
  low_bound s (i + f) m <= v <= 2 ^ (i + f) - 1 ->
  intConvert i f s m v = Ok v /\ intConvertDynamic v i f s m = Ok v.
Proof.
  intros Hw Hm Hv.
  assert (H : intConvert i f s m v = Ok v) by now apply intConvert_in_range.
  split; [exact H|].
  assert (Hc : m = 0 \/ m = 1 \/ m = 2 \/ m = 3) by lia.
  destruct Hc as [->|[->|[->| ->]]]; exact H.
Qed.

Lemma X8_intConvert_identity_in_range_witness :
  intConvert 4 4 true WRP.TCPL (-256) = Ok (-256) /\
  intConvertDynamic (-256) 4 4 true WRP.TCPL = Ok (-256).
Proof.
  apply (X8_intConvert_identity_in_range 4 4 true 3 (-256)); vm_compute; split; discriminate.
Defined.

(** X9: what the three saturating modes return outside the range
    (formats of 1 to 31 bits): above the maximum, [SAT::TCPL] and
    [SAT::SMGN] return the maximum and [SAT::ZERO] returns 0; below the
    minimum, [SAT::TCPL] returns the minimum, [SAT::SMGN] one above it and
    [SAT::ZERO] returns 0.  In an unsigned format [SAT::SMGN] turns 0, which
    is in range, into 1. *)
Theorem X9_saturation_values (i f : Z) (s : bool) (v : Z) :
  let lo := if s then - 2 ^ (i + f) else 0 in
  let hi := 2 ^ (i + f) - 1 in
  1 <= i + f <= 31 ->
  (hi < v ->
   intConvert i f s SAT.TCPL v = Ok hi /\ intConvert i f s SAT.ZERO v = Ok 0 /\
   intConvert i f s SAT.SMGN v = Ok hi) /\
  (v < lo ->
   intConvert i f s SAT.TCPL v = Ok lo /\ intConvert i f s SAT.ZERO v = Ok 0 /\
   intConvert i f s SAT.SMGN v = Ok (lo + 1)) /\
  intConvert i f false SAT.SMGN 0 = Ok 1.
Proof.
  intros lo hi Hw.
  assert (Hp : 2 <= 2 ^ (i + f)).
  { change 2 with (2 ^ 1) at 1. apply Z.pow_le_mono_r; lia. }
  cbn. rewrite !intConvert_SAT_TCPL_spec, !intConvert_SAT_ZERO_spec,
    !intConvert_SAT_SMGN_spec by lia.
  fold lo hi. split; [|split].
  - intros Hv. split; [f_equal; unfold lo in *; destruct s; lia|]. split.
    + destruct (Z.ltb_spec hi v); [reflexivity|lia].
    + f_equal. unfold lo in *. destruct s; lia.
  - intros Hv. split; [f_equal; unfold lo, hi in *; destruct s; lia|]. split.
    + destruct (Z.ltb_spec hi v); [reflexivity|].
      destruct (Z.ltb_spec v lo); [reflexivity|lia].
    + f_equal. unfold lo, hi in *. destruct s; lia.
  - f_equal. unfold hi. lia.
Qed.

Lemma X9_saturation_values_witness :
  intConvert 4 4 true SAT.SMGN (-1000) = Ok (-255) /\
  intConvert 4 4 false SAT.SMGN 0 = Ok 1.
Proof.
  destruct (X9_saturation_values 4 4 true (-1000) ltac:(lia)) as (_ & H & _).
  destruct (X9_saturation_values 4 4 false 0 ltac:(lia)) as (_ & _ & H').
  split; [apply H; reflexivity | exact H'].
Defined.

(** X10: [WRP::TCPL] wraps: for a signed format of [n] bits the result is
    the representative of [v] modulo [2^(n+1)] in [-2^n .. 2^n - 1], for an
    unsigned one it is [v mod 2^n]. *)
Theorem X10_WRP_TCPL_wraps (i f : Z) (s : bool) (v : Z) :
  let n := i + f in
  let w := if s then (v + 2 ^ n) mod 2 ^ (n + 1) - 2 ^ n else v mod 2 ^ n in
  0 <= n <= 31 ->
  intConvert i f s WRP.TCPL v = Ok w /\ intConvertDynamic v i f s WRP.TCPL = Ok w.
Proof.
  intros n w Hw. cbn. rewrite intConvert_WRP_TCPL_spec by exact Hw. now split.
Qed.

Lemma X10_WRP_TCPL_wraps_witness :
  intConvert 4 4 true WRP.TCPL 256 = Ok (-256) /\
  intConvert 4 4 false WRP.TCPL 257 = Ok 1.
Proof.
  split.
  - apply (X10_WRP_TCPL_wraps 4 4 true 256); lia.
  - apply (X10_WRP_TCPL_wraps 4 4 false 257); lia.
Defined.

(** ** Scalars and real numbers *)

Lemma pow2Q_pow f : 0 <= f <= 30 -> pow2Q f = inject_Z (2 ^ f).
Proof. intros H. unfold pow2Q. now rewrite shl32_one. Qed.

Lemma Qtrunc_inject (x : Q) (k : Z) : (x == inject_Z k)%Q -> Qtrunc x = k.
Proof.
  unfold Qeq, Qtrunc. cbn. intros H. rewrite Z.mul_1_r in H. rewrite H.
  apply Z.quot_mul. discriminate.
Qed.

Lemma inject_pow2_nonzero f : 0 <= f -> ~ (inject_Z (2 ^ f) == 0)%Q.
Proof.
  intros Hf. unfold Qeq. cbn. rewrite Z.mul_1_r. apply Z.pow_nonzero; lia.
Qed.

Lemma toDouble_frac (q : Qu) :
  0 <= fracB (type q) <= 30 ->
  toDouble q = (inject_Z (data q) / inject_Z (2 ^ fracB (type q)))%Q.
Proof.
  intros Hf. unfold toDouble, toDoubleDynamic.
  destruct (Z.leb_spec 0 (fracB (type q))); [|lia]. now rewrite pow2Q_pow.
Qed.

Lemma in_range_int (s : bool) n m d :
  0 <= n <= 31 -> low_bound s n m <= d <= 2 ^ n - 1 -> - 2 ^ 31 <= d < 2 ^ 31.
Proof.
  intros Hn Hd. unfold low_bound in Hd.
  assert (Hp : 0 < 2 ^ n <= 2 ^ 31).
  { split; [apply Z.pow_pos_nonneg; lia|apply Z.pow_le_mono_r; lia]. }
  destruct s, (m =? SAT.SMGN); lia.
Qed.

Lemma wfT_width T : wfT T -> 0 <= intB T + fracB T <= 31.
Proof.
  intros (Ha & _). unfold Qu_s_assert in Ha. apply andb_prop in Ha as [H1 H2].
  apply Z.leb_le in H1, H2. lia.
Qed.

Lemma Qu_s_of_real_trunc (T : QuType) (x : Q) :
  wfT T -> 0 <= fracB T <= 30 ->
  low_bound (isS T) (intB T + fracB T) (OfM T)
    <= Qtrunc (x * inject_Z (2 ^ fracB T)) <= 2 ^ (intB T + fracB T) - 1 ->
  Qu_s_of_real T x = Ok (mkQu false T (Qtrunc (x * inject_Z (2 ^ fracB T)))).
Proof.
  intros Hwf Hf Hk. pose proof (wfT_width T Hwf) as Hw.
  destruct Hwf as (Ha & Hq & Ho).
  unfold Qu_s_of_real, static_assert. rewrite Ha. cbn [rbind].
  unfold inputDynamic. destruct (Z.leb_spec 0 (fracB T)); [|lia].
  rewrite pow2Q_pow by lia.
  pose proof (in_range_int _ _ _ _ Hw Hk) as Hi.
  rewrite cast_double_ll_ok by lia. cbn [rbind].
  rewrite fracConvert_same; [|exact Hq|lia]. cbn [rbind].
  rewrite intConvert_in_range by assumption. reflexivity.
Qed.

(** X11: reading a scalar as a real and constructing a scalar of the same
    type from that real gives the scalar back (formats with 0 to 30
    fractional bits, raw data in the range the overflow mode keeps). *)
Theorem X11_toDouble_roundtrip (T : QuType) (d : Z) :
  wfT T -> 0 <= fracB T <= 30 ->
  low_bound (isS T) (intB T + fracB T) (OfM T) <= d <= 2 ^ (intB T + fracB T) - 1 ->
  Qu_s_of_real T (toDouble (mkQu false T d)) = Ok (mkQu false T d).
Proof.
  intros Hwf Hf Hd. rewrite toDouble_frac by exact Hf. cbn [data type].
  assert (E : Qtrunc ((inject_Z d / inject_Z (2 ^ fracB T)) * inject_Z (2 ^ fracB T)) = d).
  { apply Qtrunc_inject. rewrite Qmult_comm. apply Qmult_div_r.
    apply inject_pow2_nonzero. lia. }
  rewrite Qu_s_of_real_trunc; rewrite ?E; try assumption. reflexivity.
Qed.

Lemma X11_toDouble_roundtrip_witness :
  let T := mkQuType 4 4 true RND.CONV SAT.SMGN in
  Qu_s_of_real T (toDouble (mkQu false T (-255))) = Ok (mkQu false T (-255)).
Proof.
  apply (X11_toDouble_roundtrip (mkQuType 4 4 true RND.CONV SAT.SMGN) (-255)).
  - vm_compute. repeat split; discriminate.
  - cbn. lia.
  - vm_compute. split; discriminate.
Defined.

(** X12: constructing a static scalar from a real [x] truncates
    [x * 2^f] toward zero, whatever the rounding mode of the type: the
    fractional conversion of the constructor goes from [f] bits to [f]
    bits, so no mode is applied (in range, the raw data is
    [trunc(x * 2^f)] under all seven modes). *)
Theorem X12_construction_truncates (i f : Z) (s : bool) (o : Z) (x : Q) :
  let k := Qtrunc (x * inject_Z (2 ^ f)) in
  0 <= i + f <= 31 -> 0 <= f <= 30 -> 0 <= o <= 3 ->
  low_bound s (i + f) o <= k <= 2 ^ (i + f) - 1 ->
  forall m, 0 <= m <= 6 ->
    Qu_s_of_real (mkQuType i f s m o) x = Ok (mkQu false (mkQuType i f s m o) k).
Proof.
  intros k Hw Hf Ho Hk m Hm.
  apply (Qu_s_of_real_trunc (mkQuType i f s m o) x); cbn [intB fracB isS OfM]; try assumption.
  unfold wfT, Qu_s_assert. cbn [intB fracB QuM OfM].
  split; [|split; assumption].
  apply andb_true_intro. split; apply Z.leb_le; lia.
Qed.

Lemma X12_construction_truncates_witness :
  Qu_s_of_real (mkQuType 4 4 true RND.POS_INF SAT.TCPL) (3 # 10) =
    Ok (mkQu false (mkQuType 4 4 true RND.POS_INF SAT.TCPL) 4) /\
  Qu_s_of_real (mkQuType 4 4 true TRN.TCPL SAT.TCPL) (- 3 # 10) =
    Ok (mkQu false (mkQuType 4 4 true TRN.TCPL SAT.TCPL) (-4)).
Proof.
  split.
  - apply (X12_construction_truncates 4 4 true 0 (3 # 10)); vm_compute;
      split; discriminate.
  - apply (X12_construction_truncates 4 4 true 0 (- 3 # 10)); vm_compute;
      split; discriminate.
Defined.

Lemma Qdiv_scale (a b c : Z) :
  0 < b -> 0 < c ->
  (inject_Z (a * c) / inject_Z (b * c) == inject_Z a / inject_Z b)%Q.
Proof.
  intros Hb Hc. rewrite !inject_Z_mult.
  assert (~ inject_Z b == 0)%Q by (unfold Qeq; cbn; lia).
  assert (~ inject_Z c == 0)%Q by (unfold Qeq; cbn; lia).
  field. split; assumption.
Qed.

(** X13: converting a scalar (static or dynamic) to a static type that has
    at least its integer bits and its fractional bits, and is signed if
    the source is, keeps the value: the raw data is multiplied by
    [2^(fracB T - fracB val)], under every rounding mode and every
    implemented overflow mode of the target ([SAT::SMGN] when the source
    has it too). *)
Theorem X13_widening_conversion_exact (T : QuType) (val : Qu) :
  let k := fracB T - fracB (type val) in
  wfT T ->
  0 <= intB (type val) + fracB (type val) ->
  0 <= k -> intB (type val) <= intB T ->
  (isS (type val) = true -> isS T = true) ->
  (OfM T = SAT.SMGN -> OfM (type val) = SAT.SMGN) ->
  in_range val ->
  Qu_s_from T val = Ok (mkQu false T (data val * 2 ^ k)) /\
  (0 <= fracB (type val) -> fracB T <= 30 ->
   (toDouble (mkQu false T (data val * 2 ^ k)) == toDouble val)%Q).
Proof.
  intros k Hwf Hv0 Hk Hi Hs Ho Hr. pose proof (wfT_width T Hwf) as Hw.
  destruct Hwf as (Ha & Hq & Hof).
  set (n := intB (type val) + fracB (type val)) in *.
  set (N := intB T + fracB T) in *.
  assert (Hpk : 0 < 2 ^ k) by (apply Z.pow_pos_nonneg; lia).
  assert (Hpn : 0 < 2 ^ n) by (apply Z.pow_pos_nonneg; lia).
  assert (HnN : 2 ^ (n + k) <= 2 ^ N) by (apply Z.pow_le_mono_r; unfold n, N, k in *; lia).
  assert (HpN : 2 ^ N <= 2 ^ 31) by (apply Z.pow_le_mono_r; lia).
  assert (Hnk : 2 ^ (n + k) = 2 ^ n * 2 ^ k) by (apply Z.pow_add_r; lia).
  destruct Hr as [Hlo Hhi]. fold n in Hlo, Hhi.
  assert (Hd : - 2 ^ n <= data val <= 2 ^ n - 1).
  { unfold low_bound in Hlo. destruct (isS (type val)), (OfM (type val) =? SAT.SMGN); lia. }
  assert (Hbound : low_bound (isS T) N (OfM T) <= data val * 2 ^ k <= 2 ^ N - 1).
  { unfold low_bound in *. split; [|nia].
    destruct (Z.eqb_spec (OfM T) SAT.SMGN) as [E|E].
    - rewrite (Ho E), Z.eqb_refl in Hlo.
      destruct (isS (type val)) eqn:Es.
      + rewrite (Hs eq_refl). nia.
      + destruct (isS T); nia.
    - destruct (isS (type val)) eqn:Es.
      + rewrite (Hs eq_refl). destruct (OfM (type val) =? SAT.SMGN); nia.
      + destruct (isS T), (OfM (type val) =? SAT.SMGN); nia. }
  assert (Hn31 : 2 ^ n <= 2 ^ 31) by (apply Z.pow_le_mono_r; unfold n, N, k in *; lia).
  assert (Hdk : - 2 ^ 31 <= data val * 2 ^ k < 2 ^ 31).
  { unfold low_bound in Hbound. destruct (isS T), (OfM T =? SAT.SMGN); lia. }
  change (2 ^ 31) with 2147483648 in *.
  split.
  - assert (Hconv :
      (do fracVal <- fracConvert (fracB (type val)) (fracB T) (QuM T) (cast_ll (data val));
       do d <- intConvert (intB T) (fracB T) (isS T) (OfM T) fracVal;
       Ok (mkQu false T d)) = Ok (mkQu false T (data val * 2 ^ k))).
    { rewrite cast_ll_small by (change (2 ^ 63) with 9223372036854775808; lia).
      rewrite fracConvert_widen;
        [|exact Hq|unfold k in Hk; lia|fold k; change (2 ^ 63) with 9223372036854775808; lia].
      cbn [rbind]. fold k. rewrite intConvert_in_range by assumption. reflexivity. }
    unfold Qu_s_from, static_assert. rewrite Ha. cbn [rbind].
    destruct (dynamic val).
    + rewrite fracConvertDynamic_static by (try exact Hq; unfold k in Hk; lia).
      rewrite <- Hconv.
      destruct (fracConvert _ _ _ _) as [fv|e]; cbn [rbind]; [|reflexivity].
      assert (Hc : OfM T = 0 \/ OfM T = 1 \/ OfM T = 2 \/ OfM T = 3) by lia.
      destruct Hc as [->|[->|[->| ->]]]; reflexivity.
    + destruct ((intB (type val) =? intB T) && (fracB (type val) =? fracB T)
                && Bool.eqb (isS (type val)) (isS T)) eqn:Esame; [|exact Hconv].
      apply andb_prop in Esame as [Esame _]. apply andb_prop in Esame as [_ Ef].
      apply Z.eqb_eq in Ef. replace k with 0 by (unfold k; lia).
      now rewrite Z.pow_0_r, Z.mul_1_r.
  - intros Hfv HfT. rewrite !toDouble_frac by (cbn [type fracB]; lia).
    cbn [data type]. replace (fracB T) with (fracB (type val) + k) by (unfold k; lia).
    rewrite Z.pow_add_r by lia. apply Qdiv_scale; [apply Z.pow_pos_nonneg; lia|exact Hpk].
Qed.

Lemma X13_widening_conversion_exact_witness :
  let T := mkQuType 8 8 true RND.CONV SAT.ZERO in
  let val := mkQu false (mkQuType 4 4 false TRN.TCPL SAT.TCPL) 255 in
  Qu_s_from T val = Ok (mkQu false T 4080).
Proof.
  destruct (X13_widening_conversion_exact (mkQuType 8 8 true RND.CONV SAT.ZERO)
              (mkQu false (mkQuType 4 4 false TRN.TCPL SAT.TCPL) 255)) as [H _].
  - vm_compute. repeat split; discriminate.
  - vm_compute. discriminate.
  - vm_compute. discriminate.
  - vm_compute. discriminate.
  - cbn. discriminate.
  - cbn. discriminate.
  - vm_compute. split; discriminate.
  - exact H.
Defined.

(** ** Scalar arithmetic *)

Lemma fromMode_comm m1 m2 d : fromMode m1 m2 d = fromMode m2 m1 d.
Proof.
  unfold fromMode. destruct (Z.eqb_spec m1 m2) as [->|H].
  - now rewrite Z.eqb_refl.
  - destruct (Z.eqb_spec m2 m1); [congruence|reflexivity].
Qed.

Lemma AddMerger_comm T1 T2 toArgs : AddMerger T1 T2 toArgs = AddMerger T2 T1 toArgs.
Proof.
  unfold AddMerger.
  rewrite (Z.max_comm (intB T1)), (Z.max_comm (fracB T1)), (orb_comm (isS T1)),
    (fromMode_comm (QuM T1)), (fromMode_comm (OfM T1)). reflexivity.
Qed.

Lemma MulMerger_comm T1 T2 toArgs : MulMerger T1 T2 toArgs = MulMerger T2 T1 toArgs.
Proof.
  unfold MulMerger.
  rewrite (Z.max_comm (intB T1)), (Z.max_comm (fracB T1)), (orb_comm (isS T1)),
    (fromMode_comm (QuM T1)), (fromMode_comm (OfM T1)),
    (Z.add_comm (intB T1)), (Z.add_comm (fracB T1)). reflexivity.
Qed.

Lemma dynMerger_comm mul T1 T2 toArgs : dynMerger mul T1 T2 toArgs = dynMerger mul T2 T1 toArgs.
Proof.
  unfold dynMerger.
  rewrite (Z.max_comm (intB T1)), (Z.max_comm (fracB T1)), (orb_comm (isS T1)),
    (Z.add_comm (intB T1)), (Z.add_comm (fracB T1)).
  f_equal.
  - destruct (hasTag sel_QuMode toArgs); [reflexivity|].
    destruct (Z.eqb_spec (QuM T1) (QuM T2)) as [->|H]; [now rewrite Z.eqb_refl|].
    destruct (Z.eqb_spec (QuM T2) (QuM T1)); [congruence|reflexivity].
  - destruct (hasTag sel_OfMode toArgs); [reflexivity|].
    destruct (Z.eqb_spec (OfM T1) (OfM T2)) as [->|H]; [now rewrite Z.eqb_refl|].
    destruct (Z.eqb_spec (OfM T2) (OfM T1)); [congruence|reflexivity].
Qed.

(** X15: [Qadd] and [Qmul] are commutative: for all template arguments and
    all operands, static or dynamic, swapping the operands gives the same
    result, format and error included. *)
Theorem X15_Qadd_Qmul_commute (toArgs : list TArg) (f1 f2 : Qu) :
  Qadd toArgs f1 f2 = Qadd toArgs f2 f1 /\ Qmul toArgs f1 f2 = Qmul toArgs f2 f1.
Proof.
  unfold Qadd, Qmul. rewrite (orb_comm (dynamic f2)).
  unfold Qadd_s.add, Qadd_s.add_dynamic, Qmul_s.mul, Qmul_s.mul_dynamic.
  rewrite (AddMerger_comm (type f2)), (MulMerger_comm (type f2)),
    (dynMerger_comm false (type f2)), (dynMerger_comm true (type f2)).
  rewrite (Z.max_comm (fracB (type f2))), (Z.add_comm (fracB (type f2))).
  rewrite (Z.mul_comm (cast_ll (data f2))).
  rewrite (Z.add_comm (cast_ll (shl32 (data f2) _))).
  split; reflexivity.
Qed.

(** X14: the full-precision product of two static scalars is exact.  With
    raw data in range, and not both at the minimum of a signed format,
    [Qmul<FullPrec>] returns the format (i1 + i2, f1 + f2) with the raw data
    [d1 * d2] (the sum of the widths being at most 31, or the call is
    rejected); its real view is the product of the real views. *)
Theorem X14_Qmul_FullPrec_exact (f1 f2 : Qu) :
  let n1 := intB (type f1) + fracB (type f1) in
  let n2 := intB (type f2) + fracB (type f2) in
  let m := MulMerger (type f1) (type f2) [FullPrec] in
  exact_operand (fracB (type f1)) f1 -> exact_operand (fracB (type f2)) f2 ->
  n1 + n2 <= 31 ->
  ~ (data f1 = - 2 ^ n1 /\ data f2 = - 2 ^ n2) ->
  Qmul [ArgTag FullPrec] f1 f2 = Ok (mkQu false (mergedType m) (data f1 * data f2)) /\
  intB (mergedType m) = intB (type f1) + intB (type f2) /\
  fracB (mergedType m) = fracB (type f1) + fracB (type f2) /\
  (0 <= fracB (type f1) -> 0 <= fracB (type f2) ->
   fracB (type f1) + fracB (type f2) <= 30 ->
   (toDouble (mkQu false (mergedType m) (data f1 * data f2))
    == toDouble f1 * toDouble f2)%Q).
Proof.
  intros n1 n2 m (Hd1 & Hw1 & _ & Hq1 & Ho1 & Hr1) (Hd2 & Hw2 & _ & Hq2 & Ho2 & Hr2) Hn Hmin.
  fold n1 in Hw1. fold n2 in Hw2. unfold in_range in Hr1, Hr2. fold n1 in Hr1. fold n2 in Hr2.
  assert (HtI : toInt m = intB (type f1) + intB (type f2)) by reflexivity.
  assert (HtF : toFrac m = fracB (type f1) + fracB (type f2)) by reflexivity.
  assert (HtS : toIsSigned m = isS (type f1) || isS (type f2)) by reflexivity.
  assert (HtO : toOfMode m = fromMode (OfM (type f1)) (OfM (type f2)) defaultOfMode)
    by reflexivity.
  assert (HtQ : toQuMode m = fromMode (QuM (type f1)) (QuM (type f2)) defaultQuMode)
    by reflexivity.
  assert (HN : toInt m + toFrac m = n1 + n2) by (rewrite HtI, HtF; unfold n1, n2; lia).
  assert (HA : 0 < 2 ^ n1) by (apply Z.pow_pos_nonneg; lia).
  assert (HB : 0 < 2 ^ n2) by (apply Z.pow_pos_nonneg; lia).
  assert (HAB : 2 ^ (n1 + n2) = 2 ^ n1 * 2 ^ n2) by (apply Z.pow_add_r; lia).
  assert (H31 : 2 ^ (n1 + n2) <= 2 ^ 31) by (apply Z.pow_le_mono_r; lia).
  assert (H31a : 2 ^ n1 <= 2 ^ 31) by (apply Z.pow_le_mono_r; lia).
  assert (H31b : 2 ^ n2 <= 2 ^ 31) by (apply Z.pow_le_mono_r; lia).
  destruct Hr1 as [Hlo1 Hhi1]. destruct Hr2 as [Hlo2 Hhi2].
  assert (Hb1 : - 2 ^ n1 <= data f1 <= 2 ^ n1 - 1).
  { unfold low_bound in Hlo1. destruct (isS (type f1)), (OfM (type f1) =? SAT.SMGN); lia. }
  assert (Hb2 : - 2 ^ n2 <= data f2 <= 2 ^ n2 - 1).
  { unfold low_bound in Hlo2. destruct (isS (type f2)), (OfM (type f2) =? SAT.SMGN); lia. }
  assert (Hup : data f1 * data f2 <= 2 ^ (n1 + n2) - 1).
  { rewrite HAB. destruct (Z.eq_dec (data f1) (- 2 ^ n1)) as [E1|E1].
    - assert (data f2 <> - 2 ^ n2) by tauto. nia.
    - nia. }
  assert (Hdown : - 2 ^ (n1 + n2) + 1 <= data f1 * data f2).
  { rewrite HAB. nia. }
  assert (Hbound : low_bound (toIsSigned m) (n1 + n2) (toOfMode m) <= data f1 * data f2
                   <= 2 ^ (n1 + n2) - 1).
  { split; [|exact Hup]. rewrite HtS, HtO. unfold low_bound, fromMode, defaultOfMode in *.
    unfold SAT.TCPL, SAT.SMGN in *.
    destruct (isS (type f1)), (isS (type f2)); cbn [orb];
      destruct (Z.eqb_spec (OfM (type f1)) (OfM (type f2))) as [E|E];
      try rewrite <- E in Hlo2;
      destruct (Z.eqb_spec (OfM (type f1)) 2); cbn [Z.eqb]; try lia; try nia;
      destruct (Z.eqb_spec (OfM (type f2)) 2); try lia; nia. }
  change (2 ^ 31) with 2147483648 in *.
  assert (Hres : Qmul [ArgTag FullPrec] f1 f2
                 = Ok (mkQu false (mergedType m) (data f1 * data f2))).
  { unfold Qmul. rewrite Hd1, Hd2. cbn [orb].
    change (MergerArgsWrapper [ArgTag FullPrec]) with [FullPrec].
    unfold Qmul_s.mul. fold m.
    assert (Hassert : Qu_s_assert (mergedType m) = true).
    { unfold Qu_s_assert, mergedType. cbn [intB fracB]. rewrite HN.
      apply andb_true_intro. split; apply Z.leb_le; lia. }
    unfold Qu_s, static_assert. rewrite Hassert. cbn [rbind].
    rewrite !cast_ll_small by (change (2 ^ 63) with 9223372036854775808; lia).
    rewrite HtF. rewrite fracConvert_same.
    2:{ rewrite HtQ. unfold fromMode, defaultQuMode, TRN.TCPL. destruct (_ =? _); lia. }
    2:{ change (2 ^ 63) with 9223372036854775808. lia. }
    cbn [rbind]. rewrite <- HtF. rewrite intConvert_in_range.
    - cbn [rbind]. rewrite cast_int_small; [reflexivity|].
      change (2 ^ 31) with 2147483648. lia.
    - rewrite HN. lia.
    - rewrite HtO. unfold fromMode, defaultOfMode, SAT.TCPL. destruct (_ =? _); lia.
    - rewrite HN. exact Hbound. }
  split; [exact Hres|]. split; [exact HtI|]. split; [exact HtF|].
  intros Hf1 Hf2 Hf. rewrite !toDouble_frac by (cbn [type mergedType fracB]; lia).
  cbn [data type mergedType fracB]. rewrite HtF, Z.pow_add_r by lia.
  rewrite !inject_Z_mult.
  pose proof (inject_pow2_nonzero (fracB (type f1)) Hf1).
  pose proof (inject_pow2_nonzero (fracB (type f2)) Hf2).
  field. split; assumption.
Qed.

Lemma X14_Qmul_FullPrec_exact_witness :
  let T := mkQuType 7 8 true TRN.TCPL SAT.TCPL in
  Qmul [ArgTag FullPrec] (mkQu false T (-32768)) (mkQu false T 32767) =
    Ok (mkQu false (mkQuType 14 16 true TRN.TCPL SAT.TCPL) (-1073709056)).
Proof.
  destruct (X14_Qmul_FullPrec_exact
              (mkQu false (mkQuType 7 8 true TRN.TCPL SAT.TCPL) (-32768))
              (mkQu false (mkQuType 7 8 true TRN.TCPL SAT.TCPL) 32767)) as [H _].
  - vm_compute. repeat split; discriminate.
  - vm_compute. repeat split; discriminate.
  - vm_compute. discriminate.
  - vm_compute. intros [_ H]. discriminate H.
  - exact H.
Defined.

(** X16: the full-precision difference of two static scalars, one of them
    at least signed, is exact: [Qsub<FullPrec>] returns the format
    (max(i1, i2) + 1, max(f1, f2)) with the raw data
    [d1 * 2^(F - f1) - d2 * 2^(F - f2)], [F = max(f1, f2)], when the
    operands are in range and that format has at most 31 bits; its real
    view is the difference of the real views. *)
Theorem X16_Qsub_FullPrec_exact (x y : Qu) :
  let Fr := Z.max (fracB (type x)) (fracB (type y)) in
  let m := AddMerger (type x) (type y) [FullPrec] in
  let diff := data x * 2 ^ (Fr - fracB (type x)) - data y * 2 ^ (Fr - fracB (type y)) in
  exact_operand Fr x -> exact_operand Fr y ->
  isS (type x) || isS (type y) = true ->
  Z.max (intB (type x)) (intB (type y)) + 1 + Fr <= 31 ->
  Qsub [ArgTag FullPrec] x y = Ok (mkQu false (mergedType m) diff) /\
  intB (mergedType m) = Z.max (intB (type x)) (intB (type y)) + 1 /\
  fracB (mergedType m) = Fr /\
  (0 <= fracB (type x) -> 0 <= fracB (type y) -> Fr <= 30 ->
   (toDouble (mkQu false (mergedType m) diff) == toDouble x - toDouble y)%Q).
Proof.
  intros Fr m diff Hx Hy Hsig Hfit.
  pose proof Hx as (Hdx & Hix & Hfx & Hqx & Hox & Hrx).
  pose proof Hy as (Hdy & Hiy & Hfy & Hqy & Hoy & Hry).
  set (N := Z.max (intB (type x)) (intB (type y)) + Fr) in *.
  assert (Hti : toInt m = Z.max (intB (type x)) (intB (type y)) + 1) by reflexivity.
  assert (Htf : toFrac m = Fr) by reflexivity.
  assert (Hts : toIsSigned m = isS (type x) || isS (type y)) by reflexivity.
  assert (HN : 0 <= N <= 30) by (unfold N, Fr in *; lia).
  assert (Hp : 0 < 2 ^ N <= 2 ^ 30).
  { split; [apply Z.pow_pos_nonneg; lia|apply Z.pow_le_mono_r; lia]. }
  change (2 ^ 30) with 1073741824 in Hp.
  assert (Hpp : 2 ^ (N + 1) = 2 * 2 ^ N) by (rewrite Z.pow_add_r by lia; lia).
  pose proof (aligned_bounds Fr N Fr x Hx ltac:(unfold Fr; lia) ltac:(unfold N; lia)) as Hax.
  pose proof (aligned_bounds Fr N Fr y Hy ltac:(unfold Fr; lia) ltac:(unfold N; lia)) as Hay.
  set (ax := data x * 2 ^ (Fr - fracB (type x))) in *.
  set (ay := data y * 2 ^ (Fr - fracB (type y))) in *.
  assert (Hax' : - 2 ^ N <= ax <= 2 ^ N - 1).
  { unfold low_bound in Hax. destruct (isS (type x)), (OfM (type x) =? SAT.SMGN); lia. }
  assert (Hay' : - 2 ^ N <= ay <= 2 ^ N - 1).
  { unfold low_bound in Hay. destruct (isS (type y)), (OfM (type y) =? SAT.SMGN); lia. }
  assert (Htq : 0 <= toQuMode m <= 6).
  { change (toQuMode m) with (fromMode (QuM (type x)) (QuM (type y)) defaultQuMode).
    unfold fromMode, defaultQuMode, TRN.TCPL. destruct (_ =? _); lia. }
  assert (Hto : 0 <= toOfMode m <= 3).
  { change (toOfMode m) with (fromMode (OfM (type x)) (OfM (type y)) defaultOfMode).
    unfold fromMode, defaultOfMode, SAT.TCPL. destruct (_ =? _); lia. }
  assert (Hdiff : low_bound (isS (type x) || isS (type y)) (N + 1) (toOfMode m) <= ax - ay
                  <= 2 ^ (N + 1) - 1).
  { rewrite Hsig. unfold low_bound in *.
    destruct (isS (type x)), (isS (type y)); cbn [orb] in Hsig; try discriminate;
      destruct (toOfMode m =? SAT.SMGN), (OfM (type x) =? SAT.SMGN),
        (OfM (type y) =? SAT.SMGN); lia. }
  assert (Hres : Qsub [ArgTag FullPrec] x y = Ok (mkQu false (mergedType m) (ax - ay))).
  { unfold Qsub. rewrite Hdx, Hdy. cbn [orb].
    change (MergerArgsWrapper [ArgTag FullPrec]) with [FullPrec].
    unfold Qsub_s.sub. fold m. cbn [head_not_Qu_s].
    assert (Hassert : Qu_s_assert (mergedType m) = true).
    { unfold Qu_s_assert, mergedType. cbn [intB fracB]. rewrite Hti, Htf.
      apply andb_true_intro. split; apply Z.leb_le; unfold N in HN; lia. }
    unfold Qu_s, static_assert. rewrite Hassert. cbn [rbind].
    assert (HsA : shiftA_of (fracB (type x)) (fracB (type y)) = Fr - fracB (type x)).
    { unfold shiftA_of, Fr. destruct (Z.ltb_spec (fracB (type x)) (fracB (type y))); lia. }
    assert (HsB : shiftB_of (fracB (type x)) (fracB (type y)) = Fr - fracB (type y)).
    { unfold shiftB_of, Fr. destruct (Z.ltb_spec (fracB (type y)) (fracB (type x))); lia. }
    rewrite HsA, HsB.
    rewrite (shl32_exact (data x)), (shl32_exact (data y));
      [| unfold Fr; lia | fold ay; change (2 ^ 31) with 2147483648; lia
       | unfold Fr; lia | fold ax; change (2 ^ 31) with 2147483648; lia].
    fold ax ay.
    rewrite !cast_ll_small by (change (2 ^ 63) with 9223372036854775808; lia).
    rewrite Htf. rewrite fracConvert_same;
      [| exact Htq | change (2 ^ 63) with 9223372036854775808; lia].
    cbn [rbind]. rewrite Hti, Hts.
    rewrite intConvert_in_range; [| unfold N in HN; lia | exact Hto | ].
    2:{ replace (Z.max (intB (type x)) (intB (type y)) + 1 + Fr) with (N + 1)
          by (unfold N; lia). exact Hdiff. }
    cbn [rbind].
    rewrite cast_int_small; [reflexivity|]. change (2 ^ 31) with 2147483648. lia. }
  split; [exact Hres|]. split; [exact Hti|]. split; [exact Htf|].
  intros H0x H0y H30. rewrite !toDouble_frac by (cbn [type mergedType fracB]; lia).
  cbn [data type mergedType fracB]. rewrite Htf. fold diff. unfold diff. fold ax ay.
  assert (Ex : (inject_Z ax / inject_Z (2 ^ Fr)
                == inject_Z (data x) / inject_Z (2 ^ fracB (type x)))%Q).
  { unfold ax. replace (2 ^ Fr) with (2 ^ fracB (type x) * 2 ^ (Fr - fracB (type x))).
    - apply Qdiv_scale; apply Z.pow_pos_nonneg; lia.
    - rewrite <- Z.pow_add_r by lia. f_equal. lia. }
  assert (Ey : (inject_Z ay / inject_Z (2 ^ Fr)
                == inject_Z (data y) / inject_Z (2 ^ fracB (type y)))%Q).
  { unfold ay. replace (2 ^ Fr) with (2 ^ fracB (type y) * 2 ^ (Fr - fracB (type y))).
    - apply Qdiv_scale; apply Z.pow_pos_nonneg; lia.
    - rewrite <- Z.pow_add_r by lia. f_equal. lia. }
  rewrite <- Ex, <- Ey. unfold Z.sub. rewrite inject_Z_plus, inject_Z_opp.
  pose proof (inject_pow2_nonzero Fr ltac:(unfold Fr; lia)). field. assumption.
Qed.

Lemma X16_Qsub_FullPrec_exact_witness :
  Qsub [ArgTag FullPrec] (mkQu false (mkQuType 4 4 false TRN.TCPL SAT.TCPL) 0)
                         (mkQu false (mkQuType 3 6 true RND.CONV WRP.TCPL) (-512)) =
    Ok (mkQu false (mkQuType 5 6 true TRN.TCPL SAT.TCPL) 512).
Proof.
  destruct (X16_Qsub_FullPrec_exact
              (mkQu false (mkQuType 4 4 false TRN.TCPL SAT.TCPL) 0)
              (mkQu false (mkQuType 3 6 true RND.CONV WRP.TCPL) (-512))) as [H _].
  - vm_compute. repeat split; discriminate.
  - vm_compute. repeat split; discriminate.
  - reflexivity.
  - vm_compute. discriminate.
  - exact H.
Defined.

(** ** Absolute value, negation, comparison *)

Lemma neg_int_ok x : - 2 ^ 31 < x -> neg_int x = Ok (- x).
Proof. intros H. unfold neg_int. destruct (Z.eqb_spec x (- 2 ^ 31)); [lia|reflexivity]. Qed.

(** X17: [Qabs] of a scalar in range, whose raw data is above [INT_MIN],
    has the raw data [|d|], the same fractional width and, for a signed
    operand, one more integer bit, so that [|d|] is in the range of the
    result (also for the minimum [-2^n] of a format of at most 30 bits).
    An unsigned operand is returned unchanged.  A static signed operand of
    31 bits has no result type: the call is rejected. *)
Theorem X17_Qabs_value (toArgs : list TArg) (f : Qu) :
  let n := intB (type f) + fracB (type f) in
  0 <= n <= 31 -> in_range f -> - 2 ^ 31 < data f ->
  (isS (type f) = true -> dynamic f = false -> n <= 30) ->
  exists r,
    Qabs toArgs f = Ok r /\
    data r = Z.abs (data f) /\
    dynamic r = dynamic f /\
    fracB (type r) = fracB (type f) /\
    intB (type r) = (if isS (type f) then intB (type f) + 1 else intB (type f)) /\
    0 <= data r <= 2 ^ (intB (type r) + fracB (type r)) - 1.
Proof.
  intros n Hn [Hlo Hhi] Hmin Hfit. fold n in Hlo, Hhi.
  assert (Hp : 0 < 2 ^ n <= 2 ^ 31).
  { split; [apply Z.pow_pos_nonneg; lia|apply Z.pow_le_mono_r; lia]. }
  assert (Hpp : 2 ^ (n + 1) = 2 * 2 ^ n) by (rewrite Z.pow_add_r by lia; lia).
  change (2 ^ 31) with 2147483648 in Hp.
  assert (Habs : (if data f <? 0 then neg_int (data f) else Ok (data f))
                 = Ok (Z.abs (data f))).
  { destruct (Z.ltb_spec (data f) 0); [rewrite neg_int_ok by exact Hmin|]; f_equal; lia. }
  unfold Qabs, Qabs_s.abs, Qabs_s.abs_dynamic. unfold low_bound in Hlo.
  destruct (isS (type f)) eqn:Es; cbn [negb].
  - assert (Hd : - 2 ^ n <= data f) by (destruct (OfM (type f) =? SAT.SMGN); lia).
    destruct (dynamic f) eqn:Ed.
    + rewrite Habs. cbn [rbind].
      eexists. split; [reflexivity|]. cbn [data dynamic type intB fracB].
      repeat split; try lia.
      replace (intB (type f) + 1 + fracB (type f)) with (n + 1) by (unfold n; lia). lia.
    + specialize (Hfit eq_refl eq_refl).
      assert (Hp30 : 2 ^ n <= 2 ^ 30) by (apply Z.pow_le_mono_r; lia).
      change (2 ^ 30) with 1073741824 in Hp30.
      rewrite Habs.
      unfold Qu_s, static_assert, Qu_s_assert. cbn [intB fracB].
      replace (intB (type f) + 1 + fracB (type f)) with (n + 1) by (unfold n; lia).
      destruct (Z.leb_spec 0 (n + 1)); [|lia]. destruct (Z.leb_spec (n + 1) 31); [|lia].
      cbn [andb rbind]. eexists. split; [reflexivity|]. cbn [data dynamic type intB fracB].
      rewrite cast_int_small by (change (2 ^ 31) with 2147483648; lia).
      repeat split; try lia.
      replace (intB (type f) + 1 + fracB (type f)) with (n + 1) by (unfold n; lia). lia.
  - assert (Hd : 0 <= data f) by (destruct (OfM (type f) =? SAT.SMGN); lia).
    exists f. split; [now destruct (dynamic f)|]. fold n. repeat split; lia.
Qed.

Lemma X17_Qabs_value_witness :
  let T := mkQuType 4 4 true TRN.TCPL SAT.TCPL in
  exists r, Qabs [] (mkQu false T (-256)) = Ok r /\ data r = 256 /\ intB (type r) = 5.
Proof.
  destruct (X17_Qabs_value [] (mkQu false (mkQuType 4 4 true TRN.TCPL SAT.TCPL) (-256)))
    as (r & Hr & Hd & _ & _ & Hi & _).
  - cbn. lia.
  - vm_compute. split; discriminate.
  - cbn. lia.
  - cbn. lia.
  - exists r. split; [exact Hr|]. split; [exact Hd | exact Hi].
Defined.

(** X18: [Qneg] (and the unary minus) of a scalar in range, whose raw data
    is above [INT_MIN], has the raw data [-d] in a signed format with one
    more integer bit, so negation never saturates or wraps: [-d] lies
    strictly inside the range of the result. *)
Theorem X18_Qneg_value (toArgs : list TArg) (f : Qu) :
  let n := intB (type f) + fracB (type f) in
  0 <= n <= 31 -> in_range f -> - 2 ^ 31 < data f ->
  (dynamic f = false -> n <= 30) ->
  exists r,
    Qneg toArgs f = Ok r /\ op_neg f = Ok r /\
    data r = - data f /\
    dynamic r = dynamic f /\
    type r = mkQuType (intB (type f) + 1) (fracB (type f)) true (QuM (type f)) (OfM (type f)) /\
    - 2 ^ (n + 1) < data r < 2 ^ (n + 1).
Proof.
  intros n Hn [Hlo Hhi] Hmin Hfit. fold n in Hlo, Hhi.
  assert (Hp : 0 < 2 ^ n <= 2 ^ 31).
  { split; [apply Z.pow_pos_nonneg; lia|apply Z.pow_le_mono_r; lia]. }
  assert (Hpp : 2 ^ (n + 1) = 2 * 2 ^ n) by (rewrite Z.pow_add_r by lia; lia).
  change (2 ^ 31) with 2147483648 in Hp.
  assert (Hd : - 2 ^ n <= data f).
  { unfold low_bound in Hlo. destruct (isS (type f)), (OfM (type f) =? SAT.SMGN); lia. }
  unfold op_neg, Qneg, Qneg_s.neg, Qneg_s.neg_dynamic.
  rewrite neg_int_ok by exact Hmin. cbn [rbind].
  destruct (dynamic f) eqn:Ed.
  - eexists. split; [reflexivity|]. split; [reflexivity|].
    cbn [data dynamic type]. repeat split; lia.
  - specialize (Hfit eq_refl).
    assert (Hp30 : 2 ^ n <= 2 ^ 30) by (apply Z.pow_le_mono_r; lia).
    change (2 ^ 30) with 1073741824 in Hp30.
    unfold Qu_s, static_assert, Qu_s_assert. cbn [intB fracB].
    replace (intB (type f) + 1 + fracB (type f)) with (n + 1) by (unfold n; lia).
    destruct (Z.leb_spec 0 (n + 1)); [|lia]. destruct (Z.leb_spec (n + 1) 31); [|lia].
    cbn [andb rbind]. eexists. split; [reflexivity|]. split; [reflexivity|].
    cbn [data dynamic type].
    rewrite cast_int_small by (change (2 ^ 31) with 2147483648; lia).
    repeat split; lia.
Qed.

Lemma X18_Qneg_value_witness :
  let T := mkQuType 4 4 true TRN.TCPL SAT.TCPL in
  exists r, Qneg [] (mkQu false T (-256)) = Ok r /\ data r = 256.
Proof.
  destruct (X18_Qneg_value [] (mkQu false (mkQuType 4 4 true TRN.TCPL SAT.TCPL) (-256)))
    as (r & Hr & _ & Hd & _).
  - cbn. lia.
  - vm_compute. split; discriminate.
  - cbn. lia.
  - cbn. lia.
  - exists r. split; [exact Hr | exact Hd].
Defined.

Lemma Qcompare_frac (a b c : Z) :
  0 < c -> (inject_Z a / inject_Z c ?= inject_Z b / inject_Z c)%Q = (a ?= b).
Proof.
  intros Hc. destruct c as [|p|p]; try lia.
  unfold Qcompare, QArith_base.Qdiv, Qmult, Qinv, inject_Z. cbn [Qnum Qden].
  rewrite !Z.mul_1_r, Pos.mul_1_l. symmetry. apply Zmult_compare_compat_r. lia.
Qed.

(** X19: the comparison of two scalars (static or dynamic, with 0 to 30
    fractional bits) is the comparison of their real views: [operator<=>]
    aligns the raw data to the larger fractional width and compares
    exactly, whatever the widths, signs and modes of the operands. *)
Theorem X19_cmp_is_real_order (f1 f2 : Qu) :
  0 <= fracB (type f1) <= 30 -> 0 <= fracB (type f2) <= 30 ->
  - 2 ^ 31 <= data f1 < 2 ^ 31 -> - 2 ^ 31 <= data f2 < 2 ^ 31 ->
  op_cmp f1 f2 = (toDouble f1 ?= toDouble f2)%Q.
Proof.
  intros Hf1 Hf2 Hd1 Hd2.
  set (Fr := Z.max (fracB (type f1)) (fracB (type f2))).
  assert (HsA : shiftA_of (fracB (type f1)) (fracB (type f2)) = Fr - fracB (type f1)).
  { unfold shiftA_of, Fr. destruct (Z.ltb_spec (fracB (type f1)) (fracB (type f2))); lia. }
  assert (HsB : shiftB_of (fracB (type f1)) (fracB (type f2)) = Fr - fracB (type f2)).
  { unfold shiftB_of, Fr. destruct (Z.ltb_spec (fracB (type f2)) (fracB (type f1))); lia. }
  assert (Hk : forall k, 0 <= k <= 30 -> 0 < 2 ^ k <= 2 ^ 30).
  { intros k Hk. split; [apply Z.pow_pos_nonneg; lia|apply Z.pow_le_mono_r; lia]. }
  pose proof (Hk (Fr - fracB (type f1)) ltac:(unfold Fr; lia)) as H1.
  pose proof (Hk (Fr - fracB (type f2)) ltac:(unfold Fr; lia)) as H2.
  change (2 ^ 30) with 1073741824 in *. change (2 ^ 31) with 2147483648 in *.
  assert (Hcode : op_cmp f1 f2 = (data f1 * 2 ^ (Fr - fracB (type f1))
                                  ?= data f2 * 2 ^ (Fr - fracB (type f2)))).
  { unfold op_cmp, Qcmp_s.cmp, Qcmp_s.cmp_dynamic. cbv zeta. rewrite HsA, HsB.
    rewrite !cast_ll_small by (change (2 ^ 63) with 9223372036854775808; lia).
    rewrite !shl64_exact by (try (unfold Fr; lia);
                             change (2 ^ 63) with 9223372036854775808; nia).
    now destruct (dynamic f1 || dynamic f2). }
  rewrite Hcode, !toDouble_frac by assumption.
  assert (E1 : (inject_Z (data f1) / inject_Z (2 ^ fracB (type f1))
                == inject_Z (data f1 * 2 ^ (Fr - fracB (type f1))) / inject_Z (2 ^ Fr))%Q).
  { replace (2 ^ Fr) with (2 ^ fracB (type f1) * 2 ^ (Fr - fracB (type f1))).
    - symmetry. apply Qdiv_scale; apply Z.pow_pos_nonneg; lia.
    - rewrite <- Z.pow_add_r by lia. f_equal. lia. }
  assert (E2 : (inject_Z (data f2) / inject_Z (2 ^ fracB (type f2))
                == inject_Z (data f2 * 2 ^ (Fr - fracB (type f2))) / inject_Z (2 ^ Fr))%Q).
  { replace (2 ^ Fr) with (2 ^ fracB (type f2) * 2 ^ (Fr - fracB (type f2))).
    - symmetry. apply Qdiv_scale; apply Z.pow_pos_nonneg; lia.
    - rewrite <- Z.pow_add_r by lia. f_equal. lia. }
  rewrite E1, E2. symmetry. apply Qcompare_frac. apply Z.pow_pos_nonneg; unfold Fr; lia.
Qed.

Lemma X19_cmp_is_real_order_witness :
  op_cmp (mkQu false (mkQuType 4 4 true TRN.TCPL SAT.TCPL) 24)
         (mkQu true (mkQuType 3 6 false RND.CONV WRP.TCPL) 97) = Lt.
Proof.
  rewrite (X19_cmp_is_real_order
             (mkQu false (mkQuType 4 4 true TRN.TCPL SAT.TCPL) 24)
             (mkQu true (mkQuType 3 6 false RND.CONV WRP.TCPL) 97));
    [reflexivity | cbn; lia | cbn; lia | cbn; lia | cbn; lia].
Defined.

Lemma fracConvert_cases a b m v :
  (exists r, fracConvert a b m v = Ok r) \/ fracConvert a b m v = Err CompileError \/
  fracConvert a b m v = Err UndefinedBehaviour.
Proof.
  unfold fracConvert, mask_constexpr, shr_defined. cbv zeta.
  repeat match goal with
         | |- context [if ?c then _ else _] => destruct c; cbn [rbind]
         end;
    first [left; eexists; reflexivity | right; left; reflexivity | right; right; reflexivity].
Qed.

Lemma fracConvert_same_cases a m v :
  (exists r, fracConvert a a m v = Ok r) \/ fracConvert a a m v = Err CompileError.
Proof.
  unfold fracConvert. cbv zeta. rewrite Z.sub_diag.
  repeat match goal with
         | |- context [if ?c then _ else _] => destruct c; cbn [rbind]
         end;
    first [left; eexists; reflexivity | right; reflexivity].
Qed.

Lemma inputDynamic_cases (x : Q) (n : Z) :
  (exists r, inputDynamic x n = Ok r) \/ inputDynamic x n = Err UndefinedBehaviour.
Proof.
  unfold inputDynamic, cast_double_ll. cbv zeta.
  repeat match goal with
         | |- context [if ?c then _ else _] => destruct c; cbn [rbind]
         end;
    first [left; eexists; reflexivity | right; reflexivity].
Qed.

(** X20: the overflow mode [WRP::TCPL_SAT] cannot be used.  Whenever a
    static [Qmul], [Qadd], [Qsub] or (with a nonzero divisor) [Qdiv] is
    given [OfMode<WRP::TCPL_SAT<N>>] among its template arguments, a call
    that the compiler accepts and whose arithmetic is defined throws
    "Very cool, coming soon"; so does the construction, from a number, of
    a scalar whose type has that mode. *)
Theorem X20_TCPL_SAT_throws (toArgs : list TArg) (f1 f2 : Qu) :
  let thrown := Err (RuntimeError "Very cool, coming soon") in
  let accepted_and_defined (r : result Qu) :=
    r <> Err CompileError /\ r <> Err UndefinedBehaviour in
  dynamic f1 = false -> dynamic f2 = false ->
  hasTag sel_OfMode (MergerArgsWrapper toArgs) = true ->
  tagExtractor sel_OfMode defaultOfMode (MergerArgsWrapper toArgs) = WRP.TCPL_SAT ->
  (accepted_and_defined (Qmul toArgs f1 f2) -> Qmul toArgs f1 f2 = thrown) /\
  (accepted_and_defined (Qadd toArgs f1 f2) -> Qadd toArgs f1 f2 = thrown) /\
  (accepted_and_defined (Qsub toArgs f1 f2) -> Qsub toArgs f1 f2 = thrown) /\
  (data f2 <> 0 -> accepted_and_defined (Qdiv toArgs f1 f2) ->
   Qdiv toArgs f1 f2 = thrown) /\
  (forall (T : QuType) (x : Q),
      OfM T = WRP.TCPL_SAT ->
      accepted_and_defined (Qu_s_of_real T x) -> Qu_s_of_real T x = thrown).
Proof.
  intros thrown acc Hd1 Hd2 Hhas Hm.
  assert (Hext : forall d, tagExtractor sel_OfMode d (MergerArgsWrapper toArgs)
                           = WRP.TCPL_SAT).
  { intros d. rewrite <- Hm. revert Hhas. generalize (MergerArgsWrapper toArgs).
    induction l as [|t l IH]; cbn; [discriminate|].
    destruct (sel_OfMode t); [reflexivity|]. cbn. exact IH. }
  assert (HA : toOfMode (AddMerger (type f1) (type f2) (MergerArgsWrapper toArgs))
               = WRP.TCPL_SAT) by apply Hext.
  assert (HM : toOfMode (MulMerger (type f1) (type f2) (MergerArgsWrapper toArgs))
               = WRP.TCPL_SAT) by apply Hext.
  unfold acc, Qmul, Qadd, Qsub, Qdiv. rewrite Hd1, Hd2. cbn [orb].
  unfold Qmul_s.mul, Qadd_s.add, Qsub_s.sub, Qdiv_s.div, Qu_s_of_real. rewrite HA, HM.
  unfold static_assert.
  split; [|split; [|split; [|split; [intros Hnz|intros T x HT; rewrite HT]]]];
    repeat match goal with
      | |- context [if ?b then Ok tt else Err CompileError] => destruct b; cbn [rbind]
      | |- context [inputDynamic ?v ?n] =>
          destruct (inputDynamic_cases v n) as [(? & ->)| ->]; cbn [rbind]
      | |- context [fracConvert ?a ?a ?m ?v] =>
          destruct (fracConvert_same_cases a m v) as [(? & ->)| ->]; cbn [rbind]
      | |- context [fracConvert ?a ?b ?m ?v] =>
          destruct (fracConvert_cases a b m v) as [(? & ->)|[->| ->]]; cbn [rbind]
      | |- context [data f2 =? 0] => destruct (Z.eqb_spec (data f2) 0); [contradiction|]
      | |- context [shl_defined ?n] =>
          let E := fresh in
          destruct (shl_defined n) as [[]|?] eqn:E; cbn [rbind];
          [|unfold shl_defined in E; destruct (_ || _); [injection E as <-|discriminate]]
      | |- context [div_ll ?a ?b] =>
          let E := fresh in
          destruct (div_ll a b) eqn:E; cbn [rbind];
          [|unfold div_ll in E; destruct (_ || _); [injection E as <-|discriminate]]
      end.
  all: try (intros [Hc Hu]; cbn in Hc, Hu |- *;
            first [reflexivity | exfalso; apply Hc; reflexivity
                  | exfalso; apply Hu; reflexivity]).
Qed.

Lemma X20_TCPL_SAT_throws_witness :
  let T := mkQuType 4 4 true TRN.TCPL WRP.TCPL_SAT in
  Qadd [ArgQu T] (mkQu false T 1) (mkQu false T 1)
    = Err (RuntimeError "Very cool, coming soon") /\
  Qmul [ArgTag (OfMode WRP.TCPL_SAT)]
       (mkQu false (mkQuType 4 4 true TRN.TCPL SAT.TCPL) 1)
       (mkQu false (mkQuType 4 4 true TRN.TCPL SAT.TCPL) 1)
    = Err (RuntimeError "Very cool, coming soon").
Proof.
  split.
  - destruct (X20_TCPL_SAT_throws [ArgQu (mkQuType 4 4 true TRN.TCPL WRP.TCPL_SAT)]
                (mkQu false (mkQuType 4 4 true TRN.TCPL WRP.TCPL_SAT) 1)
                (mkQu false (mkQuType 4 4 true TRN.TCPL WRP.TCPL_SAT) 1)
                eq_refl eq_refl eq_refl eq_refl) as (_ & H & _).
    apply H. split; vm_compute; discriminate.
  - destruct (X20_TCPL_SAT_throws [ArgTag (OfMode WRP.TCPL_SAT)]
                (mkQu false (mkQuType 4 4 true TRN.TCPL SAT.TCPL) 1)
                (mkQu false (mkQuType 4 4 true TRN.TCPL SAT.TCPL) 1)
                eq_refl eq_refl eq_refl eq_refl) as (H & _).
    apply H. split; vm_compute; discriminate.
Defined.
(** ** Kernels *)



Lemma count_prim_app p (l1 l2 : list Prim) :
  count_prim p (l1 ++ l2) = (count_prim p l1 + count_prim p l2)%nat.
Proof. unfold count_prim. now rewrite filter_app, length_app. Qed.

(** A row with [n] terms: [n + 1] multiplications and [n] subtractions. *)
Lemma spec_ops_row_count (n : nat) :
  count_prim PMul (spec_ops_row n) = (n + 1)%nat /\
  count_prim PSub (spec_ops_row n) = n /\
  length (spec_ops_row n) = (2 * n + 1)%nat.
Proof.
  unfold spec_ops_row. rewrite !count_prim_app, length_app.
  assert (H : count_prim PMul (concat (replicate n [PMul; PSub])) = n /\
              count_prim PSub (concat (replicate n [PMul; PSub])) = n /\
              length (concat (replicate n [PMul; PSub])) = (2 * n)%nat).
  { induction n as [|n (IH1 & IH2 & IH3)]; [repeat split|].
    cbn [replicate concat]. rewrite !count_prim_app, length_app, IH1, IH2, IH3.
    change (count_prim PMul [PMul; PSub]) with 1%nat.
    change (count_prim PSub [PMul; PSub]) with 1%nat.
    cbn [length]. repeat split; lia. }
  destruct H as (-> & -> & ->).
  change (count_prim PMul [PMul]) with 1%nat. change (count_prim PSub [PMul]) with 0%nat.
  cbn [length]. repeat split; lia.
Qed.

Lemma rows_count (n : nat) :
  (2 * count_prim PMul (flat_map spec_ops_row (seq 0 n)) = n * (n + 1))%nat /\
  (2 * count_prim PSub (flat_map spec_ops_row (seq 0 n)) = n * (n - 1))%nat /\
  length (flat_map spec_ops_row (seq 0 n)) = (n * n)%nat.
Proof.
  induction n as [|n (IH1 & IH2 & IH3)]; [repeat split|].
  rewrite seq_S, flat_map_app. cbn [flat_map Nat.add].
  rewrite app_nil_r, !count_prim_app, length_app.
  destruct (spec_ops_row_count n) as (-> & -> & ->).
  split; [lia|]. split; [|lia]. destruct n; [reflexivity|]. cbn [Nat.sub] in *. lia.
Qed.

Lemma spec_potrs_ops_count (row : nat) :
  count_prim PMul (spec_potrs_ops row) = (row * (row + 1))%nat /\
  count_prim PSub (spec_potrs_ops row) = (row * (row - 1))%nat /\
  length (spec_potrs_ops row) = (2 * row * row)%nat.
Proof.
  unfold spec_potrs_ops. rewrite !count_prim_app, length_app.
  destruct (rows_count row) as (H1 & H2 & H3). repeat split; lia.
Qed.



(** ** Results stay in their format *)

Lemma intConvert_Ok_mode i f s m v q : intConvert i f s m v = Ok q -> 0 <= m <= 3.
Proof.
  unfold intConvert, SAT.TCPL, SAT.ZERO, SAT.SMGN, WRP.TCPL, WRP.TCPL_SAT.
  destruct (Z.eqb_spec m 0); [lia|]. destruct (Z.eqb_spec m 1); [lia|].
  destruct (Z.eqb_spec m 2); [lia|]. destruct (Z.eqb_spec m 3); [lia|].
  destruct (m =? 4); discriminate.
Qed.

Lemma Qu_s_in_format (T : QuType) (i f : Z) (s : bool) (m v : Z) (r : Qu) :
  intB T = i -> fracB T = f -> isS T = s ->
  (do q <- intConvert i f s m v; Qu_s T q) = Ok r ->
  dynamic r = false /\ type r = T /\ 0 <= intB T + fracB T <= 31 /\
  (if isS T then - 2 ^ (intB T + fracB T) else 0) <= data r
    <= 2 ^ (intB T + fracB T) - 1.
Proof.
  intros Hi Hf Hs. destruct (intConvert i f s m v) as [q|e] eqn:Eq; cbn [rbind]; [|discriminate].
  unfold Qu_s, static_assert. destruct (Qu_s_assert T) eqn:Ea; cbn [rbind]; [|discriminate].
  intros [= <-]. cbn [dynamic type data].
  unfold Qu_s_assert in Ea. apply andb_prop in Ea as [H1 H2]. apply Z.leb_le in H1, H2.
  pose proof (intConvert_Ok_mode _ _ _ _ _ _ Eq) as Hm.
  rewrite Hi, Hf, Hs in *.
  destruct (intConvert_in_format i f s m v ltac:(lia) Hm) as (q' & Eq' & _ & Hr).
  rewrite Eq in Eq'. injection Eq' as <-.
  rewrite (intConvert_cast _ _ _ _ _ _ Eq). repeat split; lia.
Qed.

(** X23: the results of the static primitives stay in their format.
    Whenever [Qmul], [Qadd], [Qsub] or [Qdiv] on two static scalars returns
    a value, for any template arguments and any raw data of the operands,
    the value is static, its format has 0 to 31 bits, and its raw data is
    inside the range of that format. *)
Theorem X23_static_results_in_format (toArgs : list TArg) (f1 f2 r : Qu) :
  dynamic f1 = false -> dynamic f2 = false ->
  Qmul toArgs f1 f2 = Ok r \/ Qadd toArgs f1 f2 = Ok r \/
  Qsub toArgs f1 f2 = Ok r \/ Qdiv toArgs f1 f2 = Ok r ->
  let n := intB (type r) + fracB (type r) in
  dynamic r = false /\ 0 <= n <= 31 /\
  (if isS (type r) then - 2 ^ n else 0) <= data r <= 2 ^ n - 1.
Proof.
  intros Hd1 Hd2 H. unfold Qmul, Qadd, Qsub, Qdiv in H. rewrite Hd1, Hd2 in H.
  cbn [orb] in H. unfold Qmul_s.mul, Qadd_s.add, Qsub_s.sub, Qdiv_s.div in H.
  assert (Hgoal : exists T, dynamic r = false /\ type r = T /\ 0 <= intB T + fracB T <= 31 /\
            (if isS T then - 2 ^ (intB T + fracB T) else 0) <= data r
              <= 2 ^ (intB T + fracB T) - 1).
  { destruct H as [H|[H|[H|H]]];
      repeat match type of H with
        | rbind (static_assert ?b) _ = Ok _ =>
            destruct (static_assert b); cbn [rbind] in H; [|discriminate]
        | rbind (fracConvert ?a ?b ?m ?v) _ = Ok _ =>
            destruct (fracConvert a b m v); cbn [rbind] in H; [|discriminate]
        end.
    - eexists. eapply Qu_s_in_format; [| | |exact H]; reflexivity.
    - eexists. eapply Qu_s_in_format; [| | |exact H]; reflexivity.
    - eexists. eapply Qu_s_in_format; [| | |exact H]; reflexivity.
    - destruct (data f2 =? 0).
      + unfold Qu_s, static_assert in H.
        destruct (Qu_s_assert _) eqn:Ea; cbn [rbind] in H; [|discriminate].
        injection H as <-. eexists. cbn [dynamic type data].
        unfold Qu_s_assert in Ea. apply andb_prop in Ea as [H1 H2].
        apply Z.leb_le in H1, H2. split; [reflexivity|]. split; [reflexivity|].
        split; [lia|].
        match goal with
        | |- context [2 ^ ?n] => assert (0 < 2 ^ n) by (apply Z.pow_pos_nonneg; lia)
        end.
        change (cast_int 0) with 0. destruct (isS _); lia.
      + repeat match type of H with
               | rbind (shl_defined ?n) _ = Ok _ =>
                   destruct (shl_defined n); cbn [rbind] in H; [|discriminate]
               | rbind (div_ll ?a ?b) _ = Ok _ =>
                   destruct (div_ll a b); cbn [rbind] in H; [|discriminate]
               end.
        eexists. eapply Qu_s_in_format; [| | |exact H]; reflexivity. }
  destruct Hgoal as (T & Hd & -> & Hw & Hr). cbv zeta. repeat split; tauto || lia.
Qed.

Lemma X23_static_results_in_format_witness :
  let T := mkQuType 4 4 true TRN.TCPL SAT.TCPL in
  exists r, Qmul [] (mkQu false T 255) (mkQu false T 255) = Ok r /\ -256 <= data r <= 255.
Proof.
  exists (mkQu false (mkQuType 4 4 true TRN.TCPL SAT.TCPL) 255).
  split; [reflexivity|].
  apply (X23_static_results_in_format []
           (mkQu false (mkQuType 4 4 true TRN.TCPL SAT.TCPL) 255)
           (mkQu false (mkQuType 4 4 true TRN.TCPL SAT.TCPL) 255)
           (mkQu false (mkQuType 4 4 true TRN.TCPL SAT.TCPL) 255));
    [reflexivity | reflexivity | left; reflexivity].
Defined.

(** ** The lookup table *)

(** X26: [Qtable<func>(x)] returns, in the type of [x], the value
    [func(x)] truncated toward zero: its raw data is
    [trunc(func(x) * 2^f)] whenever that is in the range of the type.  The
    interior type of the table names [RND::ZERO], but the table goes
    through the constructor from a number, which applies no rounding
    mode. *)
Theorem X26_Qtable_truncates (func : Q -> Q) (x : Qu) :
  let T := type x in
  let k := Qtrunc (func (toDouble x) * inject_Z (2 ^ fracB T)) in
  wfT T -> 0 <= fracB T <= 30 ->
  low_bound (isS T) (intB T + fracB T) (OfM T) <= k <= 2 ^ (intB T + fracB T) - 1 ->
  ANUS.Qtable func x = Ok (mkQu false T k).
Proof.
  intros T k Hwf Hf Hk. pose proof (wfT_width T Hwf) as Hw.
  destruct Hwf as (Ha & Hq & Ho).
  unfold ANUS.Qtable. fold T.
  rewrite (Qu_s_of_real_trunc (mkQuType (intB T) (fracB T) (isS T) RND.ZERO (OfM T))).
  - cbn [rbind data fracB]. fold k. unfold Qu_s, static_assert. rewrite Ha. cbn [rbind].
    rewrite cast_int_small; [reflexivity|]. eapply in_range_int; eassumption.
  - unfold wfT, Qu_s_assert. cbn [intB fracB QuM OfM]. split; [exact Ha|].
    split; [unfold RND.ZERO; lia | exact Ho].
  - exact Hf.
  - exact Hk.
Qed.

Lemma X26_Qtable_truncates_witness :
  let T := mkQuType 4 4 true RND.POS_INF SAT.TCPL in
  ANUS.Qtable (fun x => x * (3 # 10))%Q (mkQu false T 16) = Ok (mkQu false T 4).
Proof.
  apply (X26_Qtable_truncates (fun x => x * (3 # 10))%Q
           (mkQu false (mkQuType 4 4 true RND.POS_INF SAT.TCPL) 16)).
  - vm_compute. repeat split; discriminate.
  - cbn. lia.
  - vm_compute. split; discriminate.
Defined.

(** ** Template arguments *)

(** X27: of several tags of one kind in a template argument list the
    first one is used: the arguments after a tag of the wanted kind, and
    the default, play no part; without a tag of that kind the default is
    returned. *)
Theorem X27_tagExtractor_first_match {A : Type} (sel : Tag -> option A)
    (before after : list Tag) (t : Tag) (v default : A) :
  hasTag sel before = false -> sel t = Some v ->
  tagExtractor sel default (before ++ t :: after) = v /\
  tagExtractor sel default before = default /\
  hasTag sel (before ++ t :: after) = true.
Proof.
  intros Hb Ht. induction before as [|b before IH]; cbn.
  - rewrite Ht. repeat split.
  - cbn in Hb. destruct (sel b); [discriminate|]. apply IH. exact Hb.
Qed.

Lemma X27_tagExtractor_first_match_witness :
  tagExtractor sel_intBits 12 [FullPrec; intBits 4; fracBits 2; intBits 8] = 4.
Proof.
  apply (X27_tagExtractor_first_match sel_intBits [FullPrec] [fracBits 2; intBits 8]
           (intBits 4) 4 12); reflexivity.
Defined.

(** ** Error bounds, order and idempotence of the conversions *)

(** The error of a conversion that drops [d] bits, in units of the source:
    at most half a step of the target for the three nearest modes, less
    than a step downward for [TRN::TCPL], less than a step toward zero for
    [TRN::SMGN]. *)
Lemma fracConvert_error (fromFrac toFrac m v r : Z) :
  0 < fromFrac - toFrac <= 30 -> - 2 ^ 62 <= v < 2 ^ 62 ->
  fracConvert fromFrac toFrac m v = Ok r ->
  (m = RND.POS_INF \/ m = RND.NEG_INF \/ m = RND.CONV ->
   2 * Z.abs (v - r * 2 ^ (fromFrac - toFrac)) <= 2 ^ (fromFrac - toFrac)) /\
  (m = TRN.TCPL -> 0 <= v - r * 2 ^ (fromFrac - toFrac) < 2 ^ (fromFrac - toFrac)) /\
  (m = TRN.SMGN ->
   Z.abs (v - r * 2 ^ (fromFrac - toFrac)) < 2 ^ (fromFrac - toFrac) /\
   Z.abs (r * 2 ^ (fromFrac - toFrac)) <= Z.abs v).
Proof.
  intros Hd Hv Hr. unfold fracConvert in Hr. cbv zeta in Hr. frac_guards_in Hr.
  set (d := fromFrac - toFrac) in *.
  destruct (frac_split d v ltac:(lia)) as (Hv' & Hrem & H2 & Hh & Hq).
  set (q := v / 2 ^ d) in *. set (rm := v mod 2 ^ d) in *. set (h := 2 ^ (d - 1)) in *.
  assert (HD : 0 < 2 ^ d) by lia.
  split; [|split].
  - intros [-> | [-> | ->]]; cbn in Hr; injection Hr as <-.
    + rewrite fracConvert_POS_INF_spec by assumption. fold d h.
      pose proof (Z.mul_div_le (v + h) (2 ^ d) HD).
      pose proof (Z.mul_succ_div_gt (v + h) (2 ^ d) HD). lia.
    + rewrite fracConvert_NEG_INF_spec by assumption. fold d h.
      pose proof (Z.mul_div_le (h - v) (2 ^ d) HD).
      pose proof (Z.mul_succ_div_gt (h - v) (2 ^ d) HD). lia.
    + rewrite fracConvert_CONV_spec by assumption. fold d q rm.
      destruct (Z.ltb_spec (2 * rm) (2 ^ d)); [lia|].
      destruct (Z.ltb_spec (2 ^ d) (2 * rm)); [lia|].
      destruct (Z.even q); lia.
  - intros ->. cbn in Hr. injection Hr as <-.
    rewrite fracConvert_TCPL_spec by lia. fold d q. lia.
  - intros ->. cbn in Hr. injection Hr as <-.
    rewrite fracConvert_SMGN_spec by lia. fold d.
    destruct (Z.le_gt_cases 0 v) as [Hp|Hn].
    + pose proof (Z.quot_rem v (2 ^ d) ltac:(lia)) as Hqr.
      pose proof (Z.rem_bound_pos v (2 ^ d) Hp HD).
      pose proof (Z.quot_pos v (2 ^ d) Hp HD).
      set (t := Z.quot v (2 ^ d)) in *. set (u := Z.rem v (2 ^ d)) in *.
      assert (0 <= t * 2 ^ d) by nia. lia.
    + assert (E : Z.quot v (2 ^ d) = - Z.quot (- v) (2 ^ d)).
      { rewrite <- Z.quot_opp_l by lia. f_equal. lia. }
      rewrite E.
      pose proof (Z.quot_rem (- v) (2 ^ d) ltac:(lia)) as Hqr.
      pose proof (Z.rem_bound_pos (- v) (2 ^ d) ltac:(lia) HD).
      pose proof (Z.quot_pos (- v) (2 ^ d) ltac:(lia) HD).
      set (t := Z.quot (- v) (2 ^ d)) in *. set (u := Z.rem (- v) (2 ^ d)) in *.
      assert (0 <= t * 2 ^ d) by nia. lia.
Qed.

(** X28: the quantization error.  Dropping [d] fractional bits (1 to
    30) changes the value by at most half a step of the target under
    [RND::POS_INF], [RND::NEG_INF] and [RND::CONV], by less than a step
    downward under [TRN::TCPL], and by less than a step toward zero under
    [TRN::SMGN], which never increases the magnitude. *)
Theorem X28_quantization_error (fromFrac toFrac m v r : Z) :
  let D := 2 ^ (fromFrac - toFrac) in
  0 < fromFrac - toFrac <= 30 -> - 2 ^ 62 <= v < 2 ^ 62 ->
  fracConvert fromFrac toFrac m v = Ok r ->
  (m = RND.POS_INF \/ m = RND.NEG_INF \/ m = RND.CONV -> 2 * Z.abs (v - r * D) <= D) /\
  (m = TRN.TCPL -> 0 <= v - r * D < D) /\
  (m = TRN.SMGN -> Z.abs (v - r * D) < D /\ Z.abs (r * D) <= Z.abs v).
Proof. intros D. apply fracConvert_error. Qed.

Lemma X28_quantization_error_witness :
  2 * Z.abs (-13 - (-2) * 2 ^ 3) <= 2 ^ 3.
Proof.
  destruct (X28_quantization_error 3 0 RND.CONV (-13) (-2)) as (H & _).
  - lia.
  - lia.
  - reflexivity.
  - apply H. right. right. reflexivity.
Defined.

(** X29: the conversions that round or truncate keep the order: under
    [RND::POS_INF], [RND::NEG_INF], [RND::CONV], [TRN::TCPL] and
    [TRN::SMGN], dropping [d] fractional bits of [v <= w] gives results in
    the same order. *)
Theorem X29_fracConvert_monotone (fromFrac toFrac m v w rv rw : Z) :
  0 < fromFrac - toFrac <= 30 ->
  - 2 ^ 62 <= v < 2 ^ 62 -> - 2 ^ 62 <= w < 2 ^ 62 ->
  m = RND.POS_INF \/ m = RND.NEG_INF \/ m = RND.CONV \/ m = TRN.TCPL \/ m = TRN.SMGN ->
  fracConvert fromFrac toFrac m v = Ok rv ->
  fracConvert fromFrac toFrac m w = Ok rw ->
  v <= w -> rv <= rw.
Proof.
  intros Hd Hv Hw Hm Ev Ew Hle.
  destruct (Z.eq_dec v w) as [->|Hne]; [rewrite Ev in Ew; injection Ew as <-; lia|].
  destruct (fracConvert_error _ _ _ _ _ Hd Hv Ev) as (Nv & Tv & Sv).
  destruct (fracConvert_error _ _ _ _ _ Hd Hw Ew) as (Nw & Tw & Sw).
  set (D := 2 ^ (fromFrac - toFrac)) in *.
  assert (HD : 0 < D) by (apply Z.pow_pos_nonneg; lia).
  destruct (Z.le_gt_cases rv rw) as [|Hgt]; [assumption|exfalso].
  assert (Hstep : (rw + 1) * D <= rv * D) by (apply Z.mul_le_mono_nonneg_r; lia).
  destruct Hm as [Hm|[Hm|[Hm|[Hm|Hm]]]].
  - specialize (Nv (or_introl Hm)). specialize (Nw (or_introl Hm)). lia.
  - specialize (Nv (or_intror (or_introl Hm))). specialize (Nw (or_intror (or_introl Hm))).
    lia.
  - specialize (Nv (or_intror (or_intror Hm))). specialize (Nw (or_intror (or_intror Hm))).
    lia.
  - specialize (Tv Hm). specialize (Tw Hm). lia.
  - subst m. cbn in Ev, Ew. frac_guards_in Ev. frac_guards_in Ew.
    injection Ev as <-. injection Ew as <-.
    rewrite !fracConvert_SMGN_spec in Hgt by lia. fold D in Hgt.
    pose proof (Z.quot_le_mono v w D HD Hle). lia.
Qed.

Lemma X29_fracConvert_monotone_witness : -2 <= -1.
Proof.
  apply (X29_fracConvert_monotone 3 0 RND.CONV (-13) (-11) (-2) (-1)).
  - lia.
  - lia.
  - lia.
  - right. right. left. reflexivity.
  - reflexivity.
  - reflexivity.
  - lia.
Defined.

(** X30: the overflow conversions are idempotent, and the two clamping
    ones keep the order.  Converting a second time to the same format
    under the same implemented mode changes nothing; under [SAT::TCPL] and
    [SAT::SMGN], [v <= w] gives results in the same order. *)
Theorem X30_intConvert_idempotent_and_monotone (i f : Z) (s : bool) (m v q : Z) :
  0 <= i + f <= 31 ->
  intConvert i f s m v = Ok q ->
  intConvert i f s m q = Ok q /\
  (m = SAT.TCPL \/ m = SAT.SMGN ->
   forall w qw, v <= w -> intConvert i f s m w = Ok qw -> q <= qw).
Proof.
  intros Hw Hq. pose proof (intConvert_Ok_mode _ _ _ _ _ _ Hq) as Hm.
  assert (Hp : 0 < 2 ^ (i + f)) by (apply Z.pow_pos_nonneg; lia).
  assert (Hc : m = 0 \/ m = 1 \/ m = 2 \/ m = 3) by lia.
  split.
  - destruct Hc as [->|[->|[->| ->]]]; cbn in Hq |- *; injection Hq as <-; f_equal.
    + rewrite !intConvert_SAT_TCPL_spec by exact Hw. destruct s; lia.
    + rewrite !intConvert_SAT_ZERO_spec by exact Hw.
      destruct (Z.ltb_spec (2 ^ (i + f) - 1) v); cbn [orb].
      * destruct (Z.ltb_spec (2 ^ (i + f) - 1) 0); [lia|].
        destruct (Z.ltb_spec 0 (if s then - 2 ^ (i + f) else 0)); [destruct s; lia|].
        reflexivity.
      * destruct (Z.ltb_spec v (if s then - 2 ^ (i + f) else 0)).
        -- destruct (Z.ltb_spec (2 ^ (i + f) - 1) 0); [lia|].
           destruct (Z.ltb_spec 0 (if s then - 2 ^ (i + f) else 0)); [destruct s; lia|].
           reflexivity.
        -- destruct (Z.ltb_spec (2 ^ (i + f) - 1) v); [lia|].
           destruct (Z.ltb_spec v (if s then - 2 ^ (i + f) else 0)); [lia|]. reflexivity.
    + rewrite !intConvert_SAT_SMGN_spec by exact Hw. destruct s; lia.
    + apply intConvert_WRP_in_range; [exact Hw|].
      rewrite intConvert_WRP_TCPL_spec by exact Hw.
      assert (Hpp : 2 ^ (i + f + 1) = 2 * 2 ^ (i + f))
        by (rewrite Z.pow_add_r by lia; lia).
      destruct s.
      * pose proof (Z.mod_pos_bound (v + 2 ^ (i + f)) (2 ^ (i + f + 1)) ltac:(lia)). lia.
      * pose proof (Z.mod_pos_bound v (2 ^ (i + f)) ltac:(lia)). lia.
  - intros [-> | ->] w qw Hle Hqw; cbn in Hq, Hqw; injection Hq as <-; injection Hqw as <-.
    + rewrite !intConvert_SAT_TCPL_spec by exact Hw. lia.
    + rewrite !intConvert_SAT_SMGN_spec by exact Hw. lia.
Qed.

Lemma X30_intConvert_idempotent_and_monotone_witness :
  intConvert 4 4 true WRP.TCPL (-256) = Ok (-256).
Proof.
  destruct (X30_intConvert_idempotent_and_monotone 4 4 true WRP.TCPL 256 (-256)) as [H _].
  - lia.
  - reflexivity.
  - exact H.
Defined.
